(** * calpac-2026: the handicap / net-score engine of the group page

    Shallow embedding of the pure functions of
    [src/app/group/[groupId]/page.tsx] (stroke allocation, running net
    total, net-to-par, end-of-round penalty, leaderboard order, distance
    notes) and the properties the specification states about them.

    Numbers.  A TypeScript [number] is an IEEE-754 double.  The embedding
    keeps the three kinds of special value the source tests for ([NaN],
    [+Infinity], [-Infinity]) and takes a finite value to be an exact
    rational: rounding is not modelled, and the two zeros are one.  On
    integers of magnitude below 2^53, where scores, pars, handicaps and
    distances live, double arithmetic is exact and agrees with the
    embedding. *)

From Stdlib Require Import ZArith QArith Qcanon Qround Lia.
From Stdlib Require Import Sorted Permutation OrdersEx.
From Stdlib Require Import Ascii String DecimalString DecimalN DecimalPos.
From stdpp Require Import base numbers list strings gmap.

Local Open Scope Z_scope.

(** ** JavaScript numbers *)

Module JS.

Inductive number : Type :=
  | NaN
  | PInf
  | NInf
  | Fin (q : Qc).

Definition num (z : Z) : number := Fin (Qc_of_Z z).

#[global] Instance number_eq_dec : EqDecision number.
Proof. solve_decision. Defined.

(** Closed equations between values that contain numbers are settled by
    running the decision procedure: a rational carries a proof that it is
    in lowest terms, so two equal results need not be syntactically equal. *)
Ltac js_compute :=
  match goal with
  | |- ?P =>
      let d := constr:(_ : Decision P) in
      apply (@bool_decide_eq_true_1 P d); vm_compute; reflexivity
  end.

Ltac js_refute :=
  match goal with
  | |- ?a <> ?b =>
      let d := constr:(_ : Decision (a = b)) in
      apply (@bool_decide_eq_false_1 (a = b) d); vm_compute; reflexivity
  end.

(** [Number.isFinite] *)
Definition isFinite (x : number) : bool :=
  match x with Fin _ => true | _ => false end.

(** [Math.floor] *)
Definition floor (x : number) : number :=
  match x with
  | Fin q => num (Qfloor q)
  | other => other
  end.

Definition neg (x : number) : number :=
  match x with
  | NaN => NaN
  | PInf => NInf
  | NInf => PInf
  | Fin q => Fin (- q)%Qc
  end.

(** [x + y] *)
Definition add (x y : number) : number :=
  match x, y with
  | NaN, _ | _, NaN => NaN
  | PInf, NInf | NInf, PInf => NaN
  | PInf, _ | _, PInf => PInf
  | NInf, _ | _, NInf => NInf
  | Fin a, Fin b => Fin (a + b)%Qc
  end.

(** [x - y] *)
Definition sub (x y : number) : number :=
  match x, y with
  | NaN, _ | _, NaN => NaN
  | PInf, PInf | NInf, NInf => NaN
  | PInf, _ | _, NInf => PInf
  | NInf, _ | _, PInf => NInf
  | Fin a, Fin b => Fin (a - b)%Qc
  end.

Definition Qcltb (a b : Qc) : bool :=
  match (a ?= b)%Qc with Lt => true | _ => false end.

Definition Qcleb (a b : Qc) : bool :=
  match (a ?= b)%Qc with Gt => false | _ => true end.

Definition Qceqb (a b : Qc) : bool :=
  match (a ?= b)%Qc with Eq => true | _ => false end.

(** [x * y] *)
Definition mul (x y : number) : number :=
  match x, y with
  | NaN, _ | _, NaN => NaN
  | Fin a, Fin b => Fin (a * b)%Qc
  | Fin a, inf | inf, Fin a =>
      if Qceqb a (Qc_of_Z 0) then NaN
      else if Qcltb (Qc_of_Z 0) a then inf else neg inf
  | PInf, PInf | NInf, NInf => PInf
  | PInf, NInf | NInf, PInf => NaN
  end.

(** [x / y]; a zero divisor is taken as [+0]. *)
Definition div (x y : number) : number :=
  match x, y with
  | NaN, _ | _, NaN => NaN
  | Fin a, Fin b =>
      if Qceqb b (Qc_of_Z 0) then
        (if Qceqb a (Qc_of_Z 0) then NaN else if Qcltb (Qc_of_Z 0) a then PInf else NInf)
      else Fin (a / b)%Qc
  | Fin _, _ => num 0
  | inf, Fin b => if Qcleb (Qc_of_Z 0) b then inf else neg inf
  | _, _ => NaN
  end.

(** [x < y], [x <= y], [x > y], [x >= y]: all false on [NaN]. *)
Definition lt (x y : number) : bool :=
  match x, y with
  | NaN, _ | _, NaN => false
  | Fin a, Fin b => Qcltb a b
  | NInf, NInf | PInf, _ | _, NInf => false
  | NInf, _ | _, PInf => true
  end.

Definition le (x y : number) : bool :=
  match x, y with
  | NaN, _ | _, NaN => false
  | Fin a, Fin b => Qcleb a b
  | NInf, _ | _, PInf => true
  | PInf, _ | _, NInf => false
  end.

Definition gt (x y : number) : bool := lt y x.
Definition ge (x y : number) : bool := le y x.

(** [Math.max(x, y)] *)
Definition max (x y : number) : number :=
  match x, y with
  | NaN, _ | _, NaN => NaN
  | _, _ => if lt x y then y else x
  end.

(** [x % y]: the remainder has the sign of the dividend. *)
Definition rem (x y : number) : number :=
  match x, y with
  | Fin a, Fin b =>
      if Qceqb b (Qc_of_Z 0) then NaN
      else
        let t := (a / b)%Qc in
        let k := if Qcleb (Qc_of_Z 0) t then Qfloor t else Qceiling t in
        Fin (a - b * Qc_of_Z k)%Qc
  | Fin a, (PInf | NInf) => Fin a
  | _, _ => NaN
  end.

(** Truthiness of a number, as [||] and [if] read it. *)
Definition truthy (x : number) : bool :=
  match x with
  | NaN => false
  | Fin q => negb (Qceqb q (Qc_of_Z 0))
  | _ => true
  end.

End JS.

Import JS.

(** ** The engine *)

Module Engine.

Definition HOLE_COUNT : nat := 18.

(** A score cell of type [number | null]. *)
Definition cell : Type := option number.

(** The reducer [(acc, v) => typeof v === "number" ? acc + v : acc]. *)
Definition addCell (acc : number) (v : cell) : number :=
  match v with Some n => add acc n | None => acc end.

(** [scores.reduce(addCell, 0)] *)
Definition sum (scores : list cell) : number :=
  fold_left addCell scores (num 0).

(** The test [typeof v === "number" && Number.isFinite(v) && v >= 0]. *)
Definition playedCell (v : cell) : bool :=
  match v with
  | Some n => isFinite n && ge n (num 0)
  | None => false
  end.

(** [scores] may be [undefined] at the call sites that index a record. *)
Definition isCompleteRound (scores : option (list cell)) : bool :=
  match scores with
  | None => false
  | Some l =>
      if negb (Nat.eqb (length l) HOLE_COUNT) then false
      else forallb playedCell l
  end.

Definition sumNumbers (values : list number) : number :=
  fold_left add values (num 0).

Definition strokesForHole (holeStrokeIndex totalStrokes : number) : number :=
  if negb (isFinite holeStrokeIndex)
     || lt holeStrokeIndex (num 1) || gt holeStrokeIndex (num 18)
  then num 0
  else
    let s := floor totalStrokes in
    if negb (isFinite s) || le s (num 0) then num 0
    else if lt s holeStrokeIndex then num 0
    else add (num 1) (floor (div (sub s holeStrokeIndex) (num 18))).

(** Reading [a[i]] past the end of an array gives [undefined], which
    arithmetic and [Number.isFinite] treat as [NaN]. *)
Definition orNaN (x : option number) : number :=
  match x with Some n => n | None => NaN end.

Definition numAt (a : list number) (i : nat) : number := orNaN (a !! i).

(** [x ?? 0] on a number that may be absent. *)
Definition orZero (x : option number) : number :=
  match x with Some n => n | None => num 0 end.

(** A score cell read as a number ([scores[i] as number]): [null] converts
    to [0] in arithmetic, an absent entry to [NaN]. *)
Definition cellAsNumber (c : option cell) : number :=
  match c with
  | Some (Some n) => n
  | Some None => num 0
  | None => NaN
  end.

Definition cellToNumber (scores : list cell) (i : nat) : number :=
  cellAsNumber (scores !! i).

(** [Array.isArray(a) && a.length === HOLE_COUNT] on an optional table. *)
Definition validTable (a : option (list number)) : option (list number) :=
  match a with
  | Some l => if Nat.eqb (length l) HOLE_COUNT then Some l else None
  | None => None
  end.

Definition computeNetRunningTotal
    (scores : list cell) (hcps : option (list number)) (totalStrokes : number)
    : number :=
  let gross := sum scores in
  match validTable hcps with
  | None =>
      if isCompleteRound (Some scores) then sub gross (floor totalStrokes)
      else gross
  | Some h =>
      let strokesUsed :=
        fold_left
          (fun used i =>
             match scores !! i with
             | Some v =>
                 if playedCell v
                 then add used (strokesForHole (numAt h i) totalStrokes)
                 else used
             | None => used
             end)
          (seq 0 HOLE_COUNT) (num 0) in
      sub gross strokesUsed
  end.

Definition computeNetToPar
    (scores : list cell) (pars hcps : option (list number))
    (totalStrokes : number) : option number :=
  if negb (isCompleteRound (Some scores)) then None
  else
    match validTable pars with
    | None => None
    | Some p =>
        let parsTotal := sumNumbers p in
        match validTable hcps with
        | Some h =>
            let netTotal :=
              fold_left
                (fun net i =>
                   let grossHole := cellToNumber scores i in
                   let holeStrokes := strokesForHole (numAt h i) totalStrokes in
                   add net (sub grossHole holeStrokes))
                (seq 0 HOLE_COUNT) (num 0) in
            Some (sub netTotal parsTotal)
        | None =>
            let grossTotal := sum scores in
            let netTotal := sub grossTotal (floor totalStrokes) in
            Some (sub netTotal parsTotal)
        end
    end.

Definition computeToParSoFar
    (scores : list cell) (pars : option (list number)) : option number :=
  match validTable pars with
  | None => None
  | Some p =>
      let '(grossSoFar, parSoFar, holesCounted) :=
        fold_left
          (fun '(g, q, n) i =>
             match scores !! i with
             | Some (Some v) =>
                 if playedCell (Some v)
                 then (add g v, add q (orZero (p !! i)), S n)
                 else (g, q, n)
             | _ => (g, q, n)
             end)
          (seq 0 HOLE_COUNT) (num 0, num 0, O) in
      if Nat.eqb holesCounted 0 then None
      else Some (sub grossSoFar parSoFar)
  end.

Definition applyCharityAtEnd
    (net : number) (scores : list cell) (charity : number) : number :=
  let c := floor charity in
  if negb (isFinite c) || le c (num 0) then net
  else if isCompleteRound (Some scores) then sub net c else net.

End Engine.

Import Engine.

(** ** Reading the stored score table *)

Module Store.

(** A value as the document store hands it over.  The declared type of a
    stored cell is [number | null]; the coercion below tests the runtime
    type, so the other shapes are kept.  [VOther] stands for every value
    that is neither a primitive nor tested for (nested arrays, maps,
    timestamps). *)
Inductive value : Type :=
  | VUndefined
  | VNull
  | VBool (b : bool)
  | VNumber (n : number)
  | VString (s : string)
  | VOther.

(** What a record holds under a key: an array, or any other value. *)
Inductive field : Type :=
  | Items (items : list value)
  | Scalar (v : value).

(** The callback of [Array.from]: [existing[i]] is [undefined] past the end
    of the stored array;
    [typeof v === "number" && Number.isFinite(v) ? v : null]. *)
Definition coerceCell (v : option value) : cell :=
  match v with
  | Some (VNumber n) => if isFinite n then Some n else None
  | _ => None
  end.

(** The row built for one player: [input?.[player]] is [None] when the
    table or the player's entry is absent. *)
Definition coerceRow (existing : option field) : list cell :=
  match existing with
  | Some (Items items) =>
      (fun i => coerceCell (items !! i)) <$> seq 0 HOLE_COUNT
  | _ => replicate HOLE_COUNT None
  end.

Definition coerceScoreTable
    (players : list string) (input : option (gmap string field))
    : gmap string (list cell) :=
  fold_left
    (fun next player =>
       let existing := input ≫= (fun table => table !! player) in
       <[player := coerceRow existing]> next)
    players ∅.

(** [typeof v === "number" && Number.isFinite(v) ? v : defaultValue] for
    each player. *)
Definition coerceNumberMap
    (players : list string) (input : option (gmap string field))
    (defaultValue : number) : gmap string number :=
  fold_left
    (fun next p =>
       let v := input ≫= (fun table => table !! p) in
       <[p := match v with
              | Some (Scalar (VNumber n)) =>
                  if isFinite n then n else defaultValue
              | _ => defaultValue
              end]> next)
    players ∅.

End Store.

Import Store.

(** ** Leaderboards *)

Module Board.

Inductive DayKey : Type := day1 | day2.

Inductive TeeKey : Type := combo | three | four | stampede | tips.

Definition teeBonusForDay (day : DayKey) (tee : option TeeKey) : number :=
  match day with
  | day1 =>
      match tee with
      | Some three => num 1
      | Some four => num 2
      | _ => num 0
      end
  | day2 => num 0
  end.

Record LeaderRow : Type := {
  player : string;
  handicap : number;
  adjustment : number;
  gross : number;
  net : number;
  toPar : option number;
}.

(** The part of the page state the two leaderboards read.  A record of the
    source indexed by player name is a finite map; [group?.tournament?.x]
    is [None] when any link of the chain is absent. *)
Record PageState : Type := {
  playersDay1 : list string;
  playersDay2 : list string;
  scoresByDay_day1 : gmap string (list cell);
  scoresByDay_day2 : gmap string (list cell);
  handicaps : gmap string number;
  day2Adjustments : gmap string number;
  teeChoicesByDay_day1 : gmap string TeeKey;
  teeChoicesByDay_day2 : gmap string TeeKey;
  charityStrokes : gmap string number;
  treeStrokes : gmap string number;
  day1Pars : option (list number);
  day2Pars : option (list number);
  day1Hcps : option (list number);
  day2Hcps : option (list number);
}.

(** [Array.from({ length: HOLE_COUNT }, () => null)] *)
Definition emptyCard : list cell := replicate HOLE_COUNT None.

Definition day1Row (st : PageState) (p : string) : LeaderRow :=
  let card := scoresByDay_day1 st !! p in
  let gross := sum (default [] card) in
  let handicap := orZero (handicaps st !! p) in
  let teeBonus := teeBonusForDay day1 (teeChoicesByDay_day1 st !! p) in
  let charity := orZero (charityStrokes st !! p) in
  let tree := orZero (treeStrokes st !! p) in
  let allocationStrokes := add handicap teeBonus in
  let netBeforeCharity :=
    computeNetRunningTotal (default emptyCard card)
      (validTable (day1Hcps st)) allocationStrokes in
  let net := applyCharityAtEnd netBeforeCharity (default [] card)
               (add charity tree) in
  let toPar :=
    computeToParSoFar (default emptyCard card) (validTable (day1Pars st)) in
  {| player := p; handicap := handicap; adjustment := num 0;
     gross := gross; net := net; toPar := toPar |}.

Definition day2Row (st : PageState) (p : string) : LeaderRow :=
  let card := scoresByDay_day2 st !! p in
  let gross := sum (default [] card) in
  let handicap := orZero (handicaps st !! p) in
  let adjustment := orZero (day2Adjustments st !! p) in
  let teeBonus := teeBonusForDay day2 (teeChoicesByDay_day2 st !! p) in
  let charity := orZero (charityStrokes st !! p) in
  let tree := orZero (treeStrokes st !! p) in
  let allocationStrokes := add (add handicap adjustment) teeBonus in
  let netBeforeCharity :=
    computeNetRunningTotal (default emptyCard card)
      (validTable (day2Hcps st)) allocationStrokes in
  let net := applyCharityAtEnd netBeforeCharity (default [] card)
               (add charity tree) in
  let toPar :=
    computeToParSoFar (default emptyCard card) (validTable (day2Pars st)) in
  {| player := p; handicap := handicap; adjustment := adjustment;
     gross := gross; net := net; toPar := toPar |}.

(** [Array.prototype.sort(comparefn)].  ECMAScript reads the comparator
    through [SortCompare] (a [NaN] result counts as [0]), requires the sort
    to be stable, and fixes the result whenever the comparator is
    consistent; a stable insertion sort is one such algorithm.  An element
    goes before the first element it does not compare greater than. *)
Definition sortCompare {A} (comparefn : A -> A -> number) (x y : A) : number :=
  match comparefn x y with
  | NaN => num 0
  | v => v
  end.

(** The test of the insertion below, as a proposition. *)
Definition comesFirst {A} (comparefn : A -> A -> number) (x y : A) : Prop :=
  le (sortCompare comparefn x y) (num 0) = true.

Fixpoint insertSorted {A} (comparefn : A -> A -> number) (x : A) (l : list A)
    : list A :=
  match l with
  | [] => [x]
  | y :: l' =>
      if le (sortCompare comparefn x y) (num 0) then x :: y :: l'
      else y :: insertSorted comparefn x l'
  end.

Definition arraySort {A} (comparefn : A -> A -> number) (l : list A) : list A :=
  foldr (insertSorted comparefn) [] l.

(** [x || y] on numbers: the first operand when it is truthy. *)
Definition orElse (x y : number) : number := if truthy x then x else y.

Section Comparator.

(** [String.prototype.localeCompare]: the collation of the host.  Its value
    is a finite number whose sign alone matters. *)
Variable localeCompare : string -> string -> Z.

(** [(a, b) => a.net - b.net || a.gross - b.gross ||
               a.player.localeCompare(b.player)] *)
Definition rowCompare (a b : LeaderRow) : number :=
  orElse (sub (net a) (net b))
    (orElse (sub (gross a) (gross b))
       (num (localeCompare (player a) (player b)))).

Definition day1Leaderboard (st : PageState) : list LeaderRow :=
  arraySort rowCompare (map (day1Row st) (playersDay1 st)).

Definition day2Leaderboard (st : PageState) : list LeaderRow :=
  arraySort rowCompare (map (day2Row st) (playersDay2 st)).

End Comparator.

End Board.

Import Board.

(** ** Distance notes: feet and inches *)

Module Distance.

(** *** Strings and characters

    A string is a sequence of code units; the notes the page handles are
    ASCII, so a code unit is an [ascii]. *)

Definition isDigit (c : ascii) : bool :=
  let n := nat_of_ascii c in (48 <=? n)%nat && (n <=? 57)%nat.

(** White space as [\s] and [trim] see it: TAB, LF, VT, FF, CR, SP, NBSP. *)
Definition isSpace (c : ascii) : bool :=
  let n := nat_of_ascii c in
  ((9 <=? n)%nat && (n <=? 13)%nat) || (n =? 32)%nat || (n =? 160)%nat.

Definition toLower (c : ascii) : ascii :=
  let n := nat_of_ascii c in
  if (65 <=? n)%nat && (n <=? 90)%nat then ascii_of_nat (n + 32) else c.

(** The double quote, written by its code. *)
Definition dquote : ascii := ascii_of_nat 34.

Fixpoint dropSpaces (s : list ascii) : list ascii :=
  match s with
  | c :: s' => if isSpace c then dropSpaces s' else s
  | [] => []
  end.

(** [String.prototype.trim] *)
Definition trimChars (s : list ascii) : list ascii :=
  rev (dropSpaces (rev (dropSpaces s))).

Definition trim (s : string) : string :=
  string_of_list_ascii (trimChars (list_ascii_of_string s)).

(** *** Regular expressions

    The fragment the three patterns of [parseFeetInches] use, with the
    backtracking semantics of ECMAScript: alternatives in order, greedy
    quantifiers, an iteration of [*] that matches the empty string is
    rejected, a group that does not take part stays undefined. *)
Inductive regex : Type :=
  | Eps
  | Chr (c : ascii)                  (* a character, compared under [/i] *)
  | Digit                            (* [\d] *)
  | Space                            (* [\s] *)
  | Seq (r1 r2 : regex)
  | Alt (r1 r2 : regex)
  | Star (r : regex)
  | Group (n : nat) (r : regex).     (* capturing group number [n] *)

Definition Plus (r : regex) : regex := Seq r (Star r).
Definition Opt (r : regex) : regex := Alt r Eps.

Fixpoint Lit (s : list ascii) : regex :=
  match s with
  | [] => Eps
  | c :: s' => Seq (Chr c) (Lit s')
  end.

Definition word (s : string) : regex := Lit (list_ascii_of_string s).

(** Captures: the latest binding of a group is the first in the list. *)
Definition captures : Type := list (nat * list ascii).

Definition capture (caps : captures) (n : nat) : option (list ascii) :=
  snd <$> List.find (fun p => Nat.eqb (fst p) n) caps.

Section Matcher.

Context {T : Type}.

(** A continuation receives what is left of the input and the captures. *)
Definition cont : Type := list ascii -> captures -> option T.

Definition orTry (x y : option T) : option T :=
  match x with Some v => Some v | None => y end.

(** Greedy iteration: one more round of [m] if it consumes input and the
    rest then matches, else stop here. *)
Fixpoint starLoop (m : list ascii -> captures -> cont -> option T)
    (fuel : nat) (s : list ascii) (caps : captures) (k : cont) : option T :=
  match fuel with
  | O => k s caps
  | S fuel' =>
      orTry
        (m s caps
           (fun s' caps' =>
              if (length s' <? length s)%nat
              then starLoop m fuel' s' caps' k
              else None))
        (k s caps)
  end.

Fixpoint matchR (r : regex) (s : list ascii) (caps : captures) (k : cont)
    : option T :=
  match r with
  | Eps => k s caps
  | Chr c =>
      match s with
      | c' :: s' =>
          if Ascii.eqb (toLower c) (toLower c') then k s' caps else None
      | [] => None
      end
  | Digit =>
      match s with
      | c' :: s' => if isDigit c' then k s' caps else None
      | [] => None
      end
  | Space =>
      match s with
      | c' :: s' => if isSpace c' then k s' caps else None
      | [] => None
      end
  | Seq r1 r2 => matchR r1 s caps (fun s' caps' => matchR r2 s' caps' k)
  | Alt r1 r2 => orTry (matchR r1 s caps k) (matchR r2 s caps k)
  | Star r1 => starLoop (matchR r1) (length s) s caps k
  | Group n r1 =>
      matchR r1 s caps
        (fun s' caps' =>
           k s' ((n, take (length s - length s') s) :: caps'))
  end.

End Matcher.

(** A match: the matched text, the captures, and the input after it. *)
Record found : Type := {
  matched : list ascii;
  groups : captures;
  after : list ascii;
}.

Definition matchHere (r : regex) (s : list ascii) : option found :=
  matchR r s []
    (fun s' caps =>
       Some {| matched := take (length s - length s') s;
               groups := caps; after := s' |}).

(** The leftmost match. *)
Fixpoint search (r : regex) (s : list ascii) : option found :=
  match matchHere r s with
  | Some m => Some m
  | None =>
      match s with
      | [] => None
      | _ :: s' => search r s'
      end
  end.

(** [s.match(r)] for a pattern without the [g] flag. *)
Definition matchFirst (r : regex) (s : string) : option found :=
  search r (list_ascii_of_string s).

(** [s.match(r)] for a pattern with the [g] flag: every match, left to
    right; after an empty match the search moves on by one character. *)
Fixpoint searchAll (fuel : nat) (r : regex) (s : list ascii)
    : list (list ascii) :=
  match fuel with
  | O => []
  | S fuel' =>
      match search r s with
      | None => []
      | Some m =>
          matched m ::
          match matched m, after m with
          | [], [] => []
          | [], _ :: rest => searchAll fuel' r rest
          | _ :: _, rest => searchAll fuel' r rest
          end
      end
  end.

Definition matchAll (r : regex) (s : string) : list string :=
  let chars := list_ascii_of_string s in
  string_of_list_ascii <$> searchAll (S (length chars)) r chars.

(** [m[n]], or the empty string when the group is undefined. *)
Definition groupOrEmpty (m : found) (n : nat) : string :=
  match capture (groups m) n with
  | Some text => string_of_list_ascii text
  | None => EmptyString
  end.

(** [/(\d+)\s*'\s*(\d+)?\s*(?:Q|in|inch|inches)?/i], where [Q] stands for
    the escaped double quote of the source. *)
Definition apostrophePattern : regex :=
  Seq (Group 1 (Plus Digit))
    (Seq (Star Space)
       (Seq (Chr "'"%char)
          (Seq (Star Space)
             (Seq (Opt (Group 2 (Plus Digit)))
                (Seq (Star Space)
                   (Opt (Alt (Chr dquote)
                           (Alt (word "in")
                              (Alt (word "inch") (word "inches"))))))))))%string.

(** [/(\d+)\s*(?:ft|feet)\s*(\d+)?\s*(?:in|inch|inches)?/i] *)
Definition ftInPattern : regex :=
  Seq (Group 1 (Plus Digit))
    (Seq (Star Space)
       (Seq (Alt (word "ft") (word "feet"))
          (Seq (Star Space)
             (Seq (Opt (Group 2 (Plus Digit)))
                (Seq (Star Space)
                   (Opt (Alt (word "in")
                           (Alt (word "inch") (word "inches")))))))))%string.

(** [/\d+/g] *)
Definition numberPattern : regex := Plus Digit.

Record feetInches : Type := { feet : string; inches : string }.

Definition parseFeetInches (note : string) : feetInches :=
  let raw := trim note in
  if String.eqb raw EmptyString then {| feet := EmptyString; inches := EmptyString |}
  else
    match matchFirst apostrophePattern raw with
    | Some m => {| feet := groupOrEmpty m 1; inches := groupOrEmpty m 2 |}
    | None =>
        match matchFirst ftInPattern raw with
        | Some m => {| feet := groupOrEmpty m 1; inches := groupOrEmpty m 2 |}
        | None =>
            match matchAll numberPattern raw with
            | first :: second :: _ => {| feet := first; inches := second |}
            | [first] => {| feet := first; inches := EmptyString |}
            | [] => {| feet := EmptyString; inches := EmptyString |}
            end
        end
    end.

(** *** Numbers and their text *)

(** The text of a non-negative integer, in decimal. *)
Definition decimal (n : N) : string :=
  NilEmpty.string_of_uint (N.to_uint n).

(** Exponent notation for an integer of more than 21 digits: the digits
    without the trailing zeros, a point after the first of them when there
    are several, then [e+] and the decimal exponent.  (For a double the
    digits are the shortest that read back as the same double; on a power
    of ten both readings give the single digit 1.) *)
Fixpoint dropZeros (s : list ascii) : list ascii :=
  match s with
  | c :: s' => if Ascii.eqb c "0"%char then dropZeros s' else s
  | [] => []
  end.

Definition exponentText (n : N) : string :=
  let all := list_ascii_of_string (decimal n) in
  let significant := rev (dropZeros (rev all)) in
  let exponent := decimal (N.of_nat (length all - 1)) in
  match significant with
  | [] => EmptyString
  | [d] => (String d "e+" ++ exponent)%string
  | d :: more =>
      (String d (String "."%char (string_of_list_ascii more))
         ++ "e+" ++ exponent)%string
  end.

Section Host.

(** [Number(s)] reads a [StringNumericLiteral].  A run of decimal digits
    (the empty run included) has the value it spells; the other forms
    (sign, fraction, exponent, [Infinity], radix prefixes, and everything
    that is not a literal, which gives [NaN]) are left to the host. *)
Variable otherLiteral : string -> number.

Definition Number (s : string) : number :=
  let t := trim s in
  match NilEmpty.uint_of_string t with
  | Some d => num (Z.of_N (N.of_uint d))
  | None => otherLiteral t
  end.

(** The text of a number in a template literal ([Number::toString]).  A
    non-negative integer below 10^21 prints in decimal; from 10^21 on the
    text is in exponent notation.  Only the text of a fraction is left to
    the host. *)
Variable fractionText : Qc -> string.

Definition integerText (n : N) : string :=
  if (n <? 10 ^ 21)%N then decimal n else exponentText n.

Definition ToString (x : number) : string :=
  match x with
  | NaN => "NaN"
  | PInf => "Infinity"
  | NInf => "-Infinity"
  | Fin q =>
      if Qceqb q (Qc_of_Z (Qfloor q)) then
        if Qcleb (Qc_of_Z 0) q then integerText (Z.to_N (Qfloor q))
        else "-" ++ integerText (Z.to_N (- Qfloor q))
      else fractionText q
  end%string.

Definition formatFeetInches (feetRaw inchesRaw : string) : string :=
  let feetTrim := trim feetRaw in
  let inchesTrim := trim inchesRaw in
  if String.eqb feetTrim EmptyString && String.eqb inchesTrim EmptyString
  then EmptyString
  else
    let feetNum :=
      if String.eqb feetTrim EmptyString then num 0
      else max (num 0) (floor (Number feetTrim)) in
    let inchesNum :=
      if String.eqb inchesTrim EmptyString then num 0
      else max (num 0) (floor (Number inchesTrim)) in
    if negb (isFinite feetNum) || negb (isFinite inchesNum) then EmptyString
    else
      let totalInches := add (mul feetNum (num 12)) inchesNum in
      let normFeet := floor (div totalInches (num 12)) in
      let normInches := rem totalInches (num 12) in
      (ToString normFeet ++ "' " ++ ToString normInches
         ++ String dquote EmptyString)%string.

End Host.

End Distance.

Import Distance.

(** ** Player names *)

Module Roster.

Section Names.

(** [String.prototype.toLowerCase]: the case mapping of the host. *)
Variable toLowerCase : string -> string.

(** One turn of the loop of [uniqPreserveOrder] over [out] and [seen]. *)
Definition uniqStep (acc : list string * gset string) (v : string)
    : list string * gset string :=
  let '(out, seen) := acc in
  let key := trim v in
  if String.eqb key EmptyString then (out, seen)
  else
    let lowered := toLowerCase key in
    if decide (lowered ∈ seen) then (out, seen)
    else (out ++ [key], {[ lowered ]} ∪ seen).

Definition uniqPreserveOrder (values : list string) : list string :=
  fst (fold_left uniqStep values ([], ∅)).

End Names.

End Roster.

Import Roster.

(** ** The page state built from a stored document *)

Module Snapshot.

(** [v === "three" || v === "four" || ...]: the stored value is one of the
    five tee names. *)
Definition teeOfValue (v : value) : option TeeKey :=
  match v with
  | VString s =>
      if String.eqb s "three" then Some three
      else if String.eqb s "four" then Some four
      else if String.eqb s "combo" then Some combo
      else if String.eqb s "stampede" then Some stampede
      else if String.eqb s "tips" then Some tips
      else None
  | _ => None
  end.

Definition coerceTeeMap
    (players : list string) (input : option (gmap string field))
    (defaultValue : TeeKey) : gmap string TeeKey :=
  fold_left
    (fun next p =>
       let v := input ≫= (fun table => table !! p) in
       <[p := match v with
              | Some (Scalar s) => default defaultValue (teeOfValue s)
              | _ => defaultValue
              end]> next)
    players ∅.

(** What the stored [scores] object holds under a key: in the old format a
    player's row, in the new one the table of a day. *)
Inductive entry : Type :=
  | Leaf (f : field)
  | Nested (table : gmap string field).

(** An entry read as a player's row: a record is not an array. *)
Definition asRow (e : entry) : field :=
  match e with
  | Leaf f => f
  | Nested _ => Scalar VOther
  end.

(** An entry read as the table of a day.  An array of cells or a primitive
    in that place holds no array under any name, so it reads as no table
    ([null] itself is replaced by [?? null]). *)
Definition asTable (e : entry) : option (gmap string field) :=
  match e with
  | Nested table => Some table
  | Leaf _ => None
  end.

(** The result is the pair of the tables of day 1 and day 2. *)
Definition coerceScoresByDay
    (players : list string) (input : option (gmap string entry))
    : gmap string (list cell) * gmap string (list cell) :=
  let isOld :=
    match input with
    | Some raw =>
        bool_decide (raw !! "day1"%string = None)
        && bool_decide (raw !! "day2"%string = None)
    | None => false
    end in
  let day1Raw :=
    match input with
    | Some raw =>
        if isOld then Some (asRow <$> raw)
        else (raw !! "day1"%string) ≫= asTable
    | None => None
    end in
  let day2Raw :=
    match input with
    | Some raw => if isOld then None else (raw !! "day2"%string) ≫= asTable
    | None => None
    end in
  (coerceScoreTable players day1Raw, coerceScoreTable players day2Raw).

(** The fields of the stored group document that the scoring reads. *)
Record GroupDoc : Type := {
  doc_playerNames : option (list string);
  doc_playerNamesByDay_day1 : option (list string);
  doc_playerNamesByDay_day2 : option (list string);
  doc_scores : option (gmap string entry);
  doc_handicaps : option (gmap string field);
  doc_day2HandicapAdjustments : option (gmap string field);
  doc_teeChoices_day1 : option (gmap string field);
  doc_teeChoices_day2 : option (gmap string field);
  doc_charityStrokes : option (gmap string field);
  doc_treeStrokes : option (gmap string field);
  doc_day1Pars : option (list number);
  doc_day2Pars : option (list number);
  doc_day1Hcps : option (list number);
  doc_day2Hcps : option (list number);
}.

(** [.filter(Boolean)] on names: the empty string is the one falsy name. *)
Definition filterBoolean (names : list string) : list string :=
  List.filter (fun s => negb (String.eqb s EmptyString)) names.

Section Names.

Variable toLowerCase : string -> string.

(** [allPlayers] of the snapshot handler. *)
Definition allPlayers (data : GroupDoc) : list string :=
  let legacy := filterBoolean (default [] (doc_playerNames data)) in
  let d1 := filterBoolean (default legacy (doc_playerNamesByDay_day1 data)) in
  let d2 := filterBoolean (default legacy (doc_playerNamesByDay_day2 data)) in
  uniqPreserveOrder toLowerCase (d1 ++ d2).

(** The rosters the page derives from the stored group. *)
Definition rosterOfDay (fromByDay legacy : option (list string)) : list string :=
  filterBoolean
    (match fromByDay with
     | Some names => names
     | None => default [] legacy
     end).

(** The state after the snapshot handler has run on [data]. *)
Definition onSnapshot (data : GroupDoc) : PageState :=
  let players := allPlayers data in
  let scoresByDay := coerceScoresByDay players (doc_scores data) in
  {| playersDay1 :=
       rosterOfDay (doc_playerNamesByDay_day1 data) (doc_playerNames data);
     playersDay2 :=
       rosterOfDay (doc_playerNamesByDay_day2 data) (doc_playerNames data);
     scoresByDay_day1 := fst scoresByDay;
     scoresByDay_day2 := snd scoresByDay;
     handicaps := coerceNumberMap players (doc_handicaps data) (num 0);
     day2Adjustments :=
       coerceNumberMap players (doc_day2HandicapAdjustments data) (num 0);
     teeChoicesByDay_day1 :=
       coerceTeeMap players (doc_teeChoices_day1 data) combo;
     teeChoicesByDay_day2 :=
       coerceTeeMap players (doc_teeChoices_day2 data) combo;
     charityStrokes := coerceNumberMap players (doc_charityStrokes data) (num 0);
     treeStrokes := coerceNumberMap players (doc_treeStrokes data) (num 0);
     day1Pars := doc_day1Pars data;
     day2Pars := doc_day2Pars data;
     day1Hcps := doc_day1Hcps data;
     day2Hcps := doc_day2Hcps data |}.

End Names.

End Snapshot.

Import Snapshot.

(** ** Entering a score *)

Module ScoreEntry.

Section Host.

Variable otherLiteral : string -> number.

(** [scores[p]?.[i] ?? null] *)
Definition cellOrNull
    (scores : gmap string (list cell)) (p : string) (i : nat) : cell :=
  default None (scores !! p ≫= (fun row => row !! i)).

(** [raw === "" ? null : Number(raw)], then the test of the handler:
    [typeof parsed === "number" && Number.isFinite(parsed) && parsed >= 0]. *)
Definition enteredCell (raw : string) : cell :=
  let parsed :=
    if String.eqb raw EmptyString then None
    else Some (Number otherLiteral raw) in
  match parsed with
  | Some n => if isFinite n && ge n (num 0) then Some n else None
  | None => None
  end.

(** The [onChange] handler of the input of player [p] on the row of hole
    index [holeIdx] (the rows are those of
    [Array.from({ length: HOLE_COUNT })], so [holeIdx] is below eighteen):
    the table that replaces [scores] when the view is not locked. *)
Definition nextScoresTable
    (scores : gmap string (list cell)) (p : string) (holeIdx : nat)
    (raw : string) : gmap string (list cell) :=
  let row := (fun i => cellOrNull scores p i) <$> seq 0 HOLE_COUNT in
  <[p := <[holeIdx := enteredCell raw]> row]> scores.

End Host.

End ScoreEntry.

Import ScoreEntry.

(** ** Contest entries *)

Module Contest.

(** An entry as the page state holds it: [{ winner: string; note: string }]. *)
Record WinnerNoteText : Type := {
  winnerText : string;
  noteText : string;
}.

(** [ContestWinnerNote]: an absent or [null] field is [None]. *)
Record ContestWinnerNote : Type := {
  winner : option string;
  note : option string;
}.

(** The legacy entry of the page state and of the store. *)
Record EntryText : Type := {
  holeText : string;
  entryWinnerText : string;
  entryNoteText : string;
}.

Record ContestEntry : Type := {
  hole : option number;
  entryWinner : option string;
  entryNote : option string;
}.

(** [s ? s : null] on a string: the empty string is the falsy one. *)
Definition orNull (s : string) : option string :=
  if String.eqb s EmptyString then None else Some s.

(** [x != null] *)
Definition notNull {A} (x : option A) : bool :=
  match x with Some _ => true | None => false end.

Section Host.

Variable otherLiteral : string -> number.

Definition holeStringToNumber (s : string) : option number :=
  let n := Number otherLiteral s in
  if negb (isFinite n) then None
  else if le n (num 0) then None
  else Some (floor n).

Definition normalizeContestEntry (input : EntryText) : ContestEntry :=
  {| hole :=
       if String.eqb (holeText input) EmptyString then None
       else holeStringToNumber (holeText input);
     entryWinner := orNull (trim (entryWinnerText input));
     entryNote := orNull (trim (entryNoteText input)) |}.

End Host.

Definition normalizeWinnerNote (input : WinnerNoteText) : ContestWinnerNote :=
  let winner := trim (winnerText input) in
  let note := trim (noteText input) in
  {| winner := orNull winner; note := orNull note |}.

(** The loop visits every key of [input] once and writes under that key. *)
Definition normalizeClosestToPinByHoleState
    (input : gmap string WinnerNoteText) : gmap string ContestWinnerNote :=
  omap
    (fun entry =>
       let normalized := normalizeWinnerNote entry in
       if notNull (winner normalized) || notNull (note normalized)
       then Some normalized else None)
    input.

(** The part of [contest.dayN] that the closest-to-pin state is read from;
    an entry of the stored map may itself be [null]. *)
Record ContestDoc : Type := {
  closestToPinByHole : option (gmap string (option ContestWinnerNote));
  closestToPin : option ContestEntry;
}.

Section Text.

Variable fractionText : Qc -> string.

Definition coerceClosestToPinByHoleFromDoc (input : option ContestDoc)
    : gmap string WinnerNoteText :=
  match input ≫= closestToPinByHole with
  | Some map =>
      (fun v =>
         {| winnerText := default EmptyString (v ≫= winner);
            noteText := default EmptyString (v ≫= note) |}) <$> map
  | None =>
      match input ≫= closestToPin with
      | Some legacy =>
          match hole legacy with
          | Some h =>
              {[ ToString fractionText h :=
                   {| winnerText := default EmptyString (entryWinner legacy);
                      noteText := default EmptyString (entryNote legacy) |} ]}
          | None => ∅
          end
      | None => ∅
      end
  end.

End Text.

End Contest.

Import Contest.

(** ** The score card of the selected day *)

Module Card.

(** [scoresByDay[selectedDay]] *)
Definition scoresOfDay (selectedDay : DayKey) (st : PageState)
    : gmap string (list cell) :=
  match selectedDay with
  | day1 => scoresByDay_day1 st
  | day2 => scoresByDay_day2 st
  end.

(** [teeChoicesByDay[selectedDay]] *)
Definition teeChoicesOfDay (selectedDay : DayKey) (st : PageState)
    : gmap string TeeKey :=
  match selectedDay with
  | day1 => teeChoicesByDay_day1 st
  | day2 => teeChoicesByDay_day2 st
  end.

Definition dayPars (selectedDay : DayKey) (st : PageState)
    : option (list number) :=
  validTable
    (match selectedDay with
     | day1 => day1Pars st
     | day2 => day2Pars st
     end).

Definition dayHcps (selectedDay : DayKey) (st : PageState)
    : option (list number) :=
  validTable
    (match selectedDay with
     | day1 => day1Hcps st
     | day2 => day2Hcps st
     end).

(** [base + adj + teeBonus] for player [p]. *)
Definition allocationStrokes (selectedDay : DayKey) (st : PageState)
    (p : string) : number :=
  let base := orZero (handicaps st !! p) in
  let adj :=
    match selectedDay with
    | day2 => orZero (day2Adjustments st !! p)
    | day1 => num 0
    end in
  let teeBonus :=
    teeBonusForDay selectedDay (teeChoicesOfDay selectedDay st !! p) in
  add (add base adj) teeBonus.

(** The entries of [grossTotals], [netTotals] and [netToParByPlayer] for
    player [p]. *)
Definition grossTotals (selectedDay : DayKey) (st : PageState) (p : string)
    : number :=
  sum (default [] (scoresOfDay selectedDay st !! p)).

Definition netTotals (selectedDay : DayKey) (st : PageState) (p : string)
    : number :=
  let card := scoresOfDay selectedDay st !! p in
  let charity := orZero (charityStrokes st !! p) in
  let tree := orZero (treeStrokes st !! p) in
  let netBeforeCharity :=
    computeNetRunningTotal (default emptyCard card)
      (dayHcps selectedDay st) (allocationStrokes selectedDay st p) in
  applyCharityAtEnd netBeforeCharity (default [] card) (add charity tree).

Definition netToParByPlayer (selectedDay : DayKey) (st : PageState)
    (p : string) : option number :=
  match dayPars selectedDay st with
  | None => None
  | Some pars =>
      let card := scoresOfDay selectedDay st !! p in
      let charity := orZero (charityStrokes st !! p) in
      let tree := orZero (treeStrokes st !! p) in
      match
        computeNetToPar (default emptyCard card) (Some pars)
          (dayHcps selectedDay st) (allocationStrokes selectedDay st p)
      with
      | None => None
      | Some netToPar =>
          Some (applyCharityAtEnd netToPar (default [] card)
                  (add charity tree))
      end
  end.

End Card.

Import Card.

(** ** Predicates used to state the properties *)

(** A stroke index that lies in [1,18]. *)
Definition holeIndexInRange (x : number) : Prop :=
  match x with
  | Fin i => (Qc_of_Z 1 <= i)%Qc /\ (i <= Qc_of_Z 18)%Qc
  | _ => False
  end.

(** A finite, non-negative score: what the source tests a played hole for. *)
Definition PlayedCell (c : cell) : Prop :=
  exists q : Qc, c = Some (Fin q) /\ (Qc_of_Z 0 <= q)%Qc.

(** The round is complete: eighteen cells, each of them played. *)
Definition CompleteRound (scores : list cell) : Prop :=
  length scores = HOLE_COUNT /\ Forall PlayedCell scores.

(** An optional table that is an array of exactly eighteen entries. *)
Definition ValidTable (a : option (list number)) : Prop :=
  exists l, a = Some l /\ length l = HOLE_COUNT.

(** A negative number: [-Infinity] or a finite value below zero. *)
Definition Negative (n : number) : Prop :=
  n = NInf \/ exists q : Qc, n = Fin q /\ (q < Qc_of_Z 0)%Qc.

(** A finished card of eighteen fours. *)
Definition allFours : list cell := replicate 18 (Some (num 4)).

(** Which holes of a card count: [scores !! i] is [None] past the end. *)
Definition nonNullHole (c : option cell) : bool :=
  match c with Some (Some _) => true | _ => false end.

Definition playedHole (c : option cell) : bool :=
  match c with Some v => playedCell v | None => false end.

(** The strokes a table allocates, summed hole by hole over the holes of
    the card that [counted] selects. *)
Definition allocatedStrokes
    (counted : option cell -> bool) (scores : list cell)
    (table : list number) (totalStrokes : number) : number :=
  sumNumbers
    (map (fun i => strokesForHole (numAt table i) totalStrokes)
         (List.filter (fun i => counted (scores !! i)) (seq 0 HOLE_COUNT))).

(** The stroke-index table 1, 2, ..., 18. *)
Definition identityTable : list number := map num (seqZ 1 18).

(** A card whose first hole holds a negative number and nothing else. *)
Definition negativeFirstHole : list cell :=
  Some (num (-1)) :: replicate 17 None.

(** Sums of rationals and of integers, for stating totals. *)
Definition qsum (l : list Qc) : Qc := foldr Qcplus (Qc_of_Z 0) l.
Definition zsum (l : list Z) : Z := foldr Z.add 0 l.

(** The allocation rule on integers: hole [z] of a player with [s] strokes. *)
Definition strokesZ (s z : Z) : Z :=
  if decide (z <= s) then 1 + (s - z) / 18 else 0.

(** A par table of eighteen fours. *)
Definition parsAllFour : list number := replicate 18 (num 4).

(** What C4 says of a coerced table: every cell of every row is null or a
    finite non-negative number. *)
Definition NonNegativeOrNull (c : cell) : Prop := c = None \/ PlayedCell c.

Definition RowsNonNegative (table : gmap string (list cell)) : Prop :=
  forall player row,
    table !! player = Some row -> Forall NonNegativeOrNull row.

(** What the coercion does establish: null or finite. *)
Definition FiniteOrNull (c : cell) : Prop :=
  c = None \/ exists q : Qc, c = Some (Fin q).

(** A stored table in which one player has a negative score on hole 1. *)
Definition storedNegative : gmap string field :=
  {[ "Ann"%string := Items [VNumber (num (-3)); VNumber (num 4)] ]}.

(** [x < y] on numbers, as a proposition. *)
Definition NumLt (x y : number) : Prop := lt x y = true.

(** The leaderboard order in the words of the contract: net total, then
    gross total, then player name. *)
Definition RowBefore (localeCompare : string -> string -> Z)
    (a b : LeaderRow) : Prop :=
  NumLt (net a) (net b) \/
  (net a = net b /\
   (NumLt (gross a) (gross b) \/
    (gross a = gross b /\ localeCompare (player a) (player b) <= 0))).

(** What ECMAScript asks of [localeCompare]: a consistent comparator. *)
Definition ConsistentCollation (localeCompare : string -> string -> Z) : Prop :=
  (forall a b, 0 < localeCompare a b -> localeCompare b a < 0) /\
  (forall a b c,
      localeCompare a b <= 0 -> localeCompare b c <= 0 ->
      localeCompare a c <= 0).

(** The invariant of the page state: every stored card holds finite numbers
    or null, and every per-player number is finite.  The coercions that
    build the state establish it. *)
Definition FiniteCards (m : gmap string (list cell)) : Prop :=
  forall p row, m !! p = Some row -> Forall FiniteOrNull row.

Definition FiniteNumbers (m : gmap string number) : Prop :=
  forall p n, m !! p = Some n -> isFinite n = true.

Record StateFinite (st : PageState) : Prop := {
  finite_scores1 : FiniteCards (scoresByDay_day1 st);
  finite_scores2 : FiniteCards (scoresByDay_day2 st);
  finite_handicaps : FiniteNumbers (handicaps st);
  finite_adjustments : FiniteNumbers (day2Adjustments st);
  finite_charity : FiniteNumbers (charityStrokes st);
  finite_tree : FiniteNumbers (treeStrokes st);
}.

(** A row whose two totals are finite. *)
Definition FiniteRow (r : LeaderRow) : Prop :=
  isFinite (net r) = true /\ isFinite (gross r) = true.

(** Code-unit order on names: one consistent collation. *)
Definition codeUnitCompare (a b : string) : Z :=
  match String_as_OT.compare a b with
  | Lt => -1
  | Eq => 0
  | Gt => 1
  end.

(** Two players who have not teed off yet, listed out of name order. *)
Definition tiedState : PageState :=
  {| playersDay1 := ["Bob"; "Al"]%string;
     playersDay2 := ["Bob"; "Al"]%string;
     scoresByDay_day1 := ∅; scoresByDay_day2 := ∅;
     handicaps := {[ "Bob"%string := num 12 ]};
     day2Adjustments := ∅;
     teeChoicesByDay_day1 := ∅; teeChoicesByDay_day2 := ∅;
     charityStrokes := ∅; treeStrokes := ∅;
     day1Pars := None; day2Pars := None;
     day1Hcps := None; day2Hcps := None |}.

(** What the contract says of a leaderboard built from [source]: the same
    rows, in the order of [RowBefore]; in particular two rows that tie on
    net and gross stand in name order. *)
Definition LeaderboardOrdered (localeCompare : string -> string -> Z)
    (rows source : list LeaderRow) : Prop :=
  Permutation rows source /\
  StronglySorted (RowBefore localeCompare) rows /\
  (forall (i j : nat) (a b : LeaderRow),
      (i < j)%nat -> rows !! i = Some a -> rows !! j = Some b ->
      net a = net b -> gross a = gross b ->
      localeCompare (player a) (player b) <= 0).

(** The characters of the decimal text of [n]. *)
Definition digits (n : N) : list ascii := list_ascii_of_string (decimal n).

(** The first character, if any, fails the test. *)
Definition headFails (p : ascii -> bool) (s : list ascii) : Prop :=
  match s with
  | c :: _ => p c = false
  | [] => True
  end.

(** The canonical note for [f] feet and [i] inches. *)
Definition formatted (f i : N) : string :=
  (decimal f ++ "' " ++ decimal i ++ String dquote EmptyString)%string.

(** ** Further properties of the scoring engine *)

(** A total that allocates nothing: not finite, or floored to at most 0. *)
Definition NoStrokes (t : number) : Prop :=
  isFinite t = false \/ exists q : Qc, t = Fin q /\ Qfloor q <= 0.

(** The holes of the card that count, among the eighteen. *)
Definition playedHoles (scores : list cell) : list nat :=
  List.filter (fun i => playedHole (scores !! i)) (seq 0 HOLE_COUNT).

(** ** Further properties of the leaderboards *)

(** A player without scores: no card in the table, or a card of nulls. *)
Definition NoScores (card : option (list cell)) : Prop :=
  card = None \/ card = Some emptyCard.

(** The row of a day's leaderboard. *)
Definition rowOfDay (day : DayKey) (st : PageState) (p : string) : LeaderRow :=
  match day with
  | day1 => day1Row st p
  | day2 => day2Row st p
  end.

(** The stroke-index table of a day is absent or invalid (the fallback
    applies), or it is a permutation of the indices 1 to 18. *)
Definition FallbackOrPermutation (hcps : option (list number)) : Prop :=
  ~ ValidTable hcps \/
  exists h, hcps = Some h /\ Permutation h identityTable.

(** A state with one finished card: Al has played eighteen fours on both
    days, Bob has no card. *)
Definition finishedState : PageState :=
  {| playersDay1 := ["Al"; "Bob"]%string;
     playersDay2 := ["Al"; "Bob"]%string;
     scoresByDay_day1 := {[ "Al"%string := allFours ]};
     scoresByDay_day2 := {[ "Al"%string := allFours ]};
     handicaps := {[ "Al"%string := num 12 ]};
     day2Adjustments := {[ "Al"%string := num (-2) ]};
     teeChoicesByDay_day1 := {[ "Al"%string := four ]};
     teeChoicesByDay_day2 := {[ "Al"%string := tips ]};
     charityStrokes := {[ "Al"%string := num 1 ]};
     treeStrokes := ∅;
     day1Pars := Some parsAllFour; day2Pars := None;
     day1Hcps := Some identityTable; day2Hcps := None |}.

(** ** Predicates on names *)

(** ASCII case mapping, one instance of [toLowerCase]. *)
Definition lowerAscii (s : string) : string :=
  string_of_list_ascii (toLower <$> list_ascii_of_string s).

(** A name that [trim] leaves as it is and that is not empty. *)
Definition CleanName (s : string) : Prop := trim s = s /\ s <> EmptyString.

(** What the loop of [uniqPreserveOrder] keeps true of [out] and [seen]:
    no two names of [out] agree up to case, and [seen] holds their keys. *)
Definition UniqInv (toLowerCase : string -> string)
    (acc : list string * gset string) : Prop :=
  NoDup (toLowerCase <$> fst acc) /\
  (forall k, k ∈ snd acc <-> k ∈ toLowerCase <$> fst acc).

(** ** Further properties of the stored tables *)

(** A row of the page as the store holds it: a number or [null] per cell. *)
Definition storedCell (c : cell) : value :=
  match c with
  | Some n => VNumber n
  | None => VNull
  end.

Definition storedRow (row : list cell) : field := Items (storedCell <$> row).

(** A table of the page: a row of eighteen finite-or-null cells for each
    player of the roster and for nobody else. *)
Definition TableOf (players : list string) (table : gmap string (list cell))
    : Prop :=
  forall p,
    (p ∈ players ->
     exists row, table !! p = Some row /\ length row = HOLE_COUNT /\
                 Forall FiniteOrNull row) /\
    (p ∉ players -> table !! p = None).

(** A stored document in the old format: one row of two scores. *)
Definition oldFormatScores : gmap string entry :=
  {[ "Ann"%string := Leaf (Items [VNumber (num 5); VNumber (num 4)]) ]}.

(** The keys of a map of the page state are the players of the list. *)
Definition KeyedBy {V} (players : list string) (m : gmap string V) : Prop :=
  forall p, is_Some (m !! p) <-> p ∈ players.

(** A stored group: one player listed with a trailing blank. *)
Definition sampleDoc : GroupDoc :=
  {| doc_playerNames := Some ["Ann "; "Bob"]%string;
     doc_playerNamesByDay_day1 := None;
     doc_playerNamesByDay_day2 := None;
     doc_scores := Some oldFormatScores;
     doc_handicaps := None;
     doc_day2HandicapAdjustments := None;
     doc_teeChoices_day1 := None;
     doc_teeChoices_day2 := None;
     doc_charityStrokes := None;
     doc_treeStrokes := None;
     doc_day1Pars := None; doc_day2Pars := None;
     doc_day1Hcps := None; doc_day2Hcps := None |}.

(** ** Predicates on contest entries *)

(** A stored text: absent, or trimmed and not empty. *)
Definition CleanText (t : option string) : Prop :=
  match t with
  | Some s => CleanName s
  | None => True
  end.

(** What the store receives for the closest-to-pin state. *)
Definition savedClosestToPin (state : gmap string WinnerNoteText)
    (legacy : option ContestEntry) : ContestDoc :=
  {| closestToPinByHole :=
       Some (Some <$> normalizeClosestToPinByHoleState state);
     closestToPin := legacy |}.

(** ** Predicates on distance notes *)

(** No character of [s] equals [c] up to case. *)
Definition lacks (c : ascii) (s : list ascii) : bool :=
  forallb (fun c' => negb (Ascii.eqb (toLower c) (toLower c'))) s.

(** The note [f ft i in]. *)
Definition ftInNote (f i : N) : string :=
  (decimal f ++ " ft " ++ decimal i ++ " in")%string.

(** Two numbers with one character between them. *)
Definition separatedNote (f i : N) (sep : ascii) : string :=
  (decimal f ++ String sep (decimal i))%string.

(** A separator of two numbers that none of the first two patterns uses. *)
Definition PlainSeparator (sep : ascii) : Prop :=
  isDigit sep = false /\ lacks "'"%char [sep] = true /\
  lacks "f"%char [sep] = true.

(** ** Where the arithmetic of the source is exact

    The numbers of the source are IEEE-754 doubles; the numbers of [JS] are
    exact.  The two agree on sums and differences of whole numbers as long
    as every value stays below 2^53 in magnitude, and [Number] reads a run
    of digits exactly when its value is below 2^53.  The statements that
    compare two different ways of computing a total, or that name the value
    of a decimal text, are made for such inputs. *)

(** A card of whole, non-negative scores whose sum is below [bound]. *)
Definition WholeCard (bound : Z) (scores : list cell) : Prop :=
  exists zs : list Z,
    scores = (fun z => Some (num z)) <$> zs /\
    Forall (fun z => 0 <= z) zs /\ zsum zs < bound.

(** A table of whole, non-negative numbers whose sum is below [bound]. *)
Definition WholeTable (bound : Z) (values : list number) : Prop :=
  exists zs : list Z,
    values = num <$> zs /\
    Forall (fun z => 0 <= z) zs /\ zsum zs < bound.

(** A number that is not finite, or whose floor is below [bound] in
    magnitude. *)
Definition FloorBelow (bound : Z) (x : number) : Prop :=
  match x with
  | Fin q => - bound < Qfloor q < bound
  | _ => True
  end.

(** ** Names that are not inherited

    A record of the source is a plain object: read under a property name of
    [Object.prototype] it yields the inherited property, and an assignment
    under [__proto__] creates no entry.  The finite maps of the model have
    no such names; statements about the entry of a name are made for the
    other names. *)
Definition objectPrototypeNames : list string :=
  [ "constructor"; "__defineGetter__"; "__defineSetter__"; "hasOwnProperty";
    "__lookupGetter__"; "__lookupSetter__"; "isPrototypeOf";
    "propertyIsEnumerable"; "toString"; "valueOf"; "__proto__";
    "toLocaleString" ]%string.

Definition inheritedName (p : string) : bool :=
  existsb (String.eqb p) objectPrototypeNames.

Definition OrdinaryName (p : string) : Prop := inheritedName p = false.

(** The map [m] has an entry for [p] exactly when [p] is one of [players]. *)
Definition EntryIff {V} (players : list string) (m : gmap string V)
    (p : string) : Prop :=
  is_Some (m !! p) <-> p ∈ players.

(** ** Comparisons on rationals, read back as propositions *)

Section Reflection.

Local Open Scope Qc_scope.

Lemma Qcltb_true (a b : Qc) : Qcltb a b = true <-> a < b.
Proof.
  unfold Qcltb. rewrite Qclt_alt. destruct (a ?= b); intuition congruence.
Qed.

Lemma Qcleb_true (a b : Qc) : Qcleb a b = true <-> a <= b.
Proof.
  unfold Qcleb. rewrite Qcle_alt. destruct (a ?= b); intuition congruence.
Qed.

Lemma Qceqb_true (a b : Qc) : Qceqb a b = true <-> a = b.
Proof.
  unfold Qceqb. rewrite Qceq_alt. destruct (a ?= b); intuition congruence.
Qed.

Lemma Qcltb_false (a b : Qc) : Qcltb a b = false <-> b <= a.
Proof.
  rewrite <- not_true_iff_false, Qcltb_true. split.
  - apply Qcnot_lt_le.
  - intros H H'. exact (Qcle_not_lt _ _ H H').
Qed.

Lemma Qcleb_false (a b : Qc) : Qcleb a b = false <-> b < a.
Proof.
  rewrite <- not_true_iff_false, Qcleb_true. split.
  - apply Qcnot_le_lt.
  - intros H H'. exact (Qclt_not_le _ _ H H').
Qed.

Lemma Qcltb_of_Z (a b : Z) : Qcltb (Qc_of_Z a) (Qc_of_Z b) = (a <? b)%Z.
Proof.
  destruct (Z.ltb_spec a b) as [H|H].
  - apply Qcltb_true. rewrite <- Z2Qc_inj_lt. exact H.
  - apply Qcltb_false. rewrite <- Z2Qc_inj_le. exact H.
Qed.

Lemma Qcleb_of_Z (a b : Z) : Qcleb (Qc_of_Z a) (Qc_of_Z b) = (a <=? b)%Z.
Proof.
  destruct (Z.leb_spec a b) as [H|H].
  - apply Qcleb_true. rewrite <- Z2Qc_inj_le. exact H.
  - apply Qcleb_false. rewrite <- Z2Qc_inj_lt. exact H.
Qed.

Lemma Qceqb_of_Z (a b : Z) : Qceqb (Qc_of_Z a) (Qc_of_Z b) = (a =? b)%Z.
Proof.
  destruct (Z.eqb_spec a b) as [H|H].
  - apply Qceqb_true. now subst.
  - apply not_true_iff_false. rewrite Qceqb_true.
    intros E. now apply Z2Qc_inj in E.
Qed.

Lemma Qc_of_Z_div_this (n m : Z) :
  (this (Qc_of_Z n / Qc_of_Z m)%Qc == inject_Z n / inject_Z m)%Q.
Proof.
  unfold Qcdiv, Qcmult, Qcinv, Q2Qc, Qc_of_Z. cbn [this].
  rewrite !Qred_correct. reflexivity.
Qed.

(** Flooring a quotient of integers is integer division. *)
Lemma Qfloor_div_of_Z (n m : Z) :
  Qfloor (this (Qc_of_Z n / Qc_of_Z m)%Qc) = (n / m)%Z.
Proof.
  rewrite Zdiv_Qdiv.
  apply Z.le_antisymm; apply Qfloor_resp_le; apply Qle_lteq; right.
  - apply Qc_of_Z_div_this.
  - symmetry. apply Qc_of_Z_div_this.
Qed.

Lemma Qfloor_of_Z (n : Z) : Qfloor (this (Qc_of_Z n)) = n.
Proof. apply Qfloor_Z. Qed.

End Reflection.

Lemma Qc_of_Z_le (a b : Z) : a <= b -> (Qc_of_Z a <= Qc_of_Z b)%Qc.
Proof. apply Z2Qc_inj_le. Qed.

Lemma Qc_of_Z_lt (a b : Z) : a < b -> (Qc_of_Z a < Qc_of_Z b)%Qc.
Proof. apply Z2Qc_inj_lt. Qed.

Lemma Qc_of_Z_le_inv (a b : Z) : (Qc_of_Z a <= Qc_of_Z b)%Qc -> a <= b.
Proof. apply Z2Qc_inj_le. Qed.

(** ** Addition of numbers *)

Lemma add_comm (x y : number) : add x y = add y x.
Proof.
  destruct x, y; cbn; try reflexivity. f_equal. apply Qcplus_comm.
Qed.

Lemma add_assoc (x y z : number) : add x (add y z) = add (add x y) z.
Proof.
  destruct x, y, z; cbn; try reflexivity. f_equal. apply Qcplus_assoc.
Qed.

Lemma add_0_l (x : number) : add (num 0) x = x.
Proof.
  destruct x; cbn; try reflexivity. f_equal.
  rewrite Z2Qc_inj_0. apply Qcplus_0_l.
Qed.

Lemma add_0_r (x : number) : add x (num 0) = x.
Proof. rewrite add_comm. apply add_0_l. Qed.

Lemma sub_0_r (x : number) : sub x (num 0) = x.
Proof.
  destruct x; cbn; try reflexivity. f_equal.
  rewrite Z2Qc_inj_0. unfold Qcminus. ring.
Qed.

(** ** Stroke allocation per hole *)

Example strokesForHole_5_23 : strokesForHole (num 5) (num 23) = num 2.
Proof. js_compute. Qed.

Lemma strokesForHole_outside idx total :
  ~ holeIndexInRange idx -> strokesForHole idx total = num 0.
Proof.
  intros Hout. unfold strokesForHole.
  destruct idx as [| | |i]; try reflexivity.
  cbn [isFinite negb orb lt gt num].
  destruct (Qcltb i (Qc_of_Z 1)) eqn:E1; [reflexivity|].
  destruct (Qcltb (Qc_of_Z 18) i) eqn:E2; [reflexivity|].
  exfalso. apply Hout. split.
  - now apply Qcltb_false.
  - now apply Qcltb_false.
Qed.

Lemma strokesForHole_finite_index (i : Qc) total :
  holeIndexInRange (Fin i) ->
  strokesForHole (Fin i) total =
    let s := floor total in
    if negb (isFinite s) || le s (num 0) then num 0
    else if lt s (Fin i) then num 0
    else add (num 1) (floor (div (sub s (Fin i)) (num 18))).
Proof.
  intros [H1 H2]. unfold strokesForHole.
  cbn [isFinite negb orb lt gt num].
  apply Qcltb_false in H1, H2. rewrite H1, H2. reflexivity.
Qed.

Lemma strokesForHole_nonpositive idx (t : Qc) :
  Qfloor t <= 0 -> strokesForHole idx (Fin t) = num 0.
Proof.
  intros Ht. unfold strokesForHole.
  destruct (negb (isFinite idx) || lt idx (num 1) || gt idx (num 18));
    [reflexivity|].
  cbn [floor num isFinite negb orb le].
  rewrite Qcleb_of_Z. destruct (Z.leb_spec (Qfloor t) 0); [reflexivity|lia].
Qed.

Lemma strokesForHole_not_reached (i t : Qc) :
  (Qc_of_Z (Qfloor t) < i)%Qc -> strokesForHole (Fin i) (Fin t) = num 0.
Proof.
  intros Hlt. unfold strokesForHole.
  destruct (negb (isFinite (Fin i)) || lt (Fin i) (num 1) || gt (Fin i) (num 18));
    [reflexivity|].
  cbn [floor num isFinite negb orb le lt].
  destruct (Qcleb _ _); [reflexivity|].
  apply Qcltb_true in Hlt. rewrite Hlt. reflexivity.
Qed.

Lemma strokesForHole_reached (i t : Qc) :
  holeIndexInRange (Fin i) -> (i <= Qc_of_Z (Qfloor t))%Qc ->
  strokesForHole (Fin i) (Fin t) =
    num (1 + Qfloor (this ((Qc_of_Z (Qfloor t) - i) / Qc_of_Z 18)%Qc)).
Proof.
  intros Hin Hle. rewrite strokesForHole_finite_index by exact Hin.
  destruct Hin as [H1 _].
  assert (Hpos : 1 <= Qfloor t).
  { apply Qc_of_Z_le_inv. eapply Qcle_trans; eassumption. }
  cbn [floor num isFinite negb orb le lt sub div].
  rewrite Qcleb_of_Z. destruct (Z.leb_spec (Qfloor t) 0); [lia|].
  apply Qcltb_false in Hle. rewrite Hle.
  rewrite Qceqb_of_Z. cbn [Z.eqb].
  cbn [floor add num]. unfold num. rewrite Z2Qc_inj_add. reflexivity.
Qed.

Lemma strokesForHole_int (i s : Z) :
  1 <= i <= 18 ->
  strokesForHole (num i) (num s) =
    num (if decide (i <= s) then 1 + (s - i) / 18 else 0).
Proof.
  intros Hi. destruct (decide (i <= s)) as [Hle|Hgt].
  - unfold num at 1 2. rewrite strokesForHole_reached.
    + rewrite Qfloor_of_Z, <- Z2Qc_inj_sub, Qfloor_div_of_Z. reflexivity.
    + split; apply Qc_of_Z_le; lia.
    + rewrite Qfloor_of_Z. apply Qc_of_Z_le. lia.
  - unfold num at 1 2. apply strokesForHole_not_reached.
    rewrite Qfloor_of_Z. apply Qc_of_Z_lt. lia.
Qed.



(** ** Completeness of a round *)

Lemma playedCell_true (c : cell) : playedCell c = true <-> PlayedCell c.
Proof.
  unfold playedCell, PlayedCell. split.
  - destruct c as [[| | |q]|]; cbn; try discriminate.
    intros H. exists q. split; [reflexivity|]. now apply Qcleb_true.
  - intros (q & -> & Hq). cbn. now apply Qcleb_true.
Qed.

Lemma isCompleteRound_true (scores : list cell) :
  isCompleteRound (Some scores) = true <-> CompleteRound scores.
Proof.
  unfold isCompleteRound, CompleteRound.
  destruct (Nat.eqb_spec (length scores) HOLE_COUNT) as [E|E]; cbn [negb].
  - rewrite forallb_forall, Forall_forall.
    split.
    + intros H. split; [exact E|]. intros c Hc. apply playedCell_true.
      apply H. now apply list_elem_of_In.
    + intros [_ H] c Hc. apply playedCell_true. apply H.
      now apply list_elem_of_In.
  - split; [discriminate|]. intros [H _]. contradiction.
Qed.

Lemma isCompleteRound_false (scores : list cell) :
  isCompleteRound (Some scores) = false <-> ~ CompleteRound scores.
Proof.
  rewrite <- isCompleteRound_true. symmetry. apply not_true_iff_false.
Qed.

Lemma validTable_Some (a : option (list number)) :
  ValidTable a -> exists l, validTable a = Some l /\ a = Some l /\ length l = HOLE_COUNT.
Proof.
  intros (l & -> & Hl). exists l. cbn. rewrite Hl. auto.
Qed.

Lemma validTable_None (a : option (list number)) :
  ~ ValidTable a -> validTable a = None.
Proof.
  intros H. destruct a as [l|]; cbn; [|reflexivity].
  destruct (Nat.eqb_spec (length l) HOLE_COUNT) as [E|E]; [|reflexivity].
  exfalso. apply H. exists l. auto.
Qed.

Lemma validTable_is_Some (a : option (list number)) l :
  validTable a = Some l -> ValidTable a.
Proof.
  destruct a as [l'|]; cbn; [|discriminate].
  destruct (Nat.eqb_spec (length l') HOLE_COUNT) as [E|E]; [|discriminate].
  intros _. exists l'. auto.
Qed.

(** ** Running net total without a stroke-index table *)

Lemma CompleteRound_allFours : CompleteRound allFours.
Proof. apply isCompleteRound_true. reflexivity. Qed.

Lemma not_ValidTable_None : ~ ValidTable None.
Proof. intros (l & H & _). discriminate. Qed.

Lemma not_ValidTable_short : ~ ValidTable (Some [num 1; num 2]).
Proof. intros (l & H & Hl). injection H as <-. discriminate. Qed.

Lemma not_CompleteRound_nil : ~ CompleteRound [Some (num 4); None].
Proof. intros [H _]. discriminate. Qed.

(** C2.  When no valid 18-entry stroke-index table is supplied,
    [computeNetRunningTotal] returns gross minus [floor totalStrokes] on a
    complete round and the gross sum itself on an incomplete one; a
    complete card of fours with ten strokes nets 62. *)
Theorem computeNetRunningTotal_without_table :
  (forall scores hcps totalStrokes,
      ~ ValidTable hcps -> CompleteRound scores ->
      computeNetRunningTotal scores hcps totalStrokes =
        sub (sum scores) (floor totalStrokes)) /\
  (forall scores hcps totalStrokes,
      ~ ValidTable hcps -> ~ CompleteRound scores ->
      computeNetRunningTotal scores hcps totalStrokes = sum scores) /\
  computeNetRunningTotal allFours None (num 10) = num 62.
Proof.
  split; [|split].
  - intros scores hcps t Hh Hc. unfold computeNetRunningTotal.
    rewrite (validTable_None _ Hh).
    apply isCompleteRound_true in Hc. rewrite Hc. reflexivity.
  - intros scores hcps t Hh Hc. unfold computeNetRunningTotal.
    rewrite (validTable_None _ Hh).
    apply isCompleteRound_false in Hc. rewrite Hc. reflexivity.
  - js_compute.
Qed.

Lemma computeNetRunningTotal_without_table_witness :
  computeNetRunningTotal allFours (Some [num 1; num 2]) (num 10) =
    sub (sum allFours) (floor (num 10)) /\
  computeNetRunningTotal [Some (num 4); None] None (num 10) =
    sum [Some (num 4); None].
Proof.
  destruct computeNetRunningTotal_without_table as (H1 & H2 & _).
  split.
  - apply H1; [exact not_ValidTable_short | exact CompleteRound_allFours].
  - apply H2; [exact not_ValidTable_None | exact not_CompleteRound_nil].
Defined.

(** ** Net-to-par is defined on finished rounds with a par table only *)

(** C5.  [computeNetToPar] returns [null] exactly when the round is not
    complete or the par table is not an array of eighteen entries; in
    particular it returns [null] on every incomplete round, whatever the
    other arguments. *)
Theorem computeNetToPar_null_iff :
  (forall scores pars hcps totalStrokes,
      computeNetToPar scores pars hcps totalStrokes = None <->
      ~ CompleteRound scores \/ ~ ValidTable pars) /\
  (forall scores pars hcps totalStrokes,
      ~ CompleteRound scores ->
      computeNetToPar scores pars hcps totalStrokes = None).
Proof.
  assert (Hiff : forall scores pars hcps totalStrokes,
      computeNetToPar scores pars hcps totalStrokes = None <->
      ~ CompleteRound scores \/ ~ ValidTable pars).
  { intros scores pars hcps totalStrokes. unfold computeNetToPar.
    destruct (isCompleteRound (Some scores)) eqn:Hc; cbn [negb].
    - apply isCompleteRound_true in Hc.
      destruct (validTable pars) as [p|] eqn:Hp.
      + apply validTable_is_Some in Hp.
        destruct (validTable hcps); split; try discriminate;
          intros [H|H]; contradiction.
      + split; [|reflexivity]. intros _. right. intros Hv.
        apply validTable_Some in Hv as (l & Hl & _). congruence.
    - apply isCompleteRound_false in Hc. split; [auto|reflexivity]. }
  split; [exact Hiff|].
  intros scores pars hcps totalStrokes H. apply Hiff. now left.
Qed.

Lemma computeNetToPar_null_iff_witness :
  computeNetToPar [Some (num 4); None] (Some [num 4]) None (num 3) = None.
Proof.
  apply (proj2 computeNetToPar_null_iff). exact not_CompleteRound_nil.
Defined.

(** ** End-of-round penalty *)

(** C7.  [applyCharityAtEnd] returns [net] unchanged when the floored
    penalty is not finite or is at most zero, and also on every incomplete
    round; on a complete round with a positive floored penalty it returns
    [net] minus that floored penalty. *)
Theorem applyCharityAtEnd_cases :
  (forall net scores penaltyStrokes,
      isFinite (floor penaltyStrokes) = false ->
      applyCharityAtEnd net scores penaltyStrokes = net) /\
  (forall net scores (p : Qc),
      Qfloor p <= 0 -> applyCharityAtEnd net scores (Fin p) = net) /\
  (forall net scores penaltyStrokes,
      ~ CompleteRound scores ->
      applyCharityAtEnd net scores penaltyStrokes = net) /\
  (forall net scores (p : Qc),
      CompleteRound scores -> 0 < Qfloor p ->
      applyCharityAtEnd net scores (Fin p) = sub net (num (Qfloor p))).
Proof.
  unfold applyCharityAtEnd. repeat split.
  - intros net scores p Hp. rewrite Hp. reflexivity.
  - intros net scores p Hp. cbn [floor isFinite negb orb le num].
    rewrite Qcleb_of_Z. destruct (Z.leb_spec (Qfloor p) 0); [reflexivity|lia].
  - intros net scores p Hc. apply isCompleteRound_false in Hc. rewrite Hc.
    destruct (negb _ || _); reflexivity.
  - intros net scores p Hc Hp. cbn [floor isFinite negb orb le num].
    rewrite Qcleb_of_Z. destruct (Z.leb_spec (Qfloor p) 0); [lia|].
    apply isCompleteRound_true in Hc. rewrite Hc. reflexivity.
Qed.

Lemma applyCharityAtEnd_cases_witness :
  applyCharityAtEnd (num 70) allFours NaN = num 70 /\
  applyCharityAtEnd (num 70) allFours (num 0) = num 70 /\
  applyCharityAtEnd (num 70) [Some (num 4); None] (num 3) = num 70 /\
  applyCharityAtEnd (num 70) allFours (num 3) = sub (num 70) (num (Qfloor (Qc_of_Z 3))).
Proof.
  destruct applyCharityAtEnd_cases as (H1 & H2 & H3 & H4).
  split; [|split; [|split]].
  - apply H1. reflexivity.
  - apply (H2 (num 70) allFours (Qc_of_Z 0)). vm_compute. discriminate.
  - apply H3. exact not_CompleteRound_nil.
  - apply (H4 (num 70) allFours (Qc_of_Z 3)).
    + exact CompleteRound_allFours.
    + vm_compute. reflexivity.
Defined.

(** ** The gross sum *)

Lemma sum_fold (l : list cell) (acc : number) :
  fold_left addCell l acc = add acc (sum l).
Proof.
  unfold sum. revert acc.
  induction l as [|c l IH] using rev_ind; intros acc.
  - cbn. symmetry. apply add_0_r.
  - rewrite !fold_left_app. cbn [fold_left]. rewrite IH.
    destruct c as [n|]; cbn [addCell]; [|reflexivity].
    rewrite add_assoc. reflexivity.
Qed.

Lemma sum_app (l1 l2 : list cell) : sum (l1 ++ l2) = add (sum l1) (sum l2).
Proof.
  unfold sum at 1. rewrite fold_left_app.
  rewrite sum_fold. reflexivity.
Qed.

Lemma sum_cons_Some (n : number) (l : list cell) :
  sum (Some n :: l) = add n (sum l).
Proof.
  unfold sum at 1. cbn [fold_left addCell].
  rewrite sum_fold, add_0_l. reflexivity.
Qed.

(** The entry at a hole is one of the summands of the gross total. *)
Lemma sum_includes (scores : list cell) (i : nat) (n : number) :
  scores !! i = Some (Some n) ->
  sum scores = add (sum (delete i scores)) n.
Proof.
  intros Hi. rewrite delete_take_drop.
  rewrite <- (take_drop_middle scores i (Some n) Hi) at 1.
  rewrite !sum_app, sum_cons_Some.
  rewrite (add_comm n), add_assoc. reflexivity.
Qed.

(** ** Running net total with a stroke-index table *)

Lemma strokesUsed_fold (scores : list cell) (F : nat -> number)
    (l : list nat) (acc : number) :
  fold_left
    (fun used i =>
       match scores !! i with
       | Some v => if playedCell v then add used (F i) else used
       | None => used
       end) l acc =
  fold_left add (map F (List.filter (fun i => playedHole (scores !! i)) l)) acc.
Proof.
  revert acc. induction l as [|i l IH]; intros acc; [reflexivity|].
  cbn [fold_left List.filter]. rewrite IH. unfold playedHole at 2.
  destruct (scores !! i) as [v|]; [|reflexivity].
  destruct (playedCell v); reflexivity.
Qed.

Lemma computeNetRunningTotal_with_table scores h totalStrokes :
  length h = HOLE_COUNT ->
  computeNetRunningTotal scores (Some h) totalStrokes =
    sub (sum scores) (allocatedStrokes playedHole scores h totalStrokes).
Proof.
  intros Hh. unfold computeNetRunningTotal, validTable. rewrite Hh.
  cbn [Nat.eqb HOLE_COUNT]. rewrite strokesUsed_fold. reflexivity.
Qed.

(** C3 as stated (every hole whose score is non-null) fails on a card that
    holds a negative number: the hole is not null, yet the loop skips it and
    deducts no stroke for it. *)
Lemma computeNetRunningTotal_non_null_counterexample :
  computeNetRunningTotal negativeFirstHole (Some identityTable) (num 18) <>
  sub (sum negativeFirstHole)
      (allocatedStrokes nonNullHole negativeFirstHole identityTable (num 18)).
Proof.
  js_refute.
Qed.

(** C3 (amended).  With a valid 18-entry stroke-index table,
    [computeNetRunningTotal] returns the gross sum minus the sum, over the
    eighteen holes whose score is a finite non-negative number, of
    [strokesForHole (table[i]) totalStrokes]. *)
Theorem computeNetRunningTotal_per_hole scores hcps h totalStrokes :
  hcps = Some h -> length h = HOLE_COUNT ->
  computeNetRunningTotal scores hcps totalStrokes =
    sub (sum scores) (allocatedStrokes playedHole scores h totalStrokes).
Proof. intros -> Hh. now apply computeNetRunningTotal_with_table. Qed.

Lemma computeNetRunningTotal_per_hole_witness :
  computeNetRunningTotal negativeFirstHole (Some identityTable) (num 18) =
    sub (sum negativeFirstHole)
        (allocatedStrokes playedHole negativeFirstHole identityTable (num 18)).
Proof.
  apply (computeNetRunningTotal_per_hole _ (Some identityTable) identityTable);
    reflexivity.
Defined.

(** ** A card with a negative entry *)

Lemma Negative_not_played (n : number) : Negative n -> playedCell (Some n) = false.
Proof.
  intros [->|(q & -> & Hq)]; [reflexivity|].
  cbn. apply Qcleb_false. exact Hq.
Qed.



(** ** One full handicap over a table that ranks the holes *)

Lemma strokesZ_closed (s z : Z) :
  0 <= s -> 1 <= z <= 18 -> strokesZ s z = (s + 18 - z) / 18.
Proof.
  intros Hs Hz. unfold strokesZ. destruct (decide (z <= s)) as [H|H].
  - replace (s + 18 - z) with ((s - z) + 1 * 18) by lia.
    rewrite Z.div_add by lia. lia.
  - symmetry. apply Z.div_small. lia.
Qed.

Lemma strokesZ_sum_18 (s : Z) :
  0 <= s -> zsum (strokesZ s <$> seqZ 1 18) = s.
Proof.
  intros Hs.
  assert (E : zsum (strokesZ s <$> seqZ 1 18) =
              zsum ((fun z => (s + 18 - z) / 18) <$> seqZ 1 18)).
  { f_equal. apply Forall_fmap_ext_1. apply Forall_seqZ.
    intros z Hz. apply strokesZ_closed; lia. }
  rewrite E. clear E.
  replace (seqZ 1 18)
    with [1; 2; 3; 4; 5; 6; 7; 8; 9; 10; 11; 12; 13; 14; 15; 16; 17; 18]
    by reflexivity.
  cbn [fmap list_fmap zsum foldr].
  pose proof (Z.div_mod s 18 ltac:(lia)) as Hdm.
  pose proof (Z.mod_pos_bound s 18 ltac:(lia)) as Hr.
  set (q := s / 18) in *. set (r := s mod 18) in *.
  assert (Hsplit : forall c, 0 <= c -> (s + c) / 18 = q + (r + c) / 18).
  { intros c Hc. replace (s + c) with ((r + c) + q * 18) by lia.
    rewrite Z.div_add by lia. lia. }
  repeat match goal with
  | |- context [(s + 18 - ?k) / 18] =>
      replace (s + 18 - k) with (s + (18 - k)) by lia;
      rewrite (Hsplit (18 - k)) by lia
  end.
  assert (Hcases : r = 0 \/ r = 1 \/ r = 2 \/ r = 3 \/ r = 4 \/ r = 5 \/
                   r = 6 \/ r = 7 \/ r = 8 \/ r = 9 \/ r = 10 \/ r = 11 \/
                   r = 12 \/ r = 13 \/ r = 14 \/ r = 15 \/ r = 16 \/ r = 17)
    by lia.
  clearbody q r.
  repeat destruct Hcases as [->|Hcases]; try subst r;
    repeat match goal with
    | |- context [Z.div ?a 18] =>
        let v := eval vm_compute in (Z.div a 18) in
        change (Z.div a 18) with v
    end; lia.
Qed.

Lemma zsum_Permutation (l1 l2 : list Z) : l1 ≡ₚ l2 -> zsum l1 = zsum l2.
Proof.
  induction 1 as [|x l l' _ IH|x y l|l l' l'' _ IH1 _ IH2];
    unfold zsum in *; cbn [foldr]; lia.
Qed.

Lemma strokesForHole_floor (x : number) (t : Qc) :
  strokesForHole x (Fin t) = strokesForHole x (num (Qfloor t)).
Proof.
  unfold strokesForHole. cbn [floor num]. rewrite Qfloor_of_Z. reflexivity.
Qed.

Lemma strokesForHole_strokesZ (z : Z) (t : Qc) :
  1 <= z <= 18 ->
  strokesForHole (num z) (Fin t) = num (strokesZ (Qfloor t) z).
Proof.
  intros Hz. rewrite strokesForHole_floor. now apply strokesForHole_int.
Qed.

Lemma sumNumbers_fold (l : list number) (acc : number) :
  fold_left add l acc = add acc (sumNumbers l).
Proof.
  unfold sumNumbers. revert acc.
  induction l as [|x l IH] using rev_ind; intros acc.
  - cbn. symmetry. apply add_0_r.
  - rewrite !fold_left_app. cbn [fold_left]. rewrite IH, add_assoc.
    reflexivity.
Qed.

Lemma sumNumbers_cons (x : number) (l : list number) :
  sumNumbers (x :: l) = add x (sumNumbers l).
Proof.
  unfold sumNumbers at 1. cbn [fold_left].
  rewrite sumNumbers_fold, add_0_l. reflexivity.
Qed.

Lemma sumNumbers_num (ks : list Z) : sumNumbers (num <$> ks) = num (zsum ks).
Proof.
  induction ks as [|k ks IH]; [reflexivity|].
  cbn [fmap list_fmap zsum foldr]. rewrite sumNumbers_cons.
  change (list_fmap Z number num ks) with (num <$> ks). rewrite IH.
  unfold num. cbn [add]. rewrite Z2Qc_inj_add. reflexivity.
Qed.

Lemma sum_finite (qs : list Qc) :
  sum ((fun q => Some (Fin q)) <$> qs) = Fin (qsum qs).
Proof.
  induction qs as [|q qs IH]; [reflexivity|].
  cbn [fmap list_fmap qsum foldr]. rewrite sum_cons_Some.
  change (list_fmap Qc cell (fun q => Some (Fin q)) qs)
    with ((fun q => Some (Fin q)) <$> qs).
  rewrite IH. reflexivity.
Qed.

Lemma CompleteRound_finite (scores : list cell) :
  CompleteRound scores ->
  exists qs : list Qc,
    scores = (fun q => Some (Fin q)) <$> qs /\ length qs = HOLE_COUNT.
Proof.
  intros [Hlen Hall]. revert Hlen. generalize HOLE_COUNT.
  induction Hall as [|c l (q & -> & _) _ IH]; intros n Hlen.
  - exists []. auto.
  - destruct n as [|n]; [discriminate|]. injection Hlen as Hlen.
    destruct (IH n Hlen) as (qs & -> & Hqs).
    exists (q :: qs). cbn. auto.
Qed.

(** An index loop over two arrays of the same length reads the arrays
    in step. *)
Lemma lookup_seq_fmap {A} (l : list A) :
  (fun i => l !! i) <$> seq 0 (length l) = Some <$> l.
Proof.
  apply list_eq. intros i. rewrite !list_lookup_fmap.
  destruct (decide (i < length l)%nat) as [Hi|Hi].
  - rewrite lookup_seq_lt by exact Hi.
    destruct (lookup_lt_is_Some_2 l i Hi) as [x Hx]. cbn. rewrite Hx. reflexivity.
  - rewrite lookup_seq_ge by lia. rewrite lookup_ge_None_2 by lia.
    reflexivity.
Qed.

Lemma fold_left_fmap {A B C} (f : A -> B -> A) (g : C -> B) (l : list C) a :
  fold_left f (g <$> l) a = fold_left (fun a x => f a (g x)) l a.
Proof. revert a. induction l as [|x l IH]; intros a; cbn; auto. Qed.

Lemma fmap_pair_zip {A B C} (f : C -> A) (g : C -> B) (l : list C) :
  (fun i => (f i, g i)) <$> l = zip (f <$> l) (g <$> l).
Proof. induction l as [|x l IH]; cbn; [reflexivity|]. now f_equal. Qed.

Lemma netTotal_zip (t : Qc) (qs : list Qc) (zs : list Z) (acc : Qc) :
  Forall (fun z => 1 <= z <= 18) zs ->
  length qs = length zs ->
  fold_left
    (fun net p =>
       add net (sub (cellAsNumber (fst p))
                    (strokesForHole (orNaN (snd p)) (Fin t))))
    (zip (Some <$> ((fun q => Some (Fin q)) <$> qs)) (Some <$> (num <$> zs)))
    (Fin acc) =
  Fin (acc + qsum qs - Qc_of_Z (zsum (strokesZ (Qfloor t) <$> zs)))%Qc.
Proof.
  intros Hzs. revert qs acc.
  induction Hzs as [|z zs Hz _ IH]; intros [|q qs] acc Hlen;
    try discriminate.
  - cbn. f_equal. rewrite Z2Qc_inj_0. ring.
  - injection Hlen as Hlen. rewrite !fmap_cons.
    cbn [zip_with fold_left fst snd cellAsNumber orNaN].
    rewrite strokesForHole_strokesZ by exact Hz.
    change (num (strokesZ (Qfloor t) z))
      with (Fin (Qc_of_Z (strokesZ (Qfloor t) z))).
    cbn [sub add].
    rewrite IH by exact Hlen. f_equal.
    unfold zsum, qsum. cbn [foldr]. rewrite Z2Qc_inj_add. ring.
Qed.

Lemma netTotal_per_hole (scores : list cell) (h : list number) (t : number) :
  length scores = HOLE_COUNT -> length h = HOLE_COUNT ->
  fold_left
    (fun net i =>
       let grossHole := cellToNumber scores i in
       let holeStrokes := strokesForHole (numAt h i) t in
       add net (sub grossHole holeStrokes))
    (seq 0 HOLE_COUNT) (num 0) =
  fold_left
    (fun net p =>
       add net (sub (cellAsNumber (fst p)) (strokesForHole (orNaN (snd p)) t)))
    (zip (Some <$> scores) (Some <$> h)) (num 0).
Proof.
  intros Hs Hh.
  rewrite <- (lookup_seq_fmap scores), <- (lookup_seq_fmap h), Hs, Hh.
  rewrite <- fmap_pair_zip, fold_left_fmap. reflexivity.
Qed.

Lemma table_of_permutation (h : list number) :
  Permutation h identityTable ->
  exists zs : list Z,
    h = num <$> zs /\ Permutation zs (seqZ 1 18) /\
    Forall (fun z => 1 <= z <= 18) zs /\ length zs = HOLE_COUNT.
Proof.
  intros Hp. unfold identityTable in Hp.
  apply Permutation_map_inv in Hp as (zs & -> & Hzs).
  exists zs. split; [reflexivity|]. split; [now symmetry|]. split.
  - apply Forall_forall. intros z Hz.
    assert (Hin : z ∈ seqZ 1 18) by (rewrite Hzs; exact Hz).
    apply elem_of_seqZ in Hin. lia.
  - rewrite <- (Permutation_length Hzs). reflexivity.
Qed.

Lemma computeNetToPar_without_table scores pars other totalStrokes :
  CompleteRound scores -> length pars = HOLE_COUNT -> ~ ValidTable other ->
  computeNetToPar scores (Some pars) other totalStrokes =
    Some (sub (sub (sum scores) (floor totalStrokes)) (sumNumbers pars)).
Proof.
  intros Hc Hp Hother. apply isCompleteRound_true in Hc.
  unfold computeNetToPar. rewrite Hc. cbn [negb].
  rewrite (validTable_None other Hother).
  unfold validTable. rewrite Hp. cbn [Nat.eqb HOLE_COUNT]. reflexivity.
Qed.

Lemma WholeCard_allFours (bound : Z) : 72 < bound -> WholeCard bound allFours.
Proof.
  intros Hb. exists (replicate 18 4). split; [reflexivity|]. split.
  - apply Forall_replicate. lia.
  - exact Hb.
Qed.

(** C6 as stated (every total whose floor is not negative) fails on the
    total +Infinity: its floor is +Infinity, which is not negative; the
    per-hole path allocates no stroke to any hole, while the path taken
    without a table subtracts +Infinity. *)
Lemma computeNetToPar_infinite_total_counterexample :
  ge (floor PInf) (num 0) = true /\
  computeNetToPar allFours (Some parsAllFour) (Some identityTable) PInf <>
  computeNetToPar allFours (Some parsAllFour) None PInf.
Proof.
  split; [reflexivity|]. js_refute.
Qed.

(** C6 (amended).  On a complete round of whole scores whose sum is below
    2^53, with a valid par table, a finite total whose floor is not negative
    and below 2^53, and a stroke-index table that is a permutation of 1..18,
    the per-hole allocations sum to exactly [floor totalStrokes], so the
    per-hole path of [computeNetToPar] and the path taken without a valid
    table return the same value: gross minus [floor totalStrokes] minus
    total par.  For pars of four, a card of fours, the table 1..18 and 18
    strokes, every hole gets one stroke, the net total is 54 and net-to-par
    is -18. *)
Theorem computeNetToPar_paths_agree :
  (forall scores pars h other (t : Qc),
      CompleteRound scores -> WholeCard (2 ^ 53) scores ->
      length pars = HOLE_COUNT -> 0 <= Qfloor t < 2 ^ 53 ->
      Permutation h identityTable -> ~ ValidTable other ->
      sumNumbers ((fun x => strokesForHole x (Fin t)) <$> h) = num (Qfloor t) /\
      computeNetToPar scores (Some pars) (Some h) (Fin t) =
        computeNetToPar scores (Some pars) other (Fin t) /\
      computeNetToPar scores (Some pars) other (Fin t) =
        Some (sub (sub (sum scores) (num (Qfloor t))) (sumNumbers pars))) /\
  Forall (fun x => strokesForHole x (num 18) = num 1) identityTable /\
  computeNetRunningTotal allFours (Some identityTable) (num 18) = num 54 /\
  computeNetToPar allFours (Some parsAllFour) (Some identityTable) (num 18) =
    Some (num (-18)).
Proof.
  split; [|split; [|split]].
  - intros scores pars h other t Hc _ Hp [Ht _] Hperm Hother.
    destruct (table_of_permutation h Hperm) as (zs & -> & Hzs & Hrange & Hlen).
    assert (Hsum : zsum (strokesZ (Qfloor t) <$> zs) = Qfloor t).
    { rewrite (zsum_Permutation _ (strokesZ (Qfloor t) <$> seqZ 1 18)).
      - now apply strokesZ_sum_18.
      - now apply fmap_Permutation. }
    pose proof (computeNetToPar_without_table scores pars other (Fin t)
                  Hc Hp Hother) as Hfallback.
    cbn [floor] in Hfallback.
    split; [|split; [|exact Hfallback]].
    + rewrite <- list_fmap_compose.
      rewrite (Forall_fmap_ext_1 _ (fun z => num (strokesZ (Qfloor t) z)) zs).
      * rewrite (list_fmap_compose (strokesZ (Qfloor t)) num).
        rewrite sumNumbers_num, Hsum. reflexivity.
      * eapply Forall_impl; [exact Hrange|]. intros z Hz. cbn.
        now apply strokesForHole_strokesZ.
    + rewrite Hfallback.
      pose proof Hc as Hc'. apply isCompleteRound_true in Hc'.
      destruct (CompleteRound_finite scores Hc) as (qs & -> & Hqs).
      unfold computeNetToPar. rewrite Hc'. cbn [negb].
      unfold validTable. rewrite Hp, length_fmap, Hlen.
      cbn [Nat.eqb HOLE_COUNT]. f_equal. f_equal.
      rewrite netTotal_per_hole by (rewrite length_fmap; assumption).
      change (num 0) with (Fin (Qc_of_Z 0)) at 1.
      rewrite netTotal_zip by (try assumption; congruence).
      rewrite Hsum, sum_finite. cbn [sub num]. f_equal.
      rewrite Z2Qc_inj_0. ring.
  - repeat constructor; js_compute.
  - js_compute.
  - js_compute.
Qed.

Lemma computeNetToPar_paths_agree_witness :
  computeNetToPar allFours (Some parsAllFour) (Some identityTable)
    (Fin (Qc_of_Z 18)) =
  computeNetToPar allFours (Some parsAllFour) None (Fin (Qc_of_Z 18)).
Proof.
  refine (proj1 (proj2 (proj1 computeNetToPar_paths_agree
            allFours parsAllFour identityTable None (Qc_of_Z 18) _ _ _ _ _ _))).
  - exact CompleteRound_allFours.
  - apply WholeCard_allFours. reflexivity.
  - reflexivity.
  - rewrite Qfloor_of_Z. split; [lia|reflexivity].
  - apply Permutation_refl.
  - exact not_ValidTable_None.
Defined.

(** ** Coercion of a stored score table *)

Lemma coerceScoreTable_lookup players input (player : string) :
  coerceScoreTable players input !! player =
    if decide (player ∈ players)
    then Some (coerceRow (input ≫= (fun table => table !! player)))
    else None.
Proof.
  unfold coerceScoreTable.
  induction players as [|p players IH] using rev_ind.
  - cbn. rewrite lookup_empty. rewrite decide_False; [reflexivity|].
    apply not_elem_of_nil.
  - rewrite fold_left_app. cbn [fold_left].
    destruct (decide (p = player)) as [->|Hne].
    + rewrite lookup_insert_eq. rewrite decide_True; [reflexivity|].
      apply elem_of_app. right. constructor.
    + rewrite lookup_insert_ne by exact Hne. rewrite IH.
      destruct (decide (player ∈ players)) as [H|H].
      * rewrite decide_True; [reflexivity|]. apply elem_of_app. now left.
      * rewrite decide_False; [reflexivity|]. intros H'.
        apply elem_of_app in H' as [H'|H']; [contradiction|].
        apply list_elem_of_singleton in H'. congruence.
Qed.

Lemma coerceCell_cases (v : option value) :
  (forall q, v = Some (VNumber (Fin q)) -> coerceCell v = Some (Fin q)) /\
  ((forall q, v <> Some (VNumber (Fin q))) -> coerceCell v = None).
Proof.
  split.
  - intros q ->. reflexivity.
  - intros H. destruct v as [[| | |[| | |q]| |]|]; try reflexivity.
    exfalso. now apply (H q).
Qed.

Lemma coerceCell_FiniteOrNull (v : option value) : FiniteOrNull (coerceCell v).
Proof.
  destruct v as [[| | |[| | |q]| |]|]; cbn; try (now left).
  right. now exists q.
Qed.

Lemma coerceRow_length existing : length (coerceRow existing) = HOLE_COUNT.
Proof.
  unfold coerceRow.
  destruct existing as [[items|v]|];
    rewrite ?length_replicate, ?length_fmap, ?length_seq; reflexivity.
Qed.

Lemma coerceRow_FiniteOrNull existing : Forall FiniteOrNull (coerceRow existing).
Proof.
  unfold coerceRow.
  destruct existing as [[items|v]|];
    try (apply Forall_replicate; now left).
  apply Forall_fmap, Forall_forall. intros i _. apply coerceCell_FiniteOrNull.
Qed.

Lemma coerceRow_array items (i : nat) :
  (i < HOLE_COUNT)%nat ->
  coerceRow (Some (Items items)) !! i = Some (coerceCell (items !! i)).
Proof.
  intros Hi. unfold coerceRow. rewrite list_lookup_fmap.
  rewrite lookup_seq_lt by exact Hi. reflexivity.
Qed.




(** ** Sorting with a comparator *)

Section ArraySort.

Context {A : Type} (comparefn : A -> A -> number) (P : A -> Prop).

Hypothesis before_total :
  forall x y, P x -> P y -> ~ comesFirst comparefn x y -> comesFirst comparefn y x.
Hypothesis before_trans :
  forall x y z, P x -> P y -> P z -> comesFirst comparefn x y -> comesFirst comparefn y z ->
    comesFirst comparefn x z.

Lemma insertSorted_Permutation (x : A) (l : list A) :
  Permutation (insertSorted comparefn x l) (x :: l).
Proof.
  induction l as [|y l IH]; cbn [insertSorted]; [reflexivity|].
  destruct (le _ _); [reflexivity|].
  rewrite IH. apply perm_swap.
Qed.

Lemma arraySort_cons (x : A) (l : list A) :
  arraySort comparefn (x :: l) = insertSorted comparefn x (arraySort comparefn l).
Proof. reflexivity. Qed.

Lemma arraySort_Permutation (l : list A) : Permutation (arraySort comparefn l) l.
Proof.
  induction l as [|x l IH]; [reflexivity|].
  rewrite arraySort_cons, insertSorted_Permutation. now constructor.
Qed.

Lemma insertSorted_sorted (x : A) (l : list A) :
  P x -> Forall P l -> StronglySorted (comesFirst comparefn) l ->
  StronglySorted (comesFirst comparefn) (insertSorted comparefn x l).
Proof.
  intros Hx HP Hs. induction Hs as [|y l Hs IH Hy]; cbn [insertSorted].
  - repeat constructor.
  - apply Forall_cons_1 in HP as [HPy HPl].
    destruct (le (sortCompare comparefn x y) (num 0)) eqn:E.
    + constructor; [now constructor|]. constructor; [exact E|].
      rewrite Forall_forall in Hy, HPl |- *. intros z Hz.
      apply (before_trans x y z); auto.
    + constructor; [now apply IH|].
      rewrite (insertSorted_Permutation x l). constructor; [|exact Hy].
      apply before_total; auto. unfold comesFirst. rewrite E. discriminate.
Qed.

Lemma arraySort_sorted (l : list A) :
  Forall P l -> StronglySorted (comesFirst comparefn) (arraySort comparefn l).
Proof.
  induction 1 as [|x l Hx Hl IH]; [constructor|].
  rewrite arraySort_cons. apply insertSorted_sorted; auto.
  rewrite arraySort_Permutation. exact Hl.
Qed.

End ArraySort.

Lemma StronglySorted_weaken {A} (P : A -> Prop) (R R' : A -> A -> Prop)
    (l : list A) :
  (forall x y, P x -> P y -> R x y -> R' x y) ->
  Forall P l -> StronglySorted R l -> StronglySorted R' l.
Proof.
  intros Himp HP Hs. induction Hs as [|x l Hs IH Hx]; [constructor|].
  apply Forall_cons_1 in HP as [HPx HPl]. constructor; [now apply IH|].
  rewrite Forall_forall in Hx, HPl |- *. auto.
Qed.

(** ** Finite totals *)

Lemma isFinite_Fin (x : number) : isFinite x = true -> exists q, x = Fin q.
Proof. destruct x; try discriminate. eauto. Qed.

Lemma isFinite_add (x y : number) :
  isFinite x = true -> isFinite y = true -> isFinite (add x y) = true.
Proof. destruct x, y; try discriminate; reflexivity. Qed.

Lemma isFinite_sub (x y : number) :
  isFinite x = true -> isFinite y = true -> isFinite (sub x y) = true.
Proof. destruct x, y; try discriminate; reflexivity. Qed.

Lemma isFinite_floor (x : number) :
  isFinite x = true -> isFinite (floor x) = true.
Proof. destruct x; try discriminate; reflexivity. Qed.

Lemma strokesForHole_finite (x t : number) :
  isFinite (strokesForHole x t) = true.
Proof.
  unfold strokesForHole.
  destruct x as [| | |i]; try reflexivity.
  destruct (negb _ || _ || _); [reflexivity|].
  destruct t as [| | |q]; try reflexivity.
  cbn [floor num isFinite negb orb].
  destruct (le _ _); [reflexivity|].
  destruct (lt _ _); [reflexivity|].
  unfold num. cbn [sub div]. rewrite Qceqb_of_Z. reflexivity.
Qed.

Lemma addCell_finite (acc : number) (c : cell) :
  isFinite acc = true -> FiniteOrNull c -> isFinite (addCell acc c) = true.
Proof.
  intros Ha [->|(q & ->)]; [exact Ha|].
  apply isFinite_add; [exact Ha|reflexivity].
Qed.

Lemma isFinite_sum (l : list cell) :
  Forall FiniteOrNull l -> isFinite (sum l) = true.
Proof.
  intros Hl. unfold sum.
  assert (H0 : isFinite (num 0) = true) by reflexivity.
  revert H0. generalize (num 0).
  induction Hl as [|c l Hc _ IH]; intros acc Hacc; [exact Hacc|].
  cbn [fold_left]. apply IH. now apply addCell_finite.
Qed.

Lemma computeNetRunningTotal_finite scores hcps t :
  Forall FiniteOrNull scores -> isFinite t = true ->
  isFinite (computeNetRunningTotal scores hcps t) = true.
Proof.
  intros Hs Ht. unfold computeNetRunningTotal.
  pose proof (isFinite_sum scores Hs) as Hg.
  destruct (validTable hcps) as [h|].
  - apply isFinite_sub; [exact Hg|].
    assert (H0 : isFinite (num 0) = true) by reflexivity.
    revert H0. generalize (num 0). generalize (seq 0 HOLE_COUNT).
    intros l. induction l as [|i l IH]; intros acc Hacc; [exact Hacc|].
    cbn [fold_left]. apply IH.
    destruct (scores !! i) as [v|]; [|exact Hacc].
    destruct (playedCell v); [|exact Hacc].
    apply isFinite_add; [exact Hacc|apply strokesForHole_finite].
  - destruct (isCompleteRound _); [|exact Hg].
    apply isFinite_sub; [exact Hg|now apply isFinite_floor].
Qed.

Lemma applyCharityAtEnd_finite net scores charity :
  isFinite net = true ->
  isFinite (applyCharityAtEnd net scores charity) = true.
Proof.
  intros Hn. unfold applyCharityAtEnd.
  destruct (isFinite (floor charity)) eqn:Hc; cbn [negb orb]; [|exact Hn].
  destruct (le _ _); [exact Hn|].
  destruct (isCompleteRound _); [|exact Hn].
  now apply isFinite_sub.
Qed.

Lemma orZero_finite (m : gmap string number) (p : string) :
  FiniteNumbers m -> isFinite (orZero (m !! p)) = true.
Proof.
  intros Hm. destruct (m !! p) as [n|] eqn:E; cbn; [|reflexivity].
  exact (Hm p n E).
Qed.

Lemma teeBonusForDay_finite day tee : isFinite (teeBonusForDay day tee) = true.
Proof. destruct day, tee as [[]|]; reflexivity. Qed.

Lemma card_finite (m : gmap string (list cell)) (p : string) (d : list cell) :
  FiniteCards m -> Forall FiniteOrNull d ->
  Forall FiniteOrNull (default d (m !! p)).
Proof.
  intros Hm Hd. destruct (m !! p) as [row|] eqn:E; cbn; [|exact Hd].
  exact (Hm p row E).
Qed.

Lemma emptyCard_finite : Forall FiniteOrNull emptyCard.
Proof. apply Forall_replicate. now left. Qed.

Lemma day1Row_finite (st : PageState) (p : string) :
  StateFinite st -> FiniteRow (day1Row st p).
Proof.
  intros [H1 H2 Hh Ha Hc Ht]. split; cbn [net gross day1Row].
  - apply applyCharityAtEnd_finite, computeNetRunningTotal_finite.
    + apply card_finite; [exact H1|exact emptyCard_finite].
    + apply isFinite_add; [now apply orZero_finite|apply teeBonusForDay_finite].
  - apply isFinite_sum, card_finite; [exact H1|constructor].
Qed.

Lemma day2Row_finite (st : PageState) (p : string) :
  StateFinite st -> FiniteRow (day2Row st p).
Proof.
  intros [H1 H2 Hh Ha Hc Ht]. split; cbn [net gross day2Row].
  - apply applyCharityAtEnd_finite, computeNetRunningTotal_finite.
    + apply card_finite; [exact H2|exact emptyCard_finite].
    + apply isFinite_add; [|apply teeBonusForDay_finite].
      apply isFinite_add; now apply orZero_finite.
  - apply isFinite_sum, card_finite; [exact H2|constructor].
Qed.

(** The coercions of the read path establish the invariant. *)
Lemma coerceScoreTable_FiniteCards players input :
  FiniteCards (coerceScoreTable players input).
Proof.
  intros p row. rewrite coerceScoreTable_lookup.
  destruct (decide (p ∈ players)); [|discriminate].
  intros [= <-]. apply coerceRow_FiniteOrNull.
Qed.

Lemma coerceNumberMap_FiniteNumbers players input d :
  isFinite d = true -> FiniteNumbers (coerceNumberMap players input d).
Proof.
  intros Hd p n. unfold coerceNumberMap.
  induction players as [|q players IH] using rev_ind.
  - cbn. rewrite lookup_empty. discriminate.
  - rewrite fold_left_app. cbn [fold_left].
    destruct (decide (q = p)) as [->|Hne].
    + rewrite lookup_insert_eq. intros [= <-].
      destruct (input ≫= _) as [[items|[| | |m| |]]|]; try exact Hd.
      destruct (isFinite m) eqn:E; [exact E|exact Hd].
    + rewrite lookup_insert_ne by exact Hne. exact IH.
Qed.

(** ** The comparator of the leaderboards *)

Lemma Qcminus_eq_0 (x y : Qc) :
  Qceqb (x - y)%Qc (Qc_of_Z 0) = true <-> x = y.
Proof.
  rewrite Qceqb_true, Z2Qc_inj_0. split.
  - intros H. replace x with ((x - y) + y)%Qc by ring. rewrite H. ring.
  - intros ->. ring.
Qed.

Lemma Qcminus_le_0 (x y : Qc) :
  Qcleb (x - y)%Qc (Qc_of_Z 0) = true <-> (x <= y)%Qc.
Proof.
  rewrite Qcleb_true, Z2Qc_inj_0.
  rewrite (Qcplus_le_mono_r x y (- y)%Qc).
  replace (y + - y)%Qc with 0%Qc by ring. reflexivity.
Qed.

Section RowOrder.

Variable localeCompare : string -> string -> Z.
Hypothesis collation : ConsistentCollation localeCompare.

(** On rows with finite totals the comparator decides the order of the
    contract. *)
Lemma rowCompare_RowBefore (a b : LeaderRow) :
  FiniteRow a -> FiniteRow b ->
  (comesFirst (rowCompare localeCompare) a b <-> RowBefore localeCompare a b).
Proof.
  intros [Hna Hga] [Hnb Hgb].
  unfold comesFirst, sortCompare, RowBefore, rowCompare, NumLt.
  destruct (isFinite_Fin _ Hna) as [x ->], (isFinite_Fin _ Hnb) as [y ->].
  destruct (isFinite_Fin _ Hga) as [g ->], (isFinite_Fin _ Hgb) as [g' ->].
  cbn [sub lt]. unfold orElse, truthy, num.
  destruct (Qceqb (x - y)%Qc (Qc_of_Z 0)) eqn:Ex; cbn [negb].
  - apply Qcminus_eq_0 in Ex. subst y.
    destruct (Qceqb (g - g')%Qc (Qc_of_Z 0)) eqn:Eg; cbn [negb].
    + apply Qcminus_eq_0 in Eg. subst g'.
      cbn [le]. rewrite Qcleb_of_Z, Z.leb_le.
      split; [auto|].
      intros [H|[_ [H|[_ H]]]]; [| |exact H];
        apply Qcltb_true in H; now apply Qclt_not_eq in H.
    + cbn [le]. rewrite Qcminus_le_0. split.
      * intros H. right. split; [reflexivity|]. left. apply Qcltb_true.
        apply Qcle_lt_or_eq in H as [H| ->]; [exact H|].
        apply not_true_iff_false in Eg. exfalso. apply Eg.
        now apply Qcminus_eq_0.
      * intros [H|[_ [H|[H _]]]].
        -- apply Qcltb_true in H. now apply Qclt_not_eq in H.
        -- apply Qcltb_true in H. now apply Qclt_le_weak.
        -- injection H as ->. apply Qcle_refl.
  - cbn [le]. rewrite Qcminus_le_0. split.
    + intros H. left. apply Qcltb_true.
      apply Qcle_lt_or_eq in H as [H| ->]; [exact H|].
      apply not_true_iff_false in Ex. exfalso. apply Ex.
      now apply Qcminus_eq_0.
    + intros [H|[H _]].
      * apply Qcltb_true in H. now apply Qclt_le_weak.
      * injection H as ->. apply Qcle_refl.
Qed.

Lemma RowBefore_total (a b : LeaderRow) :
  FiniteRow a -> FiniteRow b ->
  ~ RowBefore localeCompare a b -> RowBefore localeCompare b a.
Proof.
  intros [Hna Hga] [Hnb Hgb]. unfold RowBefore, NumLt.
  destruct (isFinite_Fin _ Hna) as [x ->], (isFinite_Fin _ Hnb) as [y ->].
  destruct (isFinite_Fin _ Hga) as [g ->], (isFinite_Fin _ Hgb) as [g' ->].
  cbn [lt]. rewrite !Qcltb_true. intros Hnot.
  destruct (Qc_dec x y) as [[H|H]| ->]; [tauto|now left|].
  destruct (Qc_dec g g') as [[H|H]| ->]; [tauto|right; split; auto|].
  right. split; [reflexivity|]. right. split; [reflexivity|].
  destruct (Z_le_gt_dec (localeCompare (player a) (player b)) 0) as [H|H].
  - exfalso. apply Hnot. right. split; [reflexivity|]. right. now split.
  - destruct collation as [Hanti _].
    pose proof (Hanti (player a) (player b) ltac:(lia)). lia.
Qed.

Lemma RowBefore_trans (a b c : LeaderRow) :
  FiniteRow a -> FiniteRow b -> FiniteRow c ->
  RowBefore localeCompare a b -> RowBefore localeCompare b c ->
  RowBefore localeCompare a c.
Proof.
  intros [Hna Hga] [Hnb Hgb] [Hnc Hgc]. unfold RowBefore, NumLt.
  destruct (isFinite_Fin _ Hna) as [x ->], (isFinite_Fin _ Hnb) as [y ->].
  destruct (isFinite_Fin _ Hnc) as [z ->].
  destruct (isFinite_Fin _ Hga) as [g ->], (isFinite_Fin _ Hgb) as [g' ->].
  destruct (isFinite_Fin _ Hgc) as [g'' ->].
  cbn [lt]. rewrite !Qcltb_true.
  destruct collation as [_ Htrans].
  intros [H1|[E1 [H1|[E1' H1]]]] [H2|[E2 [H2|[E2' H2]]]];
    try (injection E1 as ->); try (injection E2 as ->);
    try (injection E1' as ->); try (injection E2' as ->);
    try (left; eauto using Qclt_trans; fail);
    try (right; split; [reflexivity|]; left; eauto using Qclt_trans; fail).
  right. split; [reflexivity|]. right. split; [reflexivity|].
  eapply Htrans; eassumption.
Qed.

Lemma leaderboard_sorted (rows : list LeaderRow) :
  Forall FiniteRow rows ->
  StronglySorted (RowBefore localeCompare)
    (arraySort (rowCompare localeCompare) rows).
Proof.
  intros Hfin.
  pose proof (arraySort_Permutation (rowCompare localeCompare) rows) as Hperm.
  assert (Hfin' : Forall FiniteRow (arraySort (rowCompare localeCompare) rows))
    by (eapply Permutation_Forall; [symmetry; exact Hperm|exact Hfin]).
  assert (Hs : StronglySorted (comesFirst (rowCompare localeCompare))
                 (arraySort (rowCompare localeCompare) rows)).
  { apply (arraySort_sorted (rowCompare localeCompare) FiniteRow); [| |exact Hfin].
    - intros x y Hx Hy Hn. apply rowCompare_RowBefore; [auto..|].
      apply RowBefore_total; auto. intros H. apply Hn.
      now apply rowCompare_RowBefore.
    - intros x y z Hx Hy Hz H1 H2. apply rowCompare_RowBefore; [auto..|].
      apply (RowBefore_trans x y z); auto; now apply rowCompare_RowBefore. }
  apply (StronglySorted_weaken FiniteRow
           (comesFirst (rowCompare localeCompare))); [|exact Hfin'|exact Hs].
  intros x y Hx Hy H. now apply rowCompare_RowBefore.
Qed.

End RowOrder.

Lemma StronglySorted_lookup_lt {A} (R : A -> A -> Prop) (l : list A)
    (i j : nat) (a b : A) :
  StronglySorted R l -> (i < j)%nat ->
  l !! i = Some a -> l !! j = Some b -> R a b.
Proof.
  intros Hs. revert i j. induction Hs as [|x l Hs IH Hx]; intros i j Hij Hi Hj.
  - discriminate.
  - destruct j as [|j]; [lia|]. cbn in Hj. destruct i as [|i].
    + injection Hi as <-. rewrite Forall_forall in Hx. apply Hx.
      eapply list_elem_of_lookup_2. exact Hj.
    + cbn in Hi. apply (IH i j); [lia|assumption..].
Qed.

Lemma RowBefore_tie localeCompare (a b : LeaderRow) :
  FiniteRow a -> RowBefore localeCompare a b ->
  net a = net b -> gross a = gross b ->
  localeCompare (player a) (player b) <= 0.
Proof.
  intros [Hna Hga] Hab En Eg. unfold RowBefore, NumLt in Hab.
  rewrite <- En, <- Eg in Hab.
  destruct (isFinite_Fin _ Hna) as [x Hx], (isFinite_Fin _ Hga) as [g Hg].
  rewrite Hx, Hg in Hab. cbn [lt] in Hab.
  destruct Hab as [H|[_ [H|[_ H]]]]; [| |exact H];
    apply Qcltb_true in H; now apply Qclt_not_eq in H.
Qed.

Lemma codeUnitCompare_consistent : ConsistentCollation codeUnitCompare.
Proof.
  assert (Hrefl : forall a, String_as_OT.compare a a = Eq).
  { intros a. destruct (String_as_OT.compare_spec a a) as [_|H|H];
      [reflexivity|..]; exfalso; exact (irreflexivity _ a H). }
  split.
  - intros a b. unfold codeUnitCompare.
    destruct (String_as_OT.compare_spec a b) as [_|_|H]; [lia..|].
    intros _. unfold String_as_OT.lt in H. rewrite H. lia.
  - intros a b c. unfold codeUnitCompare.
    destruct (String_as_OT.compare_spec a b) as [->|Hab|_]; [auto| |lia].
    destruct (String_as_OT.compare_spec b c) as [->|Hbc|_]; [|  |lia].
    + intros _ _. rewrite Hab. lia.
    + intros _ _.
      assert (Hac : String_as_OT.lt a c) by (etransitivity; eassumption).
      unfold String_as_OT.lt in Hac. rewrite Hac. lia.
Qed.

Lemma tiedState_finite : StateFinite tiedState.
Proof.
  assert (He : FiniteCards ∅) by (intros p row; rewrite lookup_empty; discriminate).
  assert (Hn : FiniteNumbers ∅) by (intros p n; rewrite lookup_empty; discriminate).
  split; cbn; try assumption.
  intros p n. intros H. apply lookup_singleton_Some in H as [_ <-]. reflexivity.
Qed.

(** ** The leaderboards are sorted *)

Lemma arraySort_ordered (localeCompare : string -> string -> Z)
    (source : list LeaderRow) :
  ConsistentCollation localeCompare -> Forall FiniteRow source ->
  LeaderboardOrdered localeCompare
    (arraySort (rowCompare localeCompare) source) source.
Proof.
  intros Hcoll Hfin.
  pose proof (arraySort_Permutation (rowCompare localeCompare) source) as Hperm.
  pose proof (leaderboard_sorted localeCompare Hcoll source Hfin) as Hsorted.
  split; [exact Hperm|]. split; [exact Hsorted|].
  intros i j a b Hij Hi Hj En Eg.
  apply RowBefore_tie; [| |exact En|exact Eg].
  - assert (Hall : Forall FiniteRow
                     (arraySort (rowCompare localeCompare) source))
      by (eapply Permutation_Forall; [symmetry; exact Hperm|exact Hfin]).
    rewrite Forall_forall in Hall. apply Hall.
    eapply list_elem_of_lookup_2. exact Hi.
  - exact (StronglySorted_lookup_lt _ _ i j a b Hsorted Hij Hi Hj).
Qed.


Example tied_players_by_name :
  map player (day1Leaderboard codeUnitCompare tiedState) = ["Al"; "Bob"]%string.
Proof. vm_compute. reflexivity. Qed.


(** ** Arithmetic on integers *)

Lemma floor_num (z : Z) : floor (num z) = num z.
Proof. unfold num. cbn [floor]. rewrite Qfloor_of_Z. reflexivity. Qed.

Lemma max_0_num (z : Z) : 0 <= z -> max (num 0) (num z) = num z.
Proof.
  intros Hz. unfold num. cbn [max lt]. rewrite Qcltb_of_Z.
  destruct (Z.ltb_spec 0 z) as [H|H]; [reflexivity|].
  replace z with 0 by lia. reflexivity.
Qed.

Lemma mul_num (a b : Z) : mul (num a) (num b) = num (a * b).
Proof. unfold num. cbn [mul]. rewrite Z2Qc_inj_mul. reflexivity. Qed.

Lemma add_num (a b : Z) : add (num a) (num b) = num (a + b).
Proof. unfold num. cbn [add]. rewrite Z2Qc_inj_add. reflexivity. Qed.

Lemma floor_div_num (t d : Z) :
  d <> 0 -> floor (div (num t) (num d)) = num (t / d).
Proof.
  intros Hd. unfold num. cbn [div]. rewrite Qceqb_of_Z.
  destruct (Z.eqb_spec d 0) as [E|_]; [contradiction|].
  cbn [floor]. rewrite Qfloor_div_of_Z. reflexivity.
Qed.

Lemma Qcdiv_of_Z_nonneg (t d : Z) :
  0 <= t -> 0 < d -> (Qc_of_Z 0 <= Qc_of_Z t / Qc_of_Z d)%Qc.
Proof.
  intros Ht Hd. rewrite Z2Qc_inj_0. unfold Qcdiv.
  apply Qcmult_nonneg_nonneg.
  - rewrite <- Z2Qc_inj_0. now apply Qc_of_Z_le.
  - apply Qclt_le_weak, Qcinv_pos. rewrite <- Z2Qc_inj_0. now apply Qc_of_Z_lt.
Qed.

Lemma rem_num (t d : Z) :
  0 <= t -> 0 < d -> rem (num t) (num d) = num (t mod d).
Proof.
  intros Ht Hd. unfold num. cbn [rem]. rewrite Qceqb_of_Z.
  destruct (Z.eqb_spec d 0) as [E|_]; [lia|].
  pose proof (Qcdiv_of_Z_nonneg t d Ht Hd) as Hq.
  apply Qcleb_true in Hq. rewrite Hq. rewrite Qfloor_div_of_Z.
  f_equal. rewrite <- Z2Qc_inj_mul, <- Z2Qc_inj_sub. f_equal.
  rewrite Z.mod_eq by lia. reflexivity.
Qed.

(** ** Decimal text *)

Lemma append_String (c : ascii) (s t : string) :
  (String c s ++ t)%string = String c (s ++ t)%string.
Proof. reflexivity. Qed.

Lemma list_ascii_of_string_app (s t : string) :
  list_ascii_of_string (s ++ t) =
  (list_ascii_of_string s ++ list_ascii_of_string t)%list.
Proof.
  induction s as [|c s IH]; [reflexivity|].
  rewrite append_String. cbn [list_ascii_of_string app]. f_equal. exact IH.
Qed.

Lemma string_of_uint_digits (d : Decimal.uint) :
  forallb isDigit (list_ascii_of_string (NilEmpty.string_of_uint d)) = true.
Proof. induction d; cbn; auto. Qed.

Lemma to_uint_nonnil (n : N) : N.to_uint n <> Decimal.Nil.
Proof.
  destruct n as [|p]; cbn; [discriminate|]. apply Unsigned.to_uint_nonnil.
Qed.

Lemma digits_all (n : N) : forallb isDigit (digits n) = true.
Proof. apply string_of_uint_digits. Qed.

Lemma digits_nonempty (n : N) : digits n <> [].
Proof.
  unfold digits, decimal. pose proof (to_uint_nonnil n) as H.
  destruct (N.to_uint n); [contradiction|..]; discriminate.
Qed.

Lemma decimal_of_digits (n : N) : string_of_list_ascii (digits n) = decimal n.
Proof. apply string_of_list_ascii_of_string. Qed.

Lemma isDigit_not_space (c : ascii) : isDigit c = true -> isSpace c = false.
Proof.
  destruct c as [[] [] [] [] [] [] [] []]; vm_compute; congruence.
Qed.

(** ** Trimming *)

Lemma dropSpaces_id (s : list ascii) : headFails isSpace s -> dropSpaces s = s.
Proof. destruct s as [|c s]; cbn; [reflexivity|]. now intros ->. Qed.

Lemma trimChars_id (s : list ascii) :
  headFails isSpace s -> headFails isSpace (rev s) -> trimChars s = s.
Proof.
  intros H1 H2. unfold trimChars.
  rewrite (dropSpaces_id s H1), (dropSpaces_id _ H2). apply rev_involutive.
Qed.

Lemma headFails_digits (l : list ascii) :
  forallb isDigit l = true -> headFails isSpace l.
Proof.
  destruct l as [|c l]; cbn; [auto|].
  intros H. apply andb_prop in H as [H _]. now apply isDigit_not_space.
Qed.

Lemma forallb_rev {A} (p : A -> bool) (l : list A) :
  forallb p (rev l) = forallb p l.
Proof.
  induction l as [|x l IH]; [reflexivity|].
  cbn [rev forallb]. rewrite forallb_app, IH. cbn. 
  rewrite andb_true_r. apply andb_comm.
Qed.

Lemma trimChars_digits (n : N) : trimChars (digits n) = digits n.
Proof.
  apply trimChars_id; apply headFails_digits.
  - apply digits_all.
  - rewrite forallb_rev. apply digits_all.
Qed.

Lemma trim_decimal (n : N) : trim (decimal n) = decimal n.
Proof.
  unfold trim. fold (digits n). rewrite trimChars_digits.
  apply decimal_of_digits.
Qed.

Lemma decimal_not_empty (n : N) : String.eqb (decimal n) EmptyString = false.
Proof.
  pose proof (digits_nonempty n) as H. unfold digits in H.
  destruct (decimal n); [contradiction|reflexivity].
Qed.

(** ** Formatting *)

Section Format.

Variable otherLiteral : string -> number.
Variable fractionText : Qc -> string.

Lemma Number_decimal (n : N) :
  Number otherLiteral (decimal n) = num (Z.of_N n).
Proof.
  unfold Number. rewrite trim_decimal. unfold decimal.
  rewrite NilEmpty.usu, DecimalN.Unsigned.of_to. reflexivity.
Qed.

Lemma ToString_num (z : Z) :
  0 <= z < 10 ^ 21 -> ToString fractionText (num z) = decimal (Z.to_N z).
Proof.
  intros Hz. unfold ToString, num.
  rewrite Qcleb_of_Z, Qfloor_of_Z, Qceqb_of_Z, Z.eqb_refl.
  destruct (Z.leb_spec 0 z) as [_|Hneg]; [|lia]. unfold integerText.
  destruct (N.ltb_spec (Z.to_N z) (10 ^ 21)) as [_|Hbig]; [reflexivity|].
  exfalso. apply N2Z.inj_le in Hbig. rewrite Z2N.id in Hbig by lia.
  change (Z.of_N (10 ^ 21)) with (10 ^ 21) in Hbig. lia.
Qed.

Lemma formatFeetInches_decimal (f i : N) :
  (12 * f + i < 10 ^ 21)%N ->
  formatFeetInches otherLiteral fractionText (decimal f) (decimal i) =
    formatted ((12 * f + i) / 12) ((12 * f + i) mod 12).
Proof.
  intros Hsmall. unfold formatFeetInches, formatted.
  rewrite !trim_decimal, !decimal_not_empty. cbn [andb].
  rewrite !Number_decimal, !floor_num, !max_0_num by lia.
  cbn [isFinite num negb orb].
  fold (num (Z.of_N f)) (num (Z.of_N i)).
  rewrite mul_num, add_num, floor_div_num, rem_num by lia.
  assert (Ht : 0 <= Z.of_N f * 12 + Z.of_N i < 10 ^ 21).
  { apply N2Z.inj_lt in Hsmall.
    rewrite N2Z.inj_add, N2Z.inj_mul in Hsmall.
    change (Z.of_N (10 ^ 21)) with (10 ^ 21) in Hsmall.
    change (Z.of_N 12) with 12 in Hsmall. lia. }
  rewrite !ToString_num.
  - rewrite <- (N2Z.id ((12 * f + i) / 12)), <- (N2Z.id ((12 * f + i) mod 12)).
    rewrite N2Z.inj_div, N2Z.inj_mod, N2Z.inj_add, N2Z.inj_mul.
    replace (Z.of_N 12 * Z.of_N f) with (Z.of_N f * 12) by lia.
    reflexivity.
  - pose proof (Z.mod_pos_bound (Z.of_N f * 12 + Z.of_N i) 12 ltac:(lia)).
    lia.
  - split; [apply Z.div_pos; lia|].
    apply Z.div_lt_upper_bound; lia.
Qed.

End Format.

(** ** Matching *)

Section Greedy.

Context {T : Type}.

(** A one-character class: [\d] or [\s]. *)
Variable cls : regex.
Variable test : ascii -> bool.
Hypothesis cls_step :
  forall (s : list ascii) (caps : captures) (k : @cont T),
    matchR cls s caps k =
      match s with
      | c :: s' => if test c then k s' caps else None
      | [] => None
      end.

(** Greedy iteration over a run of the class takes the whole run when the
    rest of the pattern matches after it. *)
Lemma starLoop_run (run rest : list ascii) (caps : captures)
    (k : @cont T) (fuel : nat) (x : T) :
  forallb test run = true -> headFails test rest ->
  (length (run ++ rest) <= fuel)%nat ->
  k rest caps = Some x ->
  starLoop (matchR cls) fuel (run ++ rest) caps k = Some x.
Proof.
  intros Hrun Hrest. revert fuel.
  induction run as [|c run IH]; intros fuel Hfuel Hk.
  - cbn [app]. destruct fuel as [|fuel]; cbn [starLoop]; [exact Hk|].
    rewrite cls_step. destruct rest as [|c rest]; cbn [orTry]; [exact Hk|].
    cbn in Hrest. rewrite Hrest. exact Hk.
  - cbn [forallb] in Hrun. apply andb_prop in Hrun as [Hc Hrun].
    destruct fuel as [|fuel]; [cbn in Hfuel; lia|].
    cbn [app starLoop]. rewrite cls_step, Hc.
    replace (length (run ++ rest) <? length (c :: run ++ rest))%nat with true
      by (symmetry; apply Nat.ltb_lt; cbn; lia).
    rewrite IH; [reflexivity|exact Hrun|cbn in Hfuel; lia|exact Hk].
Qed.

Lemma matchR_Star_run (run rest : list ascii) (caps : captures)
    (k : @cont T) (x : T) :
  forallb test run = true -> headFails test rest ->
  k rest caps = Some x ->
  matchR (Star cls) (run ++ rest) caps k = Some x.
Proof.
  intros Hrun Hrest Hk. cbn [matchR].
  apply starLoop_run; auto.
Qed.

Lemma matchR_Plus_run (run rest : list ascii) (caps : captures)
    (k : @cont T) (x : T) :
  run <> [] -> forallb test run = true -> headFails test rest ->
  k rest caps = Some x ->
  matchR (Plus cls) (run ++ rest) caps k = Some x.
Proof.
  intros Hne Hrun Hrest Hk. destruct run as [|c run]; [contradiction|].
  cbn [forallb] in Hrun. apply andb_prop in Hrun as [Hc Hrun].
  unfold Plus. cbn [matchR app]. rewrite cls_step, Hc.
  apply starLoop_run; auto.
Qed.

Lemma matchR_Group_Plus_run (n : nat) (run rest : list ascii)
    (caps : captures) (k : @cont T) (x : T) :
  run <> [] -> forallb test run = true -> headFails test rest ->
  k rest ((n, run) :: caps) = Some x ->
  matchR (Group n (Plus cls)) (run ++ rest) caps k = Some x.
Proof.
  intros Hne Hrun Hrest Hk.
  change (matchR (Group n (Plus cls)) (run ++ rest) caps k)
    with (matchR (Plus cls) (run ++ rest) caps
            (fun s' caps' =>
               k s' ((n, take (length (run ++ rest) - length s')
                           (run ++ rest)) :: caps'))).
  apply matchR_Plus_run; auto.
  replace (length (run ++ rest) - length rest)%nat with (length run)
    by (rewrite length_app; lia).
  rewrite take_app_length. exact Hk.
Qed.

End Greedy.

Lemma search_here (r : regex) (s : list ascii) (m : found) :
  matchHere r s = Some m -> search r s = Some m.
Proof. intros H. destruct s; cbn [search]; rewrite H; reflexivity. Qed.

Section Steps.

Context {T : Type}.

Lemma matchR_Seq (r1 r2 : regex) s caps (k : @cont T) :
  matchR (Seq r1 r2) s caps k =
    matchR r1 s caps (fun s' caps' => matchR r2 s' caps' k).
Proof. reflexivity. Qed.

Lemma matchR_Alt (r1 r2 : regex) s caps (k : @cont T) :
  matchR (Alt r1 r2) s caps k =
    orTry (matchR r1 s caps k) (matchR r2 s caps k).
Proof. reflexivity. Qed.

Lemma matchR_Chr (c c' : ascii) s caps (k : @cont T) :
  matchR (Chr c) (c' :: s) caps k =
    if Ascii.eqb (toLower c) (toLower c') then k s caps else None.
Proof. reflexivity. Qed.

Lemma orTry_first (a b : option T) (x : T) : a = Some x -> orTry a b = Some x.
Proof. intros ->. reflexivity. Qed.

Lemma Digit_step (s : list ascii) (caps : captures) (k : @cont T) :
  matchR Digit s caps k =
    match s with
    | c :: s' => if isDigit c then k s' caps else None
    | [] => None
    end.
Proof. reflexivity. Qed.

Lemma Space_step (s : list ascii) (caps : captures) (k : @cont T) :
  matchR Space s caps k =
    match s with
    | c :: s' => if isSpace c then k s' caps else None
    | [] => None
    end.
Proof. reflexivity. Qed.

End Steps.

Lemma headFails_space_digits (n : N) (rest : list ascii) :
  headFails isSpace (digits n ++ rest).
Proof.
  pose proof (digits_nonempty n) as Hne. pose proof (digits_all n) as Hall.
  destruct (digits n) as [|c l]; [contradiction|]. cbn in *.
  apply andb_prop in Hall as [Hc _]. now apply isDigit_not_space.
Qed.

Lemma apostrophePattern_formatted (f i : N) :
  matchHere apostrophePattern
    (digits f ++ "'"%char :: " "%char :: digits i ++ [dquote]) =
  Some {| matched := digits f ++ "'"%char :: " "%char :: digits i ++ [dquote];
          groups := [(2%nat, digits i); (1%nat, digits f)];
          after := [] |}.
Proof.
  unfold matchHere, apostrophePattern.
  set (whole := digits f ++ "'"%char :: " "%char :: digits i ++ [dquote]).
  set (final := fun (s' : list ascii) (caps : captures) =>
                  Some {| matched := take (length whole - length s') whole;
                          groups := caps; after := s' |}).
  unfold whole at 1.
  (* the feet group takes every digit of the first run *)
  rewrite matchR_Seq.
  apply (matchR_Group_Plus_run Digit isDigit Digit_step);
    [apply digits_nonempty|apply digits_all|reflexivity|].
  (* no space before the apostrophe *)
  rewrite matchR_Seq.
  apply (matchR_Star_run Space isSpace Space_step []); [reflexivity..|].
  rewrite matchR_Seq, matchR_Chr.
  replace (Ascii.eqb (toLower "'") (toLower "'")) with true by reflexivity.
  (* one space after it *)
  rewrite matchR_Seq.
  apply (matchR_Star_run Space isSpace Space_step [" "%char]);
    [reflexivity|apply headFails_space_digits|].
  (* the inches group takes every digit of the second run *)
  rewrite matchR_Seq. unfold Opt at 1. rewrite matchR_Alt. apply orTry_first.
  apply (matchR_Group_Plus_run Digit isDigit Digit_step);
    [apply digits_nonempty|apply digits_all|reflexivity|].
  (* no space before the closing double quote *)
  rewrite matchR_Seq.
  apply (matchR_Star_run Space isSpace Space_step []); [reflexivity..|].
  unfold Opt. rewrite matchR_Alt. apply orTry_first.
  rewrite matchR_Alt. apply orTry_first. rewrite matchR_Chr.
  replace (Ascii.eqb (toLower dquote) (toLower dquote)) with true
    by reflexivity.
  unfold final. cbn [length]. rewrite Nat.sub_0_r, firstn_all. reflexivity.
Qed.

(** ** Round trip *)

Lemma formatted_chars (f i : N) :
  list_ascii_of_string (formatted f i) =
  digits f ++ "'"%char :: " "%char :: digits i ++ [dquote].
Proof.
  unfold formatted. rewrite !list_ascii_of_string_app. reflexivity.
Qed.

Lemma trim_formatted (f i : N) : trim (formatted f i) = formatted f i.
Proof.
  unfold trim. rewrite formatted_chars, trimChars_id.
  - rewrite <- formatted_chars. apply string_of_list_ascii_of_string.
  - apply headFails_space_digits.
  - replace (digits f ++ "'"%char :: " "%char :: digits i ++ [dquote])
      with ((digits f ++ "'"%char :: " "%char :: digits i) ++ [dquote])
      by (rewrite <- app_assoc; reflexivity).
    rewrite rev_unit. reflexivity.
Qed.

Lemma formatted_not_empty (f i : N) :
  String.eqb (formatted f i) EmptyString = false.
Proof.
  unfold formatted. pose proof (decimal_not_empty f) as H.
  destruct (decimal f); [discriminate|reflexivity].
Qed.

Lemma parseFeetInches_formatted (f i : N) :
  parseFeetInches (formatted f i) = {| feet := decimal f; inches := decimal i |}.
Proof.
  unfold parseFeetInches. rewrite trim_formatted, formatted_not_empty.
  unfold matchFirst. rewrite formatted_chars.
  rewrite (search_here _ _ _ (apostrophePattern_formatted f i)).
  unfold groupOrEmpty. cbn [groups capture List.find fst snd Nat.eqb fmap option_fmap option_map].
  rewrite !decimal_of_digits. reflexivity.
Qed.

(** C9 as stated (every non-negative integer) fails: from 10^21 feet on,
    the template literal prints the feet in exponent notation, and the
    pattern then reads the exponent as the feet. *)
Lemma feet_inches_round_trip_counterexample :
  parseFeetInches
    (formatFeetInches (fun _ => NaN) (fun _ => EmptyString)
       (decimal (10 ^ 21)) (decimal 0)) <>
  {| feet := decimal (10 ^ 21); inches := decimal 0 |}.
Proof.
  assert (H : parseFeetInches
                (formatFeetInches (fun _ => NaN) (fun _ => EmptyString)
                   (decimal (10 ^ 21)) (decimal 0)) =
              {| feet := "21"; inches := "0" |}) by (vm_compute; reflexivity).
  rewrite H. vm_compute. discriminate.
Qed.

(** C9 (amended).  [formatFeetInches] writes feet and inches in the
    canonical form (feet, apostrophe, space, inches, double quote) and
    carries inches beyond eleven over into feet: the texts 3 and 14 give
    4 feet 2 inches.  For all non-negative integers [f] and [i] with
    [i < 12] and [12 f + i] a safe integer (below 2^53),
    [parseFeetInches] of [formatFeetInches] of their decimal texts gives
    back the decimal texts of [f] and [i]. *)
Theorem feet_inches_round_trip (otherLiteral : string -> number)
    (fractionText : Qc -> string) :
  formatFeetInches otherLiteral fractionText "3" "14" =
    ("4' 2" ++ String dquote EmptyString)%string /\
  (forall f i : N,
      (12 * f + i < 2 ^ 53)%N ->
      formatFeetInches otherLiteral fractionText (decimal f) (decimal i) =
        formatted ((12 * f + i) / 12) ((12 * f + i) mod 12)) /\
  (forall f i : N,
      (i < 12)%N -> (12 * f + i < 2 ^ 53)%N ->
      parseFeetInches
        (formatFeetInches otherLiteral fractionText (decimal f) (decimal i)) =
      {| feet := decimal f; inches := decimal i |}).
Proof.
  assert (Hbound : forall n : N, (n < 2 ^ 53)%N -> (n < 10 ^ 21)%N).
  { intros n Hn. eapply N.lt_trans; [exact Hn|]. reflexivity. }
  split; [|split].
  - change "3"%string with (decimal 3). change "14"%string with (decimal 14).
    rewrite formatFeetInches_decimal by reflexivity. reflexivity.
  - intros f i Hsafe. apply formatFeetInches_decimal. now apply Hbound.
  - intros f i Hi Hsafe.
    rewrite formatFeetInches_decimal by now apply Hbound.
    replace ((12 * f + i) / 12)%N with f.
    + replace ((12 * f + i) mod 12)%N with i.
      * apply parseFeetInches_formatted.
      * rewrite N.add_comm, N.mul_comm, N.Div0.mod_add.
        symmetry. now apply N.mod_small.
    + rewrite N.add_comm, N.mul_comm, N.div_add by lia.
      rewrite N.div_small by exact Hi. reflexivity.
Qed.

Lemma feet_inches_round_trip_witness :
  formatFeetInches (fun _ => NaN) (fun _ => EmptyString)
    (decimal 5) (decimal 30) = formatted 7 6 /\
  parseFeetInches
    (formatFeetInches (fun _ => NaN) (fun _ => EmptyString)
       (decimal 7) (decimal 11)) =
  {| feet := decimal 7; inches := decimal 11 |}.
Proof.
  destruct (feet_inches_round_trip (fun _ => NaN) (fun _ => EmptyString))
    as (_ & Hformat & Hround).
  split.
  - apply (Hformat 5%N 30%N). reflexivity.
  - apply (Hround 7%N 11%N); reflexivity.
Defined.

(** ** More on the allocation of strokes *)

Lemma strokesForHole_nonfinite_total (x t : number) :
  isFinite t = false -> strokesForHole x t = num 0.
Proof.
  intros Ht. unfold strokesForHole.
  destruct (negb (isFinite x) || lt x (num 1) || gt x (num 18)); [reflexivity|].
  destruct t; try discriminate; reflexivity.
Qed.

Lemma holeIndexInRange_dec (x : number) :
  {holeIndexInRange x} + {~ holeIndexInRange x}.
Proof.
  destruct x as [| | |i]; try (right; intros []; fail).
  cbn. destruct (Qclt_le_dec i (Qc_of_Z 1)) as [H1|H1].
  - right. intros [H _]. exact (Qclt_not_le _ _ H1 H).
  - destruct (Qclt_le_dec (Qc_of_Z 18) i) as [H2|H2].
    + right. intros [_ H]. exact (Qclt_not_le _ _ H2 H).
    + left. exact (conj H1 H2).
Qed.

Lemma Qfloor_nonneg (q : Qc) : (Qc_of_Z 0 <= q)%Qc -> 0 <= Qfloor q.
Proof.
  intros H. rewrite <- (Qfloor_of_Z 0). apply Qfloor_resp_le. exact H.
Qed.

Lemma strokesForHole_count (holeStrokeIndex totalStrokes : number) :
  exists k : Z, 0 <= k /\ strokesForHole holeStrokeIndex totalStrokes = num k.
Proof.
  destruct (holeIndexInRange_dec holeStrokeIndex) as [Hin|Hout].
  2:{ exists 0. split; [lia|]. now apply strokesForHole_outside. }
  destruct holeStrokeIndex as [| | |i]; try contradiction.
  destruct totalStrokes as [| | |t];
    try (exists 0; split; [lia|]; now apply strokesForHole_nonfinite_total).
  destruct (Qclt_le_dec (Qc_of_Z (Qfloor t)) i) as [Hlt|Hle].
  - exists 0. split; [lia|]. now apply strokesForHole_not_reached.
  - eexists. split; [|now apply strokesForHole_reached].
    assert (0 <= Qfloor (this ((Qc_of_Z (Qfloor t) - i) / Qc_of_Z 18)%Qc));
      [|lia].
    apply Qfloor_nonneg. rewrite Z2Qc_inj_0. unfold Qcdiv.
    apply Qcmult_nonneg_nonneg.
    + apply (Qcplus_le_mono_r _ _ i). ring_simplify. exact Hle.
    + apply Qclt_le_weak, Qcinv_pos. rewrite <- Z2Qc_inj_0.
      now apply Qc_of_Z_lt.
Qed.

(** X1.  Whatever the two arguments are (fractions, negative numbers, NaN
    and the infinities included), [strokesForHole] returns a non-negative
    integer: a hole never receives a negative or fractional number of
    strokes, and never NaN. *)
Theorem strokesForHole_natural (holeStrokeIndex totalStrokes : number) :
  exists k : Z, 0 <= k /\ strokesForHole holeStrokeIndex totalStrokes = num k.
Proof. apply strokesForHole_count. Qed.

(** X2.  The allocation is fair and monotone.  For stroke indices
    [1 <= z <= z' <= 18] and whole totals [s <= s'] below 2^53, the hole of
    the lower index [z] receives at least as many strokes as the hole of
    index [z'] and at most one more, and raising the total never lowers the
    strokes of a hole. *)
Theorem strokesForHole_fair (z z' s s' : Z) :
  1 <= z -> z <= z' -> z' <= 18 -> s <= s' -> s' < 2 ^ 53 ->
  exists k k' m : Z,
    strokesForHole (num z) (num s) = num k /\
    strokesForHole (num z') (num s) = num k' /\
    strokesForHole (num z) (num s') = num m /\
    k' <= k <= k' + 1 /\ k <= m.
Proof.
  intros Hz Hzz Hz' Hs _.
  exists (strokesZ s z), (strokesZ s z'), (strokesZ s' z).
  rewrite !strokesForHole_int by lia.
  split; [reflexivity|]. split; [reflexivity|]. split; [reflexivity|].
  unfold strokesZ.
  repeat destruct (decide _); try lia; Z.div_mod_to_equations; lia.
Qed.

Lemma strokesForHole_fair_witness :
  exists k k' m : Z,
    strokesForHole (num 3) (num 20) = num k /\
    strokesForHole (num 11) (num 20) = num k' /\
    strokesForHole (num 3) (num 40) = num m /\
    k' <= k <= k' + 1 /\ k <= m.
Proof. apply (strokesForHole_fair 3 11 20 40); lia. Defined.

(** ** The strokes a table allocates over a whole card *)

Lemma sumNumbers_strokes (h : list number) (t : number) :
  exists K : Z,
    0 <= K /\ sumNumbers ((fun x => strokesForHole x t) <$> h) = num K.
Proof.
  induction h as [|x h (K & HK & IH)].
  - exists 0. split; [lia|reflexivity].
  - destruct (strokesForHole_count x t) as (k & Hk & E).
    exists (k + K). split; [lia|].
    rewrite fmap_cons, sumNumbers_cons, IH, E. apply add_num.
Qed.

Lemma filter_all_true {A} (p : A -> bool) (l : list A) :
  (forall x, In x l -> p x = true) -> List.filter p l = l.
Proof.
  induction l as [|x l IH]; intros H; [reflexivity|].
  cbn. rewrite (H x) by now left. f_equal. apply IH.
  intros y Hy. apply H. now right.
Qed.

Lemma CompleteRound_played (scores : list cell) (i : nat) :
  CompleteRound scores -> (i < HOLE_COUNT)%nat ->
  playedHole (scores !! i) = true.
Proof.
  intros [Hlen Hall] Hi.
  destruct (lookup_lt_is_Some_2 scores i) as [c Hc]; [lia|].
  rewrite Hc. cbn. apply playedCell_true.
  rewrite Forall_forall in Hall. apply Hall.
  eapply list_elem_of_lookup_2. exact Hc.
Qed.

Lemma numAt_seq (h : list number) : numAt h <$> seq 0 (length h) = h.
Proof.
  apply list_eq. intros i. rewrite list_lookup_fmap.
  destruct (decide (i < length h)%nat) as [Hi|Hi].
  - rewrite lookup_seq_lt by exact Hi.
    destruct (lookup_lt_is_Some_2 h i Hi) as [x Hx].
    cbn. unfold numAt. rewrite Hx. reflexivity.
  - rewrite lookup_seq_ge by lia. rewrite lookup_ge_None_2 by lia.
    reflexivity.
Qed.

Lemma allocatedStrokes_complete (scores : list cell) (h : list number)
    (t : number) :
  CompleteRound scores -> length h = HOLE_COUNT ->
  allocatedStrokes playedHole scores h t =
    sumNumbers ((fun x => strokesForHole x t) <$> h).
Proof.
  intros Hc Hh. unfold allocatedStrokes.
  rewrite filter_all_true.
  - rewrite <- Hh.
    rewrite <- (numAt_seq h) at 2. rewrite <- list_fmap_compose.
    reflexivity.
  - intros i Hi. apply in_seq in Hi. apply CompleteRound_played; [exact Hc|lia].
Qed.

Lemma netTotal_any_table (t : number) (qs : list Qc) (h : list number)
    (acc : Qc) :
  length qs = length h ->
  fold_left
    (fun net p =>
       add net (sub (cellAsNumber (fst p))
                    (strokesForHole (orNaN (snd p)) t)))
    (zip (Some <$> ((fun q => Some (Fin q)) <$> qs)) (Some <$> h))
    (Fin acc) =
  sub (Fin (acc + qsum qs)%Qc)
      (sumNumbers ((fun x => strokesForHole x t) <$> h)).
Proof.
  revert h acc. induction qs as [|q qs IH]; intros [|x h] acc Hlen;
    try discriminate.
  - cbn. f_equal. rewrite Z2Qc_inj_0. ring.
  - injection Hlen as Hlen. rewrite !fmap_cons.
    cbn [zip_with fold_left fst snd cellAsNumber orNaN].
    rewrite sumNumbers_cons.
    destruct (strokesForHole_count x t) as (k & _ & ->).
    destruct (sumNumbers_strokes h t) as (K & _ & HK).
    unfold num at 1. cbn [sub add]. rewrite IH by exact Hlen.
    rewrite HK. unfold num. cbn [sub add]. f_equal.
    unfold qsum. cbn [foldr]. ring.
Qed.

Lemma computeNetToPar_running_total
    (scores : list cell) (pars : list number) (hcps : option (list number))
    (totalStrokes : number) :
  CompleteRound scores -> length pars = HOLE_COUNT ->
  computeNetToPar scores (Some pars) hcps totalStrokes =
    Some (sub (computeNetRunningTotal scores hcps totalStrokes)
              (sumNumbers pars)).
Proof.
  intros Hc Hp. pose proof Hc as Hc'. apply isCompleteRound_true in Hc'.
  unfold computeNetToPar, computeNetRunningTotal. rewrite Hc'. cbn [negb].
  replace (validTable (Some pars)) with (Some pars)
    by (unfold validTable; rewrite Hp; reflexivity).
  destruct (validTable hcps) as [h|] eqn:Hv; [|reflexivity].
  assert (Hh : length h = HOLE_COUNT).
  { destruct (validTable_is_Some _ _ Hv) as (h' & -> & Hh').
    cbn in Hv. rewrite Hh' in Hv. cbn in Hv. now injection Hv as <-. }
  f_equal. f_equal.
  rewrite strokesUsed_fold.
  change (fold_left add
            (map (fun i => strokesForHole (numAt h i) totalStrokes)
               (List.filter (fun i => playedHole (scores !! i))
                  (seq 0 HOLE_COUNT))) (num 0))
    with (allocatedStrokes playedHole scores h totalStrokes).
  rewrite allocatedStrokes_complete by assumption.
  destruct (CompleteRound_finite scores Hc) as (qs & -> & Hqs).
  rewrite netTotal_per_hole by (rewrite ?length_fmap; congruence).
  change (num 0) with (Fin (Qc_of_Z 0)).
  rewrite netTotal_any_table by congruence.
  rewrite sum_finite. do 2 f_equal. rewrite Z2Qc_inj_0. ring.
Qed.

(** X3.  On a complete round of whole scores whose sum is below 2^52, with
    a par table of eighteen entries and a total that is not finite or whose
    floor is below 2^52 in magnitude, the net to-par is the running net
    total minus the sum of the pars, whatever the stroke-index table (valid,
    invalid or absent) is: the two computations of the page do not disagree
    at the end of such a round. *)
Theorem computeNetToPar_is_running_total_minus_par
    (scores : list cell) (pars : list number) (hcps : option (list number))
    (totalStrokes : number) :
  CompleteRound scores -> WholeCard (2 ^ 52) scores ->
  FloorBelow (2 ^ 52) totalStrokes -> length pars = HOLE_COUNT ->
  computeNetToPar scores (Some pars) hcps totalStrokes =
    Some (sub (computeNetRunningTotal scores hcps totalStrokes)
              (sumNumbers pars)).
Proof. intros Hc _ _ Hp. now apply computeNetToPar_running_total. Qed.

Lemma computeNetToPar_is_running_total_minus_par_witness :
  computeNetToPar allFours (Some parsAllFour) (Some identityTable) (num 18) =
    Some (sub (computeNetRunningTotal allFours (Some identityTable) (num 18))
              (sumNumbers parsAllFour)).
Proof.
  apply computeNetToPar_is_running_total_minus_par.
  - exact CompleteRound_allFours.
  - apply WholeCard_allFours. reflexivity.
  - cbn [FloorBelow num]. rewrite Qfloor_of_Z. split; reflexivity.
  - reflexivity.
Defined.

(** ** The running net total against the gross *)

Lemma strokesForHole_NoStrokes (x t : number) :
  NoStrokes t -> strokesForHole x t = num 0.
Proof.
  intros [H|(q & -> & H)].
  - now apply strokesForHole_nonfinite_total.
  - now apply strokesForHole_nonpositive.
Qed.

Lemma fold_add_strokes (F : nat -> number) (l : list nat) (acc : Z) :
  (forall i, exists k : Z, 0 <= k /\ F i = num k) -> 0 <= acc ->
  exists K : Z, 0 <= K /\ fold_left add (map F l) (num acc) = num K.
Proof.
  intros HF. revert acc. induction l as [|i l IH]; intros acc Hacc.
  - exists acc. auto.
  - cbn [map fold_left]. destruct (HF i) as (k & Hk & ->).
    rewrite add_num. apply IH. lia.
Qed.

Lemma fold_add_zero (F : nat -> number) (l : list nat) :
  (forall i, F i = num 0) -> fold_left add (map F l) (num 0) = num 0.
Proof.
  intros HF. induction l as [|i l IH]; [reflexivity|].
  cbn [map fold_left]. rewrite HF, add_num. exact IH.
Qed.



Lemma allocation_sum_permutation (h : list number) (t : Qc) :
  Permutation h identityTable -> 0 <= Qfloor t ->
  sumNumbers ((fun x => strokesForHole x (Fin t)) <$> h) = num (Qfloor t).
Proof.
  intros Hperm Ht.
  destruct (table_of_permutation h Hperm) as (zs & -> & Hzs & Hrange & Hlen).
  rewrite <- list_fmap_compose.
  rewrite (Forall_fmap_ext_1 _ (fun z => num (strokesZ (Qfloor t) z)) zs).
  - rewrite (list_fmap_compose (strokesZ (Qfloor t)) num), sumNumbers_num.
    f_equal.
    rewrite (zsum_Permutation _ (strokesZ (Qfloor t) <$> seqZ 1 18)).
    + now apply strokesZ_sum_18.
    + now apply fmap_Permutation.
  - eapply Forall_impl; [exact Hrange|]. intros z Hz. cbn.
    now apply strokesForHole_strokesZ.
Qed.

(** X5.  On a complete round, with a table that is a permutation of the
    indices 1 to 18 and a finite total that floors to [n] with
    [0 <= n < 2^53], the hole-by-hole allocation deducts exactly [n]
    strokes: the running net total is the gross total minus [n], the same
    number the fallback without a table gives. *)
Theorem computeNetRunningTotal_full_handicap_at_round_end
    (scores : list cell) (h : list number) (other : option (list number))
    (t : Qc) :
  CompleteRound scores -> Permutation h identityTable ->
  0 <= Qfloor t < 2 ^ 53 -> ~ ValidTable other ->
  computeNetRunningTotal scores (Some h) (Fin t) =
    sub (sum scores) (num (Qfloor t)) /\
  computeNetRunningTotal scores (Some h) (Fin t) =
    computeNetRunningTotal scores other (Fin t).
Proof.
  intros Hc Hperm [Ht _] Hother.
  assert (Hh : length h = HOLE_COUNT)
    by (rewrite (Permutation_length Hperm); reflexivity).
  assert (E : computeNetRunningTotal scores (Some h) (Fin t) =
              sub (sum scores) (num (Qfloor t))).
  { rewrite computeNetRunningTotal_with_table by exact Hh.
    rewrite allocatedStrokes_complete by assumption.
    now rewrite allocation_sum_permutation. }
  split; [exact E|]. rewrite E.
  unfold computeNetRunningTotal. rewrite (validTable_None other Hother).
  apply isCompleteRound_true in Hc. rewrite Hc. reflexivity.
Qed.

Lemma computeNetRunningTotal_full_handicap_at_round_end_witness :
  computeNetRunningTotal allFours (Some identityTable) (Fin (Qc_of_Z 23)) =
    computeNetRunningTotal allFours None (Fin (Qc_of_Z 23)).
Proof.
  refine (proj2 (computeNetRunningTotal_full_handicap_at_round_end
                   allFours identityTable None (Qc_of_Z 23) _ _ _ _)).
  - exact CompleteRound_allFours.
  - apply Permutation_refl.
  - rewrite Qfloor_of_Z. split; [lia|reflexivity].
  - exact not_ValidTable_None.
Defined.

(** ** End-of-round penalties add up *)

(** X7.  For a whole net below 2^52 in magnitude, deducting two
    non-negative whole penalties whose sum is below 2^52 one after the other
    gives the same net as deducting their sum in one call, as the page does
    with charity plus tree strokes. *)
Theorem applyCharityAtEnd_adds (n : Z) (scores : list cell) (c d : Z) :
  - 2 ^ 52 < n < 2 ^ 52 -> 0 <= c -> 0 <= d -> c + d < 2 ^ 52 ->
  applyCharityAtEnd (applyCharityAtEnd (num n) scores (num c)) scores (num d) =
    applyCharityAtEnd (num n) scores (add (num c) (num d)).
Proof.
  intros _ Hc Hd _. generalize (num n). intros net.
  rewrite add_num. unfold applyCharityAtEnd.
  rewrite !floor_num. cbn [isFinite num negb orb le].
  rewrite !Qcleb_of_Z.
  destruct (isCompleteRound (Some scores)).
  - destruct (Z.leb_spec c 0), (Z.leb_spec d 0), (Z.leb_spec (c + d) 0);
      try lia; try reflexivity.
    + replace (c + d) with d by lia. reflexivity.
    + replace (c + d) with c by lia. reflexivity.
    + destruct net; cbn; try reflexivity. f_equal.
      rewrite Z2Qc_inj_add. ring.
  - destruct (c <=? 0), (d <=? 0), (c + d <=? 0); reflexivity.
Qed.

Lemma applyCharityAtEnd_adds_witness :
  applyCharityAtEnd (applyCharityAtEnd (num 70) allFours (num 2))
    allFours (num 3) =
  applyCharityAtEnd (num 70) allFours (add (num 2) (num 3)).
Proof. apply applyCharityAtEnd_adds; lia. Defined.

(** ** Gross to-par of the holes played so far *)

Lemma toParSoFar_fold (scores : list cell) (p : list number)
    (l : list nat) (g q : number) (n : nat) :
  fold_left
    (fun '(g, q, n) i =>
       match scores !! i with
       | Some (Some v) =>
           if playedCell (Some v)
           then (add g v, add q (orZero (p !! i)), S n)
           else (g, q, n)
       | _ => (g, q, n)
       end) l (g, q, n) =
  let played := List.filter (fun i => playedHole (scores !! i)) l in
  (fold_left add ((fun i => cellAsNumber (scores !! i)) <$> played) g,
   fold_left add ((fun i => orZero (p !! i)) <$> played) q,
   (n + length played)%nat).
Proof.
  revert g q n. induction l as [|i l IH]; intros g q n.
  - cbn. now rewrite Nat.add_0_r.
  - cbn [fold_left List.filter].
    destruct (scores !! i) as [[v|]|] eqn:E; cbn [playedHole].
    + destruct (playedCell (Some v)) eqn:Ep; rewrite IH; cbv zeta;
        [|reflexivity].
      rewrite !fmap_cons. cbn [fold_left length]. unfold cell in *.
      rewrite E. cbn [cellAsNumber]. f_equal. lia.
    + cbn [playedCell]. apply IH.
    + apply IH.
Qed.

Lemma computeToParSoFar_value (scores : list cell) (p : list number) :
  length p = HOLE_COUNT ->
  computeToParSoFar scores (Some p) =
    if Nat.eqb (length (playedHoles scores)) 0 then None
    else Some (sub (sumNumbers
                      ((fun i => cellAsNumber (scores !! i))
                         <$> playedHoles scores))
                   (sumNumbers
                      ((fun i => orZero (p !! i)) <$> playedHoles scores))).
Proof.
  intros Hp. unfold computeToParSoFar.
  replace (validTable (Some p)) with (Some p)
    by (unfold validTable; rewrite Hp; reflexivity).
  rewrite toParSoFar_fold. cbv beta iota zeta.
  unfold sumNumbers, playedHoles. cbn [Nat.add]. reflexivity.
Qed.

Lemma playedHoles_nil (scores : list cell) :
  length (playedHoles scores) = 0%nat <->
  forall i, (i < HOLE_COUNT)%nat -> playedHole (scores !! i) = false.
Proof.
  unfold playedHoles. split.
  - intros H i Hi. apply length_zero_iff_nil in H.
    destruct (playedHole (scores !! i)) eqn:E; [|reflexivity].
    assert (Hin : In i (List.filter (fun i => playedHole (scores !! i))
                          (seq 0 HOLE_COUNT))).
    { apply filter_In. split; [apply in_seq; lia|exact E]. }
    rewrite H in Hin. destruct Hin.
  - intros H. apply length_zero_iff_nil.
    destruct (List.filter _ _) as [|i l] eqn:E; [reflexivity|].
    assert (Hin : In i (i :: l)) by now left.
    rewrite <- E in Hin. apply filter_In in Hin as [Hi Hp].
    apply in_seq in Hi. rewrite H in Hp by lia. discriminate.
Qed.

Lemma cells_seq (scores : list cell) :
  (fun i => cellAsNumber (scores !! i)) <$> seq 0 (length scores) =
  cellAsNumber ∘ Some <$> scores.
Proof.
  apply list_eq. intros i. rewrite !list_lookup_fmap.
  destruct (decide (i < length scores)%nat) as [Hi|Hi].
  - rewrite lookup_seq_lt by exact Hi.
    destruct (lookup_lt_is_Some_2 scores i Hi) as [x Hx].
    cbn. rewrite Hx. reflexivity.
  - rewrite lookup_seq_ge by lia. rewrite lookup_ge_None_2 by lia.
    reflexivity.
Qed.

Lemma sum_as_numbers (qs : list Qc) (acc : number) :
  fold_left add (cellAsNumber ∘ Some <$> ((fun q => Some (Fin q)) <$> qs)) acc =
  fold_left addCell ((fun q => Some (Fin q)) <$> qs) acc.
Proof.
  revert acc. induction qs as [|q qs IH]; intros acc; [reflexivity|].
  rewrite !fmap_cons. cbn [fold_left]. apply IH.
Qed.

Lemma pars_seq (p : list number) :
  (fun i => orZero (p !! i)) <$> seq 0 (length p) = p.
Proof.
  apply list_eq. intros i. rewrite list_lookup_fmap.
  destruct (decide (i < length p)%nat) as [Hi|Hi].
  - rewrite lookup_seq_lt by exact Hi.
    destruct (lookup_lt_is_Some_2 p i Hi) as [x Hx].
    cbn. rewrite Hx. reflexivity.
  - rewrite lookup_seq_ge by lia. rewrite lookup_ge_None_2 by lia.
    reflexivity.
Qed.

(** X6.  [computeToParSoFar] returns null exactly when there is no par
    table of eighteen entries or none of the first eighteen holes holds a
    finite non-negative score.  On a complete round it is the gross total
    minus the sum of the pars, which is what [computeNetToPar] gives for no
    handicap strokes. *)
Theorem computeToParSoFar_cases (scores : list cell)
    (pars : option (list number)) :
  (computeToParSoFar scores pars = None <->
   ~ ValidTable pars \/
   forall i, (i < HOLE_COUNT)%nat -> playedHole (scores !! i) = false) /\
  (forall p,
      CompleteRound scores -> pars = Some p -> length p = HOLE_COUNT ->
      computeToParSoFar scores pars = Some (sub (sum scores) (sumNumbers p)) /\
      computeToParSoFar scores pars = computeNetToPar scores pars None (num 0)).
Proof.
  split.
  - destruct (validTable pars) as [p|] eqn:Hv.
    + destruct (validTable_is_Some _ _ Hv) as (p' & -> & Hp).
      cbn in Hv. rewrite Hp in Hv. cbn in Hv. injection Hv as <-.
      rewrite computeToParSoFar_value by exact Hp.
      rewrite <- playedHoles_nil.
      destruct (Nat.eqb_spec (length (playedHoles scores)) 0) as [E|E].
      * split; [now right|reflexivity].
      * split; [discriminate|]. intros [H|H]; [|contradiction].
        exfalso. apply H. now exists p'.
    + unfold computeToParSoFar. rewrite Hv. split; [|reflexivity].
      intros _. left. intros Hval.
      apply validTable_Some in Hval as (l & Hl & _). congruence.
  - intros p Hc -> Hp.
    assert (E : computeToParSoFar scores (Some p) =
                Some (sub (sum scores) (sumNumbers p))).
    { rewrite computeToParSoFar_value by exact Hp.
      assert (Hall : playedHoles scores = seq 0 HOLE_COUNT).
      { apply filter_all_true. intros i Hi. apply in_seq in Hi.
        apply CompleteRound_played; [exact Hc|lia]. }
      rewrite Hall. cbn [length HOLE_COUNT Nat.eqb seq].
      change (0 :: 1 :: 2 :: 3 :: 4 :: 5 :: 6 :: 7 :: 8 :: 9 :: 10 :: 11 ::
              12 :: 13 :: 14 :: 15 :: 16 :: 17 :: [])%nat
        with (seq 0 HOLE_COUNT).
      replace HOLE_COUNT with (length scores) at 1 by apply Hc.
      rewrite cells_seq.
      replace HOLE_COUNT with (length p) by exact Hp. rewrite pars_seq.
      unfold sumNumbers at 1.
      destruct (CompleteRound_finite scores Hc) as (qs & -> & _).
      rewrite sum_as_numbers. reflexivity. }
    split; [exact E|]. rewrite E.
    rewrite computeNetToPar_without_table;
      [|exact Hc|exact Hp|exact not_ValidTable_None].
    rewrite floor_num, sub_0_r. reflexivity.
Qed.

Lemma computeToParSoFar_cases_witness :
  computeToParSoFar allFours (Some parsAllFour) =
    Some (sub (sum allFours) (sumNumbers parsAllFour)).
Proof.
  refine (proj1 (proj2 (computeToParSoFar_cases allFours (Some parsAllFour))
                   parsAllFour _ eq_refl eq_refl)).
  exact CompleteRound_allFours.
Defined.

(** ** The end of a round *)

Lemma computeNetRunningTotal_round_end
    (scores : list cell) (hcps : option (list number)) (t : Qc) :
  CompleteRound scores -> 0 <= Qfloor t ->
  (~ ValidTable hcps \/
   exists h, hcps = Some h /\ Permutation h identityTable) ->
  computeNetRunningTotal scores hcps (Fin t) =
    sub (sum scores) (num (Qfloor t)).
Proof.
  intros Hc Ht [Hno|(h & -> & Hperm)].
  - unfold computeNetRunningTotal. rewrite (validTable_None hcps Hno).
    apply isCompleteRound_true in Hc. rewrite Hc. reflexivity.
  - assert (Hh : length h = HOLE_COUNT)
      by (rewrite (Permutation_length Hperm); reflexivity).
    rewrite computeNetRunningTotal_with_table by exact Hh.
    rewrite allocatedStrokes_complete by assumption.
    now rewrite allocation_sum_permutation.
Qed.

Lemma CompleteRound_sum (scores : list cell) :
  CompleteRound scores -> exists g : Qc, sum scores = Fin g.
Proof.
  intros Hc. destruct (CompleteRound_finite scores Hc) as (qs & -> & _).
  eexists. apply sum_finite.
Qed.

(** X8.  A negative total is treated differently by the two paths.  On a
    complete round of whole scores whose sum is below 2^52, with a total
    that floors to [n] with [-2^52 < n < 0], the hole-by-hole path with a
    table of eighteen entries deducts nothing and returns the gross total,
    while the fallback without a table subtracts [n], that is, it adds [-n]
    strokes; the two results differ. *)
Theorem computeNetRunningTotal_negative_total
    (scores : list cell) (h : list number) (other : option (list number))
    (t : Qc) :
  CompleteRound scores -> WholeCard (2 ^ 52) scores ->
  length h = HOLE_COUNT -> ~ ValidTable other ->
  - 2 ^ 52 < Qfloor t < 0 ->
  computeNetRunningTotal scores (Some h) (Fin t) = sum scores /\
  computeNetRunningTotal scores other (Fin t) =
    add (sum scores) (num (- Qfloor t)) /\
  computeNetRunningTotal scores other (Fin t) <>
    computeNetRunningTotal scores (Some h) (Fin t).
Proof.
  intros Hc _ Hh Hother [_ Ht].
  assert (E1 : computeNetRunningTotal scores (Some h) (Fin t) = sum scores).
  { rewrite computeNetRunningTotal_with_table by exact Hh.
    unfold allocatedStrokes, sumNumbers.
    rewrite fold_add_zero; [apply sub_0_r|].
    intros i. apply strokesForHole_nonpositive. lia. }
  destruct (CompleteRound_sum scores Hc) as [g Hg].
  assert (E2 : computeNetRunningTotal scores other (Fin t) =
               add (sum scores) (num (- Qfloor t))).
  { unfold computeNetRunningTotal. rewrite (validTable_None other Hother).
    apply isCompleteRound_true in Hc. rewrite Hc. rewrite Hg.
    cbn [floor sub add num]. f_equal. rewrite Z2Qc_inj_opp. ring. }
  split; [exact E1|]. split; [exact E2|].
  rewrite E1, E2, Hg. cbn [add num]. intros [= E].
  assert (E' : Qc_of_Z (- Qfloor t) = Qc_of_Z 0).
  { rewrite Z2Qc_inj_0. apply (inj (Qcplus g)). rewrite E. ring. }
  apply Z2Qc_inj in E'. lia.
Qed.

Lemma computeNetRunningTotal_negative_total_witness :
  computeNetRunningTotal allFours None (Fin (Qc_of_Z (-3))) <>
    computeNetRunningTotal allFours (Some identityTable) (Fin (Qc_of_Z (-3))).
Proof.
  refine (proj2 (proj2 (computeNetRunningTotal_negative_total
                          allFours identityTable None (Qc_of_Z (-3)) _ _ _ _ _))).
  - exact CompleteRound_allFours.
  - apply WholeCard_allFours. reflexivity.
  - reflexivity.
  - exact not_ValidTable_None.
  - rewrite Qfloor_of_Z. split; reflexivity.
Defined.

(** ** Rows of the leaderboards *)

Lemma validTable_idem (a : option (list number)) :
  validTable (validTable a) = validTable a.
Proof.
  destruct a as [l|]; cbn; [|reflexivity].
  destruct (Nat.eqb_spec (length l) HOLE_COUNT) as [E|E]; [|reflexivity].
  cbn. now rewrite E.
Qed.

Lemma FallbackOrPermutation_validTable (hcps : option (list number)) :
  FallbackOrPermutation hcps -> FallbackOrPermutation (validTable hcps).
Proof.
  intros [Hno|(h & -> & Hperm)].
  - left. rewrite (validTable_None _ Hno). exact not_ValidTable_None.
  - right. exists h. split; [|exact Hperm]. cbn.
    now rewrite (Permutation_length Hperm).
Qed.

Lemma sub_sub_num (g : Qc) (x y : Z) :
  sub (sub (Fin g) (num x)) (num y) = sub (Fin g) (num (x + y)).
Proof.
  cbn [sub num neg add]. f_equal. rewrite Z2Qc_inj_add. ring.
Qed.

(** The net column at the end of a round, for whole strokes. *)
Lemma net_at_round_end (card : list cell) (hcps : option (list number))
    (s c : Z) :
  CompleteRound card -> FallbackOrPermutation hcps -> 0 <= s -> 0 <= c ->
  applyCharityAtEnd
    (computeNetRunningTotal card (validTable hcps) (num s)) card (num c) =
  sub (sum card) (num (s + c)).
Proof.
  intros Hc Hh Hs Hch.
  unfold num at 1.
  rewrite computeNetRunningTotal_round_end;
    [|exact Hc|rewrite Qfloor_of_Z; exact Hs
     |now apply FallbackOrPermutation_validTable].
  rewrite Qfloor_of_Z.
  destruct (CompleteRound_sum card Hc) as [g Hg]. rewrite Hg.
  unfold applyCharityAtEnd. rewrite floor_num.
  cbn [isFinite num negb orb le]. rewrite Qcleb_of_Z.
  apply isCompleteRound_true in Hc. rewrite Hc.
  destruct (Z.leb_spec c 0).
  - replace (s + c) with s by lia. reflexivity.
  - apply sub_sub_num.
Qed.

Lemma teeBonusForDay_cases (day : DayKey) (tee : option TeeKey) :
  exists b : Z, teeBonusForDay day tee = num b /\ 0 <= b <= 2 /\
    (day = day2 -> b = 0).
Proof.
  destruct day; [destruct tee as [[]|]|]; cbn;
    eexists; (split; [reflexivity|]); split; try lia; congruence.
Qed.

(** X9.  The net column of the day-1 leaderboard at the end of a round.
    For a player of an ordinary name with a complete card of whole scores
    whose sum is below 2^52, whole non-negative handicap [h] and whole
    charity and tree strokes with [c + t >= 0] and
    [h + 2 + c + t < 2^52], and a stroke-index table that is absent,
    invalid or a permutation of 1 to 18, the row shows the gross total of
    the card and the net [gross - (h + b + c + t)], where the tee bonus [b]
    is 0, 1 or 2. *)
Theorem day1Row_net_at_round_end (st : PageState) (p : string)
    (card : list cell) (h c t : Z) :
  OrdinaryName p ->
  scoresByDay_day1 st !! p = Some card -> CompleteRound card ->
  WholeCard (2 ^ 52) card ->
  FallbackOrPermutation (day1Hcps st) ->
  orZero (handicaps st !! p) = num h -> 0 <= h ->
  orZero (charityStrokes st !! p) = num c ->
  orZero (treeStrokes st !! p) = num t -> 0 <= c + t ->
  h + 2 + (c + t) < 2 ^ 52 ->
  exists b : Z,
    teeBonusForDay day1 (teeChoicesByDay_day1 st !! p) = num b /\
    0 <= b <= 2 /\
    gross (day1Row st p) = sum card /\
    net (day1Row st p) = sub (sum card) (num (h + b + (c + t))).
Proof.
  intros _ Hcard Hc _ Hh Eh Hh0 Ec Et Hct _.
  destruct (teeBonusForDay_cases day1 (teeChoicesByDay_day1 st !! p))
    as (b & Eb & Hb & _).
  exists b. split; [exact Eb|]. split; [exact Hb|].
  cbn [gross net day1Row]. rewrite Hcard, Eh, Ec, Et, Eb. cbn [from_option id].
  split; [reflexivity|]. rewrite !add_num.
  apply net_at_round_end; try assumption; lia.
Qed.

Lemma day1Row_net_at_round_end_witness :
  exists b : Z,
    teeBonusForDay day1 (teeChoicesByDay_day1 finishedState !! "Al"%string)
      = num b /\
    0 <= b <= 2 /\
    gross (day1Row finishedState "Al") = sum allFours /\
    net (day1Row finishedState "Al") =
      sub (sum allFours) (num (12 + b + (1 + 0))).
Proof.
  apply day1Row_net_at_round_end; try reflexivity; try lia.
  - exact CompleteRound_allFours.
  - apply WholeCard_allFours. reflexivity.
  - right. exists identityTable. split; [reflexivity|apply Permutation_refl].
Defined.

(** X10.  The net column of the day-2 leaderboard at the end of a round.
    Under the same conditions, with the whole day-2 adjustment [a],
    [h + a >= 0] and [h + a + c + t < 2^52], the net is
    [gross - (h + a + c + t)]: the adjustment counts, the tee choice does
    not. *)
Theorem day2Row_net_at_round_end (st : PageState) (p : string)
    (card : list cell) (h a c t : Z) :
  OrdinaryName p ->
  scoresByDay_day2 st !! p = Some card -> CompleteRound card ->
  WholeCard (2 ^ 52) card ->
  FallbackOrPermutation (day2Hcps st) ->
  orZero (handicaps st !! p) = num h ->
  orZero (day2Adjustments st !! p) = num a -> 0 <= h + a ->
  orZero (charityStrokes st !! p) = num c ->
  orZero (treeStrokes st !! p) = num t -> 0 <= c + t ->
  h + a + (c + t) < 2 ^ 52 ->
  gross (day2Row st p) = sum card /\
  net (day2Row st p) = sub (sum card) (num (h + a + (c + t))).
Proof.
  intros _ Hcard Hc _ Hh Eh Ea Hha Ec Et Hct _.
  cbn [gross net day2Row teeBonusForDay].
  rewrite Hcard, Eh, Ea, Ec, Et. cbn [from_option id].
  split; [reflexivity|]. rewrite !add_num, Z.add_0_r.
  apply net_at_round_end; assumption.
Qed.

Lemma day2Row_net_at_round_end_witness :
  gross (day2Row finishedState "Al") = sum allFours /\
  net (day2Row finishedState "Al") =
    sub (sum allFours) (num (12 + -2 + (1 + 0))).
Proof.
  apply day2Row_net_at_round_end; try reflexivity; try lia.
  - exact CompleteRound_allFours.
  - apply WholeCard_allFours. reflexivity.
  - left. exact not_ValidTable_None.
Defined.

Lemma playedHoles_emptyCard : playedHoles emptyCard = [].
Proof. reflexivity. Qed.

Lemma emptyCard_totals (hcps pars : option (list number))
    (s : number) :
  sum emptyCard = num 0 /\
  computeNetRunningTotal emptyCard hcps s = num 0 /\
  computeToParSoFar emptyCard pars = None.
Proof.
  split; [reflexivity|]. split.
  - destruct (validTable hcps) as [h|] eqn:E.
    + destruct (validTable_is_Some _ _ E) as (h' & -> & Hh).
      rewrite computeNetRunningTotal_with_table by exact Hh.
      change (allocatedStrokes playedHole emptyCard h' s) with (num 0).
      apply sub_0_r.
    + unfold computeNetRunningTotal. rewrite E. reflexivity.
  - destruct (validTable pars) as [q|] eqn:E.
    + destruct (validTable_is_Some _ _ E) as (q' & -> & Hq).
      rewrite computeToParSoFar_value by exact Hq. reflexivity.
    + unfold computeToParSoFar. now rewrite E.
Qed.

Lemma applyCharityAtEnd_incomplete (net : number) (scores : list cell)
    (charity : number) :
  isCompleteRound (Some scores) = false ->
  applyCharityAtEnd net scores charity = net.
Proof.
  intros H. unfold applyCharityAtEnd. rewrite H.
  now destruct (negb (isFinite (floor charity)) || le (floor charity) (num 0)).
Qed.

Lemma row_without_scores (card : option (list cell))
    (hcps pars : option (list number)) (s c : number) :
  NoScores card ->
  sum (default [] card) = num 0 /\
  applyCharityAtEnd
    (computeNetRunningTotal (default emptyCard card) hcps s)
    (default [] card) c = num 0 /\
  computeToParSoFar (default emptyCard card) pars = None.
Proof.
  destruct (emptyCard_totals hcps pars s) as (Hs & Hn & Hp).
  intros [->| ->]; cbn [from_option id]; (split; [reflexivity|]);
    (split; [|exact Hp]); rewrite Hn;
    now apply applyCharityAtEnd_incomplete.
Qed.




(** ** Trimming *)

Lemma headFails_dropSpaces (s : list ascii) : headFails isSpace (dropSpaces s).
Proof.
  induction s as [|c s IH]; cbn; [exact I|].
  destruct (isSpace c) eqn:E; [exact IH|exact E].
Qed.

Lemma dropSpaces_suffix (s : list ascii) :
  exists pre, s = pre ++ dropSpaces s.
Proof.
  induction s as [|c s (pre & IH)]; [now exists []|]. cbn.
  destruct (isSpace c).
  - exists (c :: pre). cbn. now f_equal.
  - now exists [].
Qed.

Lemma headFails_app (p : ascii -> bool) (s t : list ascii) :
  s <> [] -> headFails p (s ++ t) -> headFails p s.
Proof. destruct s; [congruence|auto]. Qed.

Lemma headFails_rev_dropSpaces (s : list ascii) :
  headFails isSpace (rev s) -> headFails isSpace (rev (dropSpaces s)).
Proof.
  intros H. destruct (dropSpaces s) as [|c r] eqn:E; [exact I|].
  destruct (dropSpaces_suffix s) as (pre & Hs). rewrite E in Hs.
  rewrite Hs, rev_app_distr in H.
  apply headFails_app in H; [exact H|].
  cbn. destruct (rev r); discriminate.
Qed.

Lemma trimChars_trimChars (s : list ascii) :
  trimChars (trimChars s) = trimChars s.
Proof.
  apply trimChars_id; unfold trimChars.
  - apply headFails_rev_dropSpaces. rewrite rev_involutive.
    apply headFails_dropSpaces.
  - rewrite rev_involutive. apply headFails_dropSpaces.
Qed.

Lemma trim_trim (s : string) : trim (trim s) = trim s.
Proof.
  unfold trim. rewrite list_ascii_of_string_of_list_ascii.
  now rewrite trimChars_trimChars.
Qed.

Lemma eqb_empty (s : string) :
  String.eqb s EmptyString = true <-> s = EmptyString.
Proof. apply String.eqb_eq. Qed.

(** ** The roster without duplicates *)

Section Names.

Variable toLowerCase : string -> string.

Lemma uniqInv_init : UniqInv toLowerCase ([], ∅).
Proof.
  split; [constructor|]. intros k. cbn. split; intros H.
  - now apply elem_of_empty in H.
  - now apply elem_of_nil in H.
Qed.

Lemma uniqStep_cases (out : list string) (seen : gset string) (v : string) :
  UniqInv toLowerCase (out, seen) ->
  ((uniqStep toLowerCase) (out, seen) v = (out, seen) /\
   (trim v = EmptyString \/ toLowerCase (trim v) ∈ toLowerCase <$> out)) \/
  ((uniqStep toLowerCase) (out, seen) v = (out ++ [trim v], {[ toLowerCase (trim v) ]} ∪ seen) /\
   trim v <> EmptyString /\ toLowerCase (trim v) ∉ toLowerCase <$> out).
Proof.
  intros [_ Hseen]. cbn in Hseen. unfold uniqStep.
  destruct (String.eqb (trim v) EmptyString) eqn:E.
  - left. split; [reflexivity|]. left. now apply eqb_empty.
  - apply String.eqb_neq in E.
    destruct (decide (toLowerCase (trim v) ∈ seen)) as [Hin|Hout].
    + left. split; [reflexivity|]. right. now apply Hseen.
    + right. split; [reflexivity|]. split; [exact E|].
      intros H. apply Hout. now apply Hseen.
Qed.

Lemma uniqStep_inv (acc : list string * gset string) (v : string) :
  UniqInv toLowerCase acc -> UniqInv toLowerCase ((uniqStep toLowerCase) acc v).
Proof.
  destruct acc as [out seen]. intros Hinv.
  destruct (uniqStep_cases out seen v Hinv) as [[-> _]|(-> & _ & Hnew)];
    [exact Hinv|].
  destruct Hinv as [Hnd Hseen]. cbn [fst snd] in *. split; cbn [fst snd].
  - rewrite fmap_app. apply NoDup_app. split; [exact Hnd|].
    split; [|apply NoDup_singleton].
    intros k Hk Hk'. apply list_elem_of_singleton in Hk'. now subst.
  - intros k. rewrite fmap_app, elem_of_app, elem_of_union, elem_of_singleton.
    rewrite list_fmap_singleton, list_elem_of_singleton, Hseen. tauto.
Qed.

Lemma uniqLoop_inv (values : list string) (acc : list string * gset string) :
  UniqInv toLowerCase acc -> UniqInv toLowerCase (fold_left (uniqStep toLowerCase) values acc).
Proof.
  revert acc. induction values as [|v values IH]; intros acc H; [exact H|].
  cbn [fold_left]. apply IH. now apply uniqStep_inv.
Qed.

(** The loop only appends: trimmed, non-empty values, in their order. *)
Lemma uniqLoop_sublist (values : list string) (acc : list string * gset string) :
  UniqInv toLowerCase acc ->
  exists more,
    fst (fold_left (uniqStep toLowerCase) values acc) = fst acc ++ more /\
    sublist more (trim <$> values) /\
    Forall (fun k => k <> EmptyString) more.
Proof.
  revert acc. induction values as [|v values IH]; intros [out seen] Hinv.
  - exists []. cbn. rewrite app_nil_r. repeat split; constructor.
  - cbn [fold_left]. pose proof (uniqStep_inv _ v Hinv) as Hinv'.
    destruct (uniqStep_cases out seen v Hinv) as [[E _]|(E & Hne & _)];
      rewrite E in *; destruct (IH _ Hinv') as (more & Hm & Hsub & Hall).
    + exists more. split; [exact Hm|]. split; [|exact Hall].
      rewrite fmap_cons. now apply sublist_cons.
    + exists (trim v :: more). cbn [fst] in *. split.
      * rewrite Hm, <- app_assoc. reflexivity.
      * split; [|now constructor]. rewrite fmap_cons. now apply sublist_skip.
Qed.

(** Once a key is in, it stays in. *)
Lemma uniqLoop_keeps (values : list string) (acc : list string * gset string)
    (k : string) :
  UniqInv toLowerCase acc -> k ∈ fst acc -> k ∈ fst (fold_left (uniqStep toLowerCase) values acc).
Proof.
  intros Hinv Hk. destruct (uniqLoop_sublist values acc Hinv) as (more & -> & _).
  apply elem_of_app. now left.
Qed.

Lemma uniqLoop_complete (values : list string) (acc : list string * gset string)
    (v : string) :
  UniqInv toLowerCase acc -> v ∈ values -> trim v <> EmptyString ->
  toLowerCase (trim v) ∈ toLowerCase <$> fst (fold_left (uniqStep toLowerCase) values acc).
Proof.
  revert acc. induction values as [|w values IH]; intros [out seen] Hinv Hv Hne.
  - now apply elem_of_nil in Hv.
  - cbn [fold_left]. pose proof (uniqStep_inv _ w Hinv) as Hinv'.
    apply elem_of_cons in Hv as [->|Hv]; [|now apply IH].
    destruct (uniqStep_cases out seen w Hinv) as [[E Hc]|(E & _ & _)];
      rewrite E in *.
    + destruct Hc as [Hc|Hc]; [contradiction|].
      apply list_elem_of_fmap in Hc as (k & Hk & Hin).
      apply list_elem_of_fmap. exists k. split; [exact Hk|].
      now apply uniqLoop_keeps.
    + apply list_elem_of_fmap. exists (trim w). split; [reflexivity|].
      apply uniqLoop_keeps; [exact Hinv'|].
      cbn. apply elem_of_app. right. constructor.
Qed.

(** The first spelling of a name is the one that is kept. *)
Lemma uniqLoop_first (before after : list string) (v : string)
    (acc : list string * gset string) :
  UniqInv toLowerCase acc ->
  trim v <> EmptyString ->
  toLowerCase (trim v) ∉ toLowerCase <$> fst acc ->
  (forall w, w ∈ before -> trim w <> EmptyString ->
             toLowerCase (trim w) <> toLowerCase (trim v)) ->
  trim v ∈ fst (fold_left (uniqStep toLowerCase) (before ++ v :: after) acc).
Proof.
  revert acc. induction before as [|w before IH]; intros [out seen] Hinv Hne Hnew Hb.
  - cbn [app fold_left]. pose proof (uniqStep_inv _ v Hinv) as Hinv'.
    destruct (uniqStep_cases out seen v Hinv) as [[_ [Hc|Hc]]|(E & _ & _)];
      [contradiction|contradiction|].
    rewrite E in *. apply uniqLoop_keeps; [exact Hinv'|].
    cbn. apply elem_of_app. right. constructor.
  - cbn [app fold_left]. pose proof (uniqStep_inv _ w Hinv) as Hinv'.
    apply IH; [exact Hinv'|exact Hne| |].
    + destruct (uniqStep_cases out seen w Hinv) as [[E _]|(E & Hw & _)];
        rewrite E; [exact Hnew|].
      cbn [fst]. rewrite fmap_app. cbn. intros H.
      apply elem_of_app in H as [H|H]; [contradiction|].
      apply list_elem_of_singleton in H. symmetry in H. revert H.
      apply Hb; [constructor|exact Hw].
    + intros w' Hw'. apply Hb. now constructor.
Qed.

Lemma uniqLoop_clean (l : list string) (out : list string) (seen : gset string) :
  UniqInv toLowerCase (out, seen) ->
  Forall CleanName l ->
  NoDup (toLowerCase <$> out ++ l) ->
  fst (fold_left (uniqStep toLowerCase) l (out, seen)) = out ++ l.
Proof.
  revert out seen. induction l as [|k l IH]; intros out seen Hinv Hclean Hnd.
  - cbn. now rewrite app_nil_r.
  - cbn [fold_left]. apply Forall_cons_1 in Hclean as [[Hk Hne] Hclean].
    pose proof (uniqStep_inv _ k Hinv) as Hinv'.
    assert (Hnew : toLowerCase k ∉ toLowerCase <$> out).
    { rewrite fmap_app in Hnd. apply NoDup_app in Hnd as (_ & Hd & _).
      intros H. apply (Hd _ H). rewrite fmap_cons. constructor. }
    destruct (uniqStep_cases out seen k Hinv) as [[_ Hc]|(E & _ & _)].
    + rewrite Hk in Hc. destruct Hc; contradiction.
    + rewrite E in *. rewrite Hk in *.
      rewrite IH; [now rewrite <- app_assoc|exact Hinv'|exact Hclean|].
      now rewrite <- app_assoc.
Qed.

Lemma uniqPreserveOrder_shape (values : list string) :
  NoDup (toLowerCase <$> uniqPreserveOrder toLowerCase values) /\
  sublist (uniqPreserveOrder toLowerCase values) (trim <$> values) /\
  Forall CleanName (uniqPreserveOrder toLowerCase values).
Proof.
  unfold uniqPreserveOrder.
  pose proof (uniqLoop_inv values _ uniqInv_init) as [Hnd _].
  destruct (uniqLoop_sublist values _ uniqInv_init) as (more & E & Hsub & Hall).
  cbn [fst app] in E. split; [exact Hnd|]. rewrite E. split; [exact Hsub|].
  apply Forall_forall. intros k Hk. split.
  - apply (fun H => elem_of_sublist _ _ _ H Hsub) in Hk.
    apply list_elem_of_fmap in Hk as (v & -> & _). apply trim_trim.
  - rewrite Forall_forall in Hall. now apply Hall.
Qed.

(** X13.  The result of [uniqPreserveOrder] holds no two names that agree
    up to case; it is a subsequence of the trimmed input, so the order of
    first appearance is kept; and each of its names is trimmed and not
    empty. *)
Theorem uniqPreserveOrder_distinct (values : list string) :
  NoDup (toLowerCase <$> uniqPreserveOrder toLowerCase values) /\
  sublist (uniqPreserveOrder toLowerCase values) (trim <$> values) /\
  Forall CleanName (uniqPreserveOrder toLowerCase values).
Proof. apply uniqPreserveOrder_shape. Qed.

(** X14.  [uniqPreserveOrder] loses nobody: a value that is not blank has
    its lower-case key among the keys of the result, and when no earlier
    value has the same key its own trimmed spelling is the one kept. *)
Theorem uniqPreserveOrder_complete (before after : list string) (v : string) :
  trim v <> EmptyString ->
  toLowerCase (trim v) ∈
    toLowerCase <$> uniqPreserveOrder toLowerCase (before ++ v :: after) /\
  ((forall w, w ∈ before -> trim w <> EmptyString ->
              toLowerCase (trim w) <> toLowerCase (trim v)) ->
   trim v ∈ uniqPreserveOrder toLowerCase (before ++ v :: after)).
Proof.
  intros Hne. unfold uniqPreserveOrder. split.
  - apply uniqLoop_complete; [exact uniqInv_init| |exact Hne].
    apply elem_of_app. right. constructor.
  - intros Hfirst. apply uniqLoop_first;
      [exact uniqInv_init|exact Hne| |exact Hfirst].
    cbn. apply not_elem_of_nil.
Qed.

(** X15.  [uniqPreserveOrder] is idempotent, and it returns unchanged a
    list of trimmed, non-empty names that are distinct up to case. *)
Theorem uniqPreserveOrder_idempotent (values : list string) :
  uniqPreserveOrder toLowerCase (uniqPreserveOrder toLowerCase values) =
  uniqPreserveOrder toLowerCase values /\
  (Forall CleanName values -> NoDup (toLowerCase <$> values) ->
   uniqPreserveOrder toLowerCase values = values).
Proof.
  assert (Hfix : forall l, Forall CleanName l -> NoDup (toLowerCase <$> l) ->
                           uniqPreserveOrder toLowerCase l = l).
  { intros l Hc Hnd. unfold uniqPreserveOrder.
    now rewrite uniqLoop_clean by (try exact uniqInv_init; assumption). }
  split; [|apply Hfix].
  destruct (uniqPreserveOrder_shape values) as (Hnd & _ & Hc).
  now apply Hfix.
Qed.

End Names.

Lemma uniqPreserveOrder_complete_witness :
  trim " Ann" ∈
    uniqPreserveOrder lowerAscii (["Bob"%string] ++ " Ann"%string :: ["ann"%string]).
Proof.
  refine (proj2 (uniqPreserveOrder_complete lowerAscii
                   ["Bob"%string] ["ann"%string] " Ann"%string _) _).
  - vm_compute. discriminate.
  - intros w Hw _. apply list_elem_of_singleton in Hw. subst w.
    vm_compute. discriminate.
Defined.

(** ** Maps built player by player *)

Lemma fold_insert_lookup {V} (f : string -> V) (players : list string)
    (p : string) :
  fold_left (fun next q => <[q := f q]> next) players (∅ : gmap string V) !! p =
    if decide (p ∈ players) then Some (f p) else None.
Proof.
  induction players as [|q players IH] using rev_ind.
  - cbn. rewrite lookup_empty. rewrite decide_False; [reflexivity|].
    apply not_elem_of_nil.
  - rewrite fold_left_app. cbn [fold_left].
    destruct (decide (q = p)) as [->|Hne].
    + rewrite lookup_insert_eq. rewrite decide_True; [reflexivity|].
      apply elem_of_app. right. constructor.
    + rewrite lookup_insert_ne by exact Hne. rewrite IH.
      destruct (decide (p ∈ players)) as [H|H].
      * rewrite decide_True; [reflexivity|]. apply elem_of_app. now left.
      * rewrite decide_False; [reflexivity|]. intros H'.
        apply elem_of_app in H' as [H'|H']; [contradiction|].
        apply list_elem_of_singleton in H'. congruence.
Qed.

Lemma coerceNumberMap_lookup players input d (p : string) :
  coerceNumberMap players input d !! p =
    if decide (p ∈ players)
    then Some match input ≫= (fun table => table !! p) with
              | Some (Scalar (VNumber n)) => if isFinite n then n else d
              | _ => d
              end
    else None.
Proof.
  unfold coerceNumberMap.
  exact (fold_insert_lookup
           (fun q => match input ≫= (fun table => table !! q) with
                     | Some (Scalar (VNumber n)) => if isFinite n then n else d
                     | _ => d
                     end) players p).
Qed.

Lemma coerceTeeMap_lookup players input d (p : string) :
  coerceTeeMap players input d !! p =
    if decide (p ∈ players)
    then Some match input ≫= (fun table => table !! p) with
              | Some (Scalar s) => default d (teeOfValue s)
              | _ => d
              end
    else None.
Proof.
  unfold coerceTeeMap.
  exact (fold_insert_lookup
           (fun q => match input ≫= (fun table => table !! q) with
                     | Some (Scalar s) => default d (teeOfValue s)
                     | _ => d
                     end) players p).
Qed.

(** X16.  Under every ordinary name (one that is not a property name of
    [Object.prototype]), [coerceNumberMap] has an entry exactly when the
    name is on the roster: the stored number when it is a finite number
    (negative and fractional values included), the default otherwise; with
    a finite default the entry is finite. *)
Theorem coerceNumberMap_entries players input (d : number) (p : string) :
  OrdinaryName p ->
  (p ∉ players -> coerceNumberMap players input d !! p = None) /\
  (p ∈ players ->
   exists n,
     coerceNumberMap players input d !! p = Some n /\
     (forall table q,
         input = Some table -> table !! p = Some (Scalar (VNumber (Fin q))) ->
         n = Fin q) /\
     ((forall table q,
          input = Some table ->
          table !! p <> Some (Scalar (VNumber (Fin q)))) ->
      n = d) /\
     (isFinite d = true -> isFinite n = true)).
Proof.
  intros _. rewrite coerceNumberMap_lookup. split; intros Hp.
  - now rewrite decide_False.
  - rewrite decide_True by exact Hp. eexists. split; [reflexivity|].
    split; [|split].
    + intros table q -> Hq. cbn [mbind option_bind]. now rewrite Hq.
    + intros Hno. destruct input as [table|]; [|reflexivity].
      cbn [mbind option_bind].
      destruct (table !! p) as [[items|[| | |[| | |q]| |]]|] eqn:E;
        try reflexivity.
      exfalso. exact (Hno table q eq_refl E).
    + intros Hd.
      destruct (input ≫= _) as [[items|[| | |m| |]]|]; try exact Hd.
      destruct (isFinite m) eqn:E; [exact E|exact Hd].
Qed.

Lemma coerceNumberMap_entries_witness :
  exists n,
    coerceNumberMap ["Ann"%string]
      (Some {[ "Ann"%string := Scalar (VNumber (num (-3))) ]}) (num 0)
      !! "Ann"%string = Some n /\ n = num (-3).
Proof.
  destruct (proj2 (coerceNumberMap_entries ["Ann"%string]
                     (Some {[ "Ann"%string := Scalar (VNumber (num (-3))) ]})
                     (num 0) "Ann"%string eq_refl))
    as (n & Hn & Hkeep & _).
  - constructor.
  - exists n. split; [exact Hn|].
    exact (Hkeep _ (Qc_of_Z (-3)) eq_refl eq_refl).
Defined.

(** X17.  Under every ordinary name (one that is not a property name of
    [Object.prototype]), [coerceTeeMap] has an entry exactly when the name
    is on the roster: the stored tee when it is one of the five tee names,
    the default otherwise.  With the default [combo], a day-1 tee bonus
    other than 0 arises only from a stored [three] or [four]. *)
Theorem coerceTeeMap_entries players input (d : TeeKey) (p : string) :
  OrdinaryName p ->
  (p ∉ players -> coerceTeeMap players input d !! p = None) /\
  (p ∈ players ->
   exists tee,
     coerceTeeMap players input d !! p = Some tee /\
     (forall table v k,
         input = Some table -> table !! p = Some (Scalar v) ->
         teeOfValue v = Some k -> tee = k) /\
     ((forall table v,
          input = Some table -> table !! p = Some (Scalar v) ->
          teeOfValue v = None) ->
      tee = d) /\
     (d = combo ->
      teeBonusForDay day1 (Some tee) <> num 0 ->
      exists table,
        input = Some table /\
        (table !! p = Some (Scalar (VString "three")) \/
         table !! p = Some (Scalar (VString "four"))))).
Proof.
  intros _. rewrite coerceTeeMap_lookup. split; intros Hp.
  - now rewrite decide_False.
  - rewrite decide_True by exact Hp. eexists. split; [reflexivity|].
    split; [|split].
    + intros table v k -> Hv Hk. cbn [mbind option_bind].
      now rewrite Hv, Hk.
    + intros Hno. destruct input as [table|]; [|reflexivity].
      cbn [mbind option_bind].
      destruct (table !! p) as [[items|v]|] eqn:E; try reflexivity.
      now rewrite (Hno table v eq_refl E).
    + intros -> Hbonus. destruct input as [table|];
        [|exfalso; now apply Hbonus].
      exists table. split; [reflexivity|]. cbn [mbind option_bind] in Hbonus.
      destruct (table !! p) as [[items|v]|] eqn:E;
        try (exfalso; now apply Hbonus).
      destruct v as [| | | |s|]; try (exfalso; now apply Hbonus).
      cbn [teeOfValue] in Hbonus.
      destruct (String.eqb_spec s "three") as [->|_]; [now left|].
      destruct (String.eqb_spec s "four") as [->|_]; [now right|].
      exfalso. apply Hbonus.
      repeat (destruct (String.eqb _ _); try reflexivity).
Qed.

Lemma coerceTeeMap_entries_witness :
  exists tee,
    coerceTeeMap ["Ann"%string]
      (Some {[ "Ann"%string := Scalar (VString "four") ]}) combo
      !! "Ann"%string = Some tee /\ tee = four.
Proof.
  destruct (proj2 (coerceTeeMap_entries ["Ann"%string]
                     (Some {[ "Ann"%string := Scalar (VString "four") ]})
                     combo "Ann"%string eq_refl))
    as (tee & Htee & Hkeep & _).
  - constructor.
  - exists tee. split; [exact Htee|].
    exact (Hkeep _ (VString "four") four eq_refl eq_refl eq_refl).
Defined.

(** ** Writing a table and reading it back *)

Lemma coerceCell_storedCell (c : cell) :
  FiniteOrNull c -> coerceCell (Some (storedCell c)) = c.
Proof. intros [->|(q & ->)]; reflexivity. Qed.

Lemma coerceRow_storedRow (row : list cell) :
  length row = HOLE_COUNT -> Forall FiniteOrNull row ->
  coerceRow (Some (storedRow row)) = row.
Proof.
  intros Hlen Hall. unfold coerceRow, storedRow.
  apply list_eq. intros i. rewrite list_lookup_fmap.
  destruct (decide (i < HOLE_COUNT)%nat) as [Hi|Hi].
  - rewrite lookup_seq_lt by exact Hi.
    cbn [fmap option_fmap option_map Nat.add].
    rewrite list_lookup_fmap.
    destruct (lookup_lt_is_Some_2 row i) as [c Hc]; [now rewrite Hlen|].
    rewrite Hc. cbn [fmap option_fmap option_map]. f_equal.
    apply coerceCell_storedCell.
    rewrite Forall_forall in Hall. apply Hall.
    eapply list_elem_of_lookup_2. exact Hc.
  - rewrite lookup_seq_ge by lia. rewrite lookup_ge_None_2 by lia.
    reflexivity.
Qed.

Lemma coerceScoreTable_TableOf players input :
  TableOf players (coerceScoreTable players input).
Proof.
  intros p. rewrite coerceScoreTable_lookup. split; intros Hp.
  - rewrite decide_True by exact Hp. eexists. split; [reflexivity|].
    split; [apply coerceRow_length|apply coerceRow_FiniteOrNull].
  - now rewrite decide_False.
Qed.

(** X18.  Writing a table of the page and reading it back through
    [coerceScoreTable] with the same roster gives the same table; in
    particular reading is idempotent. *)
Theorem coerceScoreTable_reads_back players (table : gmap string (list cell)) :
  TableOf players table ->
  coerceScoreTable players (Some (storedRow <$> table)) = table.
Proof.
  intros Ht. apply map_eq. intros p. rewrite coerceScoreTable_lookup.
  destruct (Ht p) as [Hin Hout].
  destruct (decide (p ∈ players)) as [Hp|Hp].
  - destruct (Hin Hp) as (row & Hrow & Hlen & Hall). rewrite Hrow.
    cbn [mbind option_bind]. rewrite lookup_fmap, Hrow.
    cbn [fmap option_fmap option_map]. f_equal.
    now apply coerceRow_storedRow.
  - now rewrite Hout.
Qed.

Lemma coerceScoreTable_reads_back_witness :
  coerceScoreTable ["Ann"%string]
    (Some (storedRow <$> coerceScoreTable ["Ann"%string] (Some storedNegative)))
  = coerceScoreTable ["Ann"%string] (Some storedNegative).
Proof.
  apply coerceScoreTable_reads_back. apply coerceScoreTable_TableOf.
Defined.

(** ** The two formats of the stored scores *)

Lemma coerceScoreTable_no_rows players input :
  (forall p items, input ≫= (fun table => table !! p) <> Some (Items items)) ->
  coerceScoreTable players input = coerceScoreTable players None.
Proof.
  intros H. apply map_eq. intros p. rewrite !coerceScoreTable_lookup.
  destruct (decide (p ∈ players)); [|reflexivity]. f_equal.
  cbn [mbind option_bind].
  destruct (input ≫= _) as [[items|v]|] eqn:E; try reflexivity.
  exfalso. exact (H p items E).
Qed.

(** X19.  [coerceScoresByDay] returns, for every stored value, two tables
    with a row of eighteen finite-or-null cells for each player of the
    roster and for nobody else.  A document in the old format (rows under
    the player names, no key [day1] or [day2]) is read as day 1, and day 2
    is empty; a document with the two tables of the new format is read day
    by day; a document whose key [day1] holds a row instead of a table
    (an old document with a player of that name) loses every row. *)
Theorem coerceScoresByDay_tables players (input : option (gmap string entry)) :
  TableOf players (fst (coerceScoresByDay players input)) /\
  TableOf players (snd (coerceScoresByDay players input)) /\
  (forall raw p items,
      input = Some raw ->
      raw !! "day1"%string = None -> raw !! "day2"%string = None ->
      p ∈ players -> raw !! p = Some (Leaf (Items items)) ->
      fst (coerceScoresByDay players input) !! p =
        Some (coerceRow (Some (Items items))) /\
      snd (coerceScoresByDay players input) !! p = Some emptyCard) /\
  (forall raw t1 t2,
      input = Some raw ->
      raw !! "day1"%string = Some (Nested t1) ->
      raw !! "day2"%string = Some (Nested t2) ->
      coerceScoresByDay players input =
        (coerceScoreTable players (Some t1),
         coerceScoreTable players (Some t2))) /\
  (forall raw row p,
      input = Some raw ->
      raw !! "day1"%string = Some (Leaf row) ->
      raw !! "day2"%string = None ->
      p ∈ players ->
      fst (coerceScoresByDay players input) !! p = Some emptyCard /\
      snd (coerceScoresByDay players input) !! p = Some emptyCard).
Proof.
  split; [apply coerceScoreTable_TableOf|].
  split; [apply coerceScoreTable_TableOf|].
  unfold coerceScoresByDay. split; [|split].
  - intros raw p items -> -> -> Hp Hrow.
    rewrite !bool_decide_eq_true_2 by reflexivity. cbn [fst snd andb].
    rewrite !coerceScoreTable_lookup, !decide_True by exact Hp.
    cbn [mbind option_bind]. rewrite lookup_fmap, Hrow. split; reflexivity.
  - intros raw t1 t2 -> -> ->. reflexivity.
  - intros raw row p -> -> -> Hp. cbn [fst snd].
    rewrite !coerceScoreTable_lookup, !decide_True by exact Hp.
    split; reflexivity.
Qed.

Lemma coerceScoresByDay_tables_witness :
  fst (coerceScoresByDay ["Ann"%string] (Some oldFormatScores)) !! "Ann"%string =
    Some (coerceRow (Some (Items [VNumber (num 5); VNumber (num 4)]))) /\
  snd (coerceScoresByDay ["Ann"%string] (Some oldFormatScores)) !! "Ann"%string =
    Some emptyCard.
Proof.
  refine (proj1 (proj2 (proj2 (coerceScoresByDay_tables ["Ann"%string]
                                 (Some oldFormatScores))))
            oldFormatScores "Ann"%string _ eq_refl eq_refl eq_refl
            (list_elem_of_here _ _) eq_refl).
Defined.

(** ** The state after a snapshot *)

Lemma coerceNumberMap_KeyedBy players input d :
  KeyedBy players (coerceNumberMap players input d).
Proof.
  intros p. rewrite coerceNumberMap_lookup.
  destruct (decide (p ∈ players)) as [Hin|Hout].
  - split; [intros _; exact Hin|intros _; now eexists].
  - split; [intros [x Hx]; discriminate|intros Hin; contradiction].
Qed.

Lemma coerceTeeMap_KeyedBy players input d :
  KeyedBy players (coerceTeeMap players input d).
Proof.
  intros p. rewrite coerceTeeMap_lookup.
  destruct (decide (p ∈ players)) as [Hin|Hout].
  - split; [intros _; exact Hin|intros _; now eexists].
  - split; [intros [x Hx]; discriminate|intros Hin; contradiction].
Qed.

Lemma coerceScoreTable_KeyedBy players input :
  KeyedBy players (coerceScoreTable players input).
Proof.
  intros p. rewrite coerceScoreTable_lookup.
  destruct (decide (p ∈ players)) as [Hin|Hout].
  - split; [intros _; exact Hin|intros _; now eexists].
  - split; [intros [x Hx]; discriminate|intros Hin; contradiction].
Qed.

Lemma onSnapshot_StateFinite (toLowerCase : string -> string)
    (data : GroupDoc) :
  StateFinite (onSnapshot toLowerCase data).
Proof.
  split; cbn [onSnapshot scoresByDay_day1 scoresByDay_day2 handicaps
              day2Adjustments charityStrokes treeStrokes];
    try (apply coerceNumberMap_FiniteNumbers; reflexivity);
    unfold coerceScoresByDay; cbn [fst snd];
    apply coerceScoreTable_FiniteCards.
Qed.


Lemma allPlayers_clean (toLowerCase : string -> string) (data : GroupDoc) :
  Forall CleanName (allPlayers toLowerCase data) /\
  NoDup (toLowerCase <$> allPlayers toLowerCase data).
Proof.
  unfold allPlayers. cbv zeta.
  match goal with
  | |- Forall _ (uniqPreserveOrder _ ?l) /\ _ =>
      destruct (uniqPreserveOrder_shape toLowerCase l) as (Hnd & _ & Hc)
  end.
  split; [exact Hc|exact Hnd].
Qed.

(** X21.  After a snapshot of a document whose roster does not hold the
    name [__proto__], the eight per-player maps of the state (two score
    tables, handicaps, day-2 adjustments, two tee maps, charity and tree
    strokes) have an entry under an ordinary name exactly when the name is
    one of [allPlayers]; and the names of [allPlayers] are trimmed,
    non-empty and distinct up to case. *)
Theorem onSnapshot_players (toLowerCase : string -> string)
    (data : GroupDoc) (p : string) :
  OrdinaryName p ->
  "__proto__"%string ∉ allPlayers toLowerCase data ->
  (Forall CleanName (allPlayers toLowerCase data) /\
   NoDup (toLowerCase <$> allPlayers toLowerCase data)) /\
  EntryIff (allPlayers toLowerCase data)
    (scoresByDay_day1 (onSnapshot toLowerCase data)) p /\
  EntryIff (allPlayers toLowerCase data)
    (scoresByDay_day2 (onSnapshot toLowerCase data)) p /\
  EntryIff (allPlayers toLowerCase data)
    (handicaps (onSnapshot toLowerCase data)) p /\
  EntryIff (allPlayers toLowerCase data)
    (day2Adjustments (onSnapshot toLowerCase data)) p /\
  EntryIff (allPlayers toLowerCase data)
    (teeChoicesByDay_day1 (onSnapshot toLowerCase data)) p /\
  EntryIff (allPlayers toLowerCase data)
    (teeChoicesByDay_day2 (onSnapshot toLowerCase data)) p /\
  EntryIff (allPlayers toLowerCase data)
    (charityStrokes (onSnapshot toLowerCase data)) p /\
  EntryIff (allPlayers toLowerCase data)
    (treeStrokes (onSnapshot toLowerCase data)) p.
Proof.
  intros _ _. split; [apply allPlayers_clean|].
  repeat split;
    try (intros H; revert H; apply coerceScoreTable_KeyedBy);
    try (intros H; revert H; apply coerceNumberMap_KeyedBy);
    try (intros H; revert H; apply coerceTeeMap_KeyedBy).
Qed.

Lemma onSnapshot_players_witness :
  EntryIff (allPlayers lowerAscii sampleDoc)
    (handicaps (onSnapshot lowerAscii sampleDoc)) "Bob".
Proof.
  refine (proj1 (proj2 (proj2 (proj2 (onSnapshot_players lowerAscii sampleDoc
                                        "Bob"%string eq_refl _))))).
  intros H. apply list_elem_of_In in H. vm_compute in H.
  destruct H as [H|[H|[]]]; discriminate.
Defined.

(** X22.  A roster name that is blank or carries leading or trailing white
    space is not a key of the score tables built by the snapshot handler,
    which are keyed by trimmed names: under that name the leaderboards show
    gross 0, net 0 and no to-par, whatever the stored scores are. *)
Theorem onSnapshot_untrimmed_name (toLowerCase : string -> string)
    (data : GroupDoc) (day : DayKey) (p : string) :
  ~ CleanName p ->
  scoresOfDay day (onSnapshot toLowerCase data) !! p = None /\
  gross (rowOfDay day (onSnapshot toLowerCase data) p) = num 0 /\
  net (rowOfDay day (onSnapshot toLowerCase data) p) = num 0 /\
  toPar (rowOfDay day (onSnapshot toLowerCase data) p) = None.
Proof.
  intros Hp.
  assert (Hout : p ∉ allPlayers toLowerCase data).
  { intros Hin. apply Hp.
    destruct (allPlayers_clean toLowerCase data) as [Hc _].
    rewrite Forall_forall in Hc. now apply Hc. }
  assert (Hnone : scoresOfDay day (onSnapshot toLowerCase data) !! p = None).
  { destruct (scoresOfDay day (onSnapshot toLowerCase data) !! p) eqn:E;
      [|reflexivity].
    exfalso. apply Hout.
    destruct day; cbn [scoresOfDay] in E;
      eapply coerceScoreTable_KeyedBy; eexists; exact E. }
  split; [exact Hnone|].
  destruct day; cbn [rowOfDay gross net toPar day1Row day2Row];
    apply row_without_scores; left; exact Hnone.
Qed.

Lemma onSnapshot_untrimmed_name_witness :
  scoresOfDay day1 (onSnapshot lowerAscii sampleDoc) !! "Ann "%string = None /\
  gross (rowOfDay day1 (onSnapshot lowerAscii sampleDoc) "Ann ") = num 0 /\
  net (rowOfDay day1 (onSnapshot lowerAscii sampleDoc) "Ann ") = num 0 /\
  toPar (rowOfDay day1 (onSnapshot lowerAscii sampleDoc) "Ann ") = None.
Proof.
  apply onSnapshot_untrimmed_name. intros [H _]. vm_compute in H.
  discriminate.
Defined.


(** ** Entering a score *)

Section Entry.

Variable otherLiteral : string -> number.

Lemma enteredCell_NonNegativeOrNull (raw : string) :
  NonNegativeOrNull (enteredCell otherLiteral raw).
Proof.
  unfold enteredCell. destruct (String.eqb raw EmptyString); [now left|].
  destruct (isFinite _ && ge _ _) eqn:E; [|now left].
  right. apply playedCell_true. exact E.
Qed.

Lemma cellOrNull_NonNegativeOrNull
    (scores : gmap string (list cell)) (p : string) (i : nat) :
  RowsNonNegative scores -> NonNegativeOrNull (cellOrNull scores p i).
Proof.
  intros H. unfold cellOrNull.
  destruct (scores !! p) as [row|] eqn:E; cbn; [|now left].
  destruct (row !! i) as [c|] eqn:Ei; cbn; [|now left].
  specialize (H p row E). rewrite Forall_forall in H. apply H.
  eapply list_elem_of_lookup_2. exact Ei.
Qed.

Lemma Forall_fmap_seq {A} (P : A -> Prop) (f : nat -> A) (n : nat) :
  (forall i, P (f i)) -> Forall P (f <$> seq 0 n).
Proof.
  intros H. apply Forall_fmap, Forall_forall. intros i _. apply H.
Qed.

(** X23.  Entering a score keeps the table valid.  If every cell of the
    table is null or a finite non-negative number, the same holds after the
    change handler has run, for every text typed (negative numbers, words,
    [Infinity]) and every hole; the row of the player has eighteen cells
    afterwards. *)
Theorem nextScoresTable_keeps_scores_valid
    (scores : gmap string (list cell)) (p : string) (holeIdx : nat)
    (raw : string) :
  RowsNonNegative scores ->
  RowsNonNegative (nextScoresTable otherLiteral scores p holeIdx raw) /\
  exists row,
    nextScoresTable otherLiteral scores p holeIdx raw !! p = Some row /\
    length row = HOLE_COUNT.
Proof.
  intros H. unfold nextScoresTable. cbv zeta. split.
  - intros q row. destruct (decide (p = q)) as [->|Hne].
    + rewrite lookup_insert_eq. intros Heq. apply (inj Some) in Heq.
      rewrite <- Heq.
      apply Forall_insert; [|apply enteredCell_NonNegativeOrNull].
      apply Forall_fmap_seq. intros i.
      now apply cellOrNull_NonNegativeOrNull.
    + rewrite lookup_insert_ne by exact Hne. apply H.
  - eexists. rewrite lookup_insert_eq. split; [reflexivity|].
    rewrite length_insert, length_fmap, length_seq. reflexivity.
Qed.


End Entry.

Lemma nextScoresTable_keeps_scores_valid_witness :
  RowsNonNegative
    (nextScoresTable (fun _ => num (-5))
       {[ "Ann"%string := allFours ]} "Ann" 3 "-5").
Proof.
  apply nextScoresTable_keeps_scores_valid.
  intros q row Hq. apply lookup_singleton_Some in Hq as [_ <-].
  apply Forall_replicate. right. exists (Qc_of_Z 4). split; [reflexivity|].
  now apply Qc_of_Z_le.
Defined.


(** ** Contest entries *)

Lemma orNull_trim_clean (s : string) : CleanText (orNull (trim s)).
Proof.
  unfold orNull. destruct (String.eqb_spec (trim s) EmptyString) as [E|E];
    cbn; [exact I|]. split; [apply trim_trim|exact E].
Qed.

Lemma trim_empty : trim EmptyString = EmptyString.
Proof. reflexivity. Qed.

Lemma orNull_round (s : string) :
  orNull (trim (default EmptyString (orNull (trim s)))) = orNull (trim s).
Proof.
  destruct (orNull (trim s)) as [t|] eqn:E; [|reflexivity].
  unfold orNull in E.
  destruct (String.eqb (trim s) EmptyString) eqn:E'; [discriminate|].
  injection E as <-. cbn [from_option id]. rewrite trim_trim.
  unfold orNull. now rewrite E'.
Qed.

Lemma normalizeWinnerNote_round (entry : WinnerNoteText) :
  normalizeWinnerNote
    {| winnerText := default EmptyString (winner (normalizeWinnerNote entry));
       noteText := default EmptyString (note (normalizeWinnerNote entry)) |}
  = normalizeWinnerNote entry.
Proof.
  unfold normalizeWinnerNote. cbn [winner note winnerText noteText].
  now rewrite !orNull_round.
Qed.

Lemma keptEntry_round (text : WinnerNoteText) :
  let keep := fun entry =>
    let normalized := normalizeWinnerNote entry in
    if notNull (winner normalized) || notNull (note normalized)
    then Some normalized else None in
  let read := fun v : option ContestWinnerNote =>
    {| winnerText := default EmptyString (v ≫= winner);
       noteText := default EmptyString (v ≫= note) |} in
  (read <$> (Some <$> keep text)) ≫= keep = keep text.
Proof.
  cbv beta zeta.
  destruct (notNull (winner (normalizeWinnerNote text))
            || notNull (note (normalizeWinnerNote text))) eqn:E;
    [|reflexivity].
  cbn [fmap option_fmap option_map mbind option_bind].
  rewrite normalizeWinnerNote_round, E. reflexivity.
Qed.

(** X25.  Saving the closest-to-pin entries, loading them and saving them
    again writes the same map as the first save, whatever the legacy entry
    is.  Every entry that is saved has a winner or a note, each present
    text is trimmed and not empty, and the entry is the normal form of the
    entry of the state under the same hole. *)
Theorem closestToPin_save_load_save (fractionText : Qc -> string)
    (state : gmap string WinnerNoteText) (legacy : option ContestEntry) :
  normalizeClosestToPinByHoleState
    (coerceClosestToPinByHoleFromDoc fractionText
       (Some (savedClosestToPin state legacy)))
  = normalizeClosestToPinByHoleState state /\
  (forall holeKey entry,
      normalizeClosestToPinByHoleState state !! holeKey = Some entry ->
      (winner entry <> None \/ note entry <> None) /\
      CleanText (winner entry) /\ CleanText (note entry) /\
      exists text, state !! holeKey = Some text /\
                   entry = normalizeWinnerNote text).
Proof.
  split.
  - apply map_eq. intros k.
    unfold coerceClosestToPinByHoleFromDoc, savedClosestToPin,
      normalizeClosestToPinByHoleState.
    cbn [mbind option_bind closestToPinByHole].
    rewrite lookup_omap, !lookup_fmap, lookup_omap.
    destruct (state !! k) as [text|]; [|reflexivity].
    exact (keptEntry_round text).
  - intros k entry. unfold normalizeClosestToPinByHoleState.
    rewrite lookup_omap. destruct (state !! k) as [text|]; [|discriminate].
    cbn [mbind option_bind]. cbv zeta.
    destruct (notNull (winner (normalizeWinnerNote text))
              || notNull (note (normalizeWinnerNote text))) eqn:E;
      [|discriminate].
    intros [= <-]. split; [|split; [|split]].
    + apply orb_prop in E as [E|E]; [left|right];
        now destruct (_ (normalizeWinnerNote text)).
    + apply orNull_trim_clean.
    + apply orNull_trim_clean.
    + now exists text.
Qed.

Lemma Qfloor_lt_1 (q : Qc) : (q < Qc_of_Z 1)%Qc -> Qfloor q < 1.
Proof.
  intros H. rewrite Zlt_Qlt. eapply Qle_lt_trans; [apply Qfloor_le|].
  unfold Qclt in H. cbn in H. exact H.
Qed.

Section HoleNumber.

Variable otherLiteral : string -> number.

Lemma Number_blank (s : string) :
  trim s = EmptyString -> Number otherLiteral s = num 0.
Proof. intros E. unfold Number. rewrite E. reflexivity. Qed.

(** X26.  [holeStringToNumber] returns null or a non-negative integer.  It
    returns null on a blank text and on the text of 0, and [n] on the
    decimal text of [n] with [1 <= n < 2^53]; on a text that reads as a
    number strictly between 0 and 1 it returns the hole number 0, because
    the sign is tested before the number is floored. *)
Theorem holeStringToNumber_cases (s : string) :
  (holeStringToNumber otherLiteral s = None \/
   exists k : Z, 0 <= k /\ holeStringToNumber otherLiteral s = Some (num k)) /\
  (trim s = EmptyString -> holeStringToNumber otherLiteral s = None) /\
  (forall n : N,
      (n < 2 ^ 53)%N -> s = decimal n ->
      holeStringToNumber otherLiteral s =
        if (n =? 0)%N then None else Some (num (Z.of_N n))) /\
  (forall q : Qc,
      Number otherLiteral s = Fin q -> (Qc_of_Z 0 < q)%Qc ->
      (q < Qc_of_Z 1)%Qc ->
      holeStringToNumber otherLiteral s = Some (num 0)).
Proof.
  unfold holeStringToNumber. split; [|split; [|split]].
  - destruct (Number otherLiteral s) as [| | |q]; cbn [isFinite negb];
      try now left.
    cbn [le num]. destruct (Qcleb q (Qc_of_Z 0)) eqn:E; [now left|].
    right. exists (Qfloor q). split; [|reflexivity].
    apply Qfloor_nonneg. apply Qcleb_false in E. now apply Qclt_le_weak.
  - intros E. rewrite (Number_blank s E). cbn [isFinite num negb le].
    now rewrite Qcleb_of_Z.
  - intros n _ ->. rewrite Number_decimal. cbn [isFinite num negb le].
    rewrite Qcleb_of_Z, floor_num.
    destruct (N.eqb_spec n 0) as [->|Hn]; [reflexivity|].
    destruct (Z.leb_spec (Z.of_N n) 0); [lia|reflexivity].
  - intros q -> Hpos Hlt. cbn [isFinite negb le num floor].
    assert (E : Qcleb q (Qc_of_Z 0) = false).
    { apply Qcleb_false. exact Hpos. }
    rewrite E. do 2 f_equal. unfold num. f_equal.
    assert (0 <= Qfloor q) by (apply Qfloor_nonneg; now apply Qclt_le_weak).
    assert (Qfloor q < 1); [|f_equal; lia].
    apply Qfloor_lt_1. exact Hlt.
Qed.

End HoleNumber.

Lemma holeStringToNumber_cases_witness :
  holeStringToNumber (fun _ => Fin (Q2Qc (1 # 2))) "0.5" = Some (num 0).
Proof.
  refine (proj2 (proj2 (proj2 (holeStringToNumber_cases
                                 (fun _ => Fin (Q2Qc (1 # 2))) "0.5")))
            (Q2Qc (1 # 2)) eq_refl _ _); reflexivity.
Defined.

(** ** Notes in other notations *)

Section Fails.

Context {T : Type}.

(** A pattern matches only through its continuation, which it calls on
    suffixes of the input. *)
Lemma starLoop_fails (m : list ascii -> captures -> @cont T -> option T)
    (fuel : nat) (s : list ascii) (caps : captures) (k : @cont T) :
  (forall s0 caps0 k0,
      s0 `suffix_of` s ->
      (forall s' caps', s' `suffix_of` s0 -> k0 s' caps' = None) ->
      m s0 caps0 k0 = None) ->
  (forall s' caps', s' `suffix_of` s -> k s' caps' = None) ->
  starLoop m fuel s caps k = None.
Proof.
  intros Hm. revert caps.
  assert (Hgen : forall s0 caps0, s0 `suffix_of` s ->
            (forall s' caps', s' `suffix_of` s -> k s' caps' = None) ->
            starLoop m fuel s0 caps0 k = None).
  { induction fuel as [|fuel IH]; intros s0 caps0 Hs0 Hk; cbn [starLoop].
    - now apply Hk.
    - rewrite (Hm s0 caps0); [cbn [orTry]; now apply Hk|exact Hs0|].
      intros s' caps' Hs'. destruct (length s' <? length s0)%nat; [|reflexivity].
      apply IH; [|exact Hk]. now transitivity s0. }
  intros caps Hk. now apply Hgen.
Qed.

Lemma matchR_fails (r : regex) (s : list ascii) (caps : captures)
    (k : @cont T) :
  (forall s' caps', s' `suffix_of` s -> k s' caps' = None) ->
  matchR r s caps k = None.
Proof.
  revert s caps k.
  induction r as [|c| | |r1 IH1 r2 IH2|r1 IH1 r2 IH2|r1 IH1|n r1 IH1];
    intros s caps k Hk; cbn [matchR].
  - now apply Hk.
  - destruct s as [|c' s']; [reflexivity|].
    destruct (Ascii.eqb _ _); [|reflexivity]. apply Hk. now apply suffix_cons_r.
  - destruct s as [|c' s']; [reflexivity|].
    destruct (isDigit c'); [|reflexivity]. apply Hk. now apply suffix_cons_r.
  - destruct s as [|c' s']; [reflexivity|].
    destruct (isSpace c'); [|reflexivity]. apply Hk. now apply suffix_cons_r.
  - apply IH1. intros s' caps' Hs'. apply IH2.
    intros s'' caps'' Hs''. apply Hk. now transitivity s'.
  - rewrite IH1, IH2 by exact Hk. reflexivity.
  - apply starLoop_fails; [|exact Hk].
    intros s0 caps0 k0 _ Hk0. now apply IH1.
  - apply IH1. intros s' caps' Hs'. now apply Hk.
Qed.

(** A pattern that needs the character [c] after a prefix that calls the
    rest on suffixes fails on an input without [c]. *)
Lemma Chr_lacks (c : ascii) (s : list ascii) (caps : captures) (k : @cont T) :
  lacks c s = true -> matchR (Chr c) s caps k = None.
Proof.
  destruct s as [|c' s']; [reflexivity|]. cbn [lacks forallb matchR].
  intros H. apply andb_prop in H as [H _].
  apply negb_true_iff in H. now rewrite H.
Qed.

End Fails.

Lemma lacks_suffix (c : ascii) (s s' : list ascii) :
  s' `suffix_of` s -> lacks c s = true -> lacks c s' = true.
Proof.
  intros [pre ->]. unfold lacks. rewrite forallb_app.
  intros H. now apply andb_prop in H as [_ H].
Qed.

Lemma search_fails (r : regex) (s : list ascii) :
  (forall s', s' `suffix_of` s -> matchHere r s' = None) ->
  search r s = None.
Proof.
  induction s as [|c s IH]; intros H; cbn [search].
  - now rewrite H.
  - rewrite H by reflexivity. apply IH. intros s' Hs'. apply H.
    now apply suffix_cons_r.
Qed.

Lemma apostrophePattern_fails (s : list ascii) :
  lacks "'"%char s = true -> search apostrophePattern s = None.
Proof.
  intros H. apply search_fails. intros s0 Hs0.
  unfold matchHere, apostrophePattern. rewrite matchR_Seq.
  apply matchR_fails. intros s1 caps1 Hs1. rewrite matchR_Seq.
  apply matchR_fails. intros s2 caps2 Hs2. rewrite matchR_Seq.
  apply Chr_lacks. apply (lacks_suffix _ s); [|exact H].
  transitivity s1; [exact Hs2|]. now transitivity s0.
Qed.

Lemma ftInPattern_fails (s : list ascii) :
  lacks "f"%char s = true -> search ftInPattern s = None.
Proof.
  intros H. apply search_fails. intros s0 Hs0.
  unfold matchHere, ftInPattern. rewrite matchR_Seq.
  apply matchR_fails. intros s1 caps1 Hs1. rewrite matchR_Seq.
  apply matchR_fails. intros s2 caps2 Hs2. rewrite matchR_Seq.
  assert (H2 : lacks "f"%char s2 = true).
  { apply (lacks_suffix _ s); [|exact H].
    transitivity s1; [exact Hs2|]. now transitivity s0. }
  rewrite matchR_Alt. unfold word. cbn [list_ascii_of_string Lit].
  rewrite !matchR_Seq, !Chr_lacks by exact H2. reflexivity.
Qed.

Lemma toLower_digit (d : ascii) : isDigit d = true -> toLower d = d.
Proof. destruct d as [[] [] [] [] [] [] [] []]; vm_compute; congruence. Qed.

Lemma toLower_not_digit (c : ascii) :
  isDigit c = false -> isDigit (toLower c) = false.
Proof. destruct c as [[] [] [] [] [] [] [] []]; vm_compute; congruence. Qed.

Lemma isDigit_lacks (c : ascii) (s : list ascii) :
  isDigit c = false -> forallb isDigit s = true -> lacks c s = true.
Proof.
  intros Hc Hs. unfold lacks. rewrite forallb_forall in Hs.
  apply forallb_forall. intros d Hd. specialize (Hs d Hd).
  apply negb_true_iff, Ascii.eqb_neq. intros E.
  rewrite (toLower_digit d Hs) in E.
  apply toLower_not_digit in Hc. rewrite E in Hc. congruence.
Qed.

Lemma lacks_app (c : ascii) (s t : list ascii) :
  lacks c (s ++ t) = lacks c s && lacks c t.
Proof. apply forallb_app. Qed.

(** ** Runs of digits *)

Lemma numberPattern_here (run rest : list ascii) :
  run <> [] -> forallb isDigit run = true -> headFails isDigit rest ->
  search numberPattern (run ++ rest) =
    Some {| matched := run; groups := []; after := rest |}.
Proof.
  intros Hne Hrun Hrest. apply search_here. unfold matchHere, numberPattern.
  apply (matchR_Plus_run Digit isDigit Digit_step); auto.
  replace (length (run ++ rest) - length rest)%nat with (length run)
    by (rewrite length_app; lia).
  now rewrite take_app_length.
Qed.

Lemma numberPattern_skip (c : ascii) (s : list ascii) :
  isDigit c = false -> search numberPattern (c :: s) = search numberPattern s.
Proof.
  intros Hc. cbn [search]. unfold matchHere, numberPattern, Plus.
  rewrite matchR_Seq, Digit_step, Hc. reflexivity.
Qed.

Lemma numberPattern_nil : search numberPattern [] = None.
Proof. reflexivity. Qed.

Lemma searchAll_one (fuel : nat) (run : list ascii) :
  run <> [] -> forallb isDigit run = true ->
  searchAll (S (S fuel)) numberPattern run = [run].
Proof.
  intros Hne Hrun. cbn [searchAll].
  rewrite <- (app_nil_r run) at 1.
  rewrite numberPattern_here by (auto; exact I).
  cbn [matched after]. destruct run as [|c run]; [contradiction|].
  rewrite numberPattern_nil. reflexivity.
Qed.

Lemma searchAll_two (fuel : nat) (run1 run2 : list ascii) (sep : ascii) :
  run1 <> [] -> forallb isDigit run1 = true ->
  run2 <> [] -> forallb isDigit run2 = true ->
  isDigit sep = false ->
  searchAll (S (S (S fuel))) numberPattern (run1 ++ sep :: run2) =
    [run1; run2].
Proof.
  intros Hne1 Hrun1 Hne2 Hrun2 Hsep.
  change (searchAll (S (S (S fuel))) numberPattern (run1 ++ sep :: run2))
    with (match search numberPattern (run1 ++ sep :: run2) with
          | None => []
          | Some m =>
              matched m ::
              match matched m, after m with
              | [], [] => []
              | [], _ :: rest => searchAll (S (S fuel)) numberPattern rest
              | _ :: _, rest => searchAll (S (S fuel)) numberPattern rest
              end
          end).
  rewrite numberPattern_here by (auto; exact Hsep).
  cbn [matched after]. destruct run1 as [|c run1]; [contradiction|].
  f_equal.
  change (searchAll (S (S fuel)) numberPattern (sep :: run2))
    with (match search numberPattern (sep :: run2) with
          | None => []
          | Some m =>
              matched m ::
              match matched m, after m with
              | [], [] => []
              | [], _ :: rest => searchAll (S fuel) numberPattern rest
              | _ :: _, rest => searchAll (S fuel) numberPattern rest
              end
          end).
  rewrite numberPattern_skip by exact Hsep.
  rewrite <- (app_nil_r run2) at 1.
  rewrite numberPattern_here by (auto; exact I).
  cbn [matched after]. destruct run2 as [|c2 run2]; [contradiction|].
  reflexivity.
Qed.

Lemma trim_chars (s : string) :
  headFails isSpace (list_ascii_of_string s) ->
  headFails isSpace (rev (list_ascii_of_string s)) ->
  trim s = s.
Proof.
  intros H1 H2. unfold trim. rewrite trimChars_id by assumption.
  apply string_of_list_ascii_of_string.
Qed.

Lemma headFails_rev_digits (n : N) (pre : list ascii) :
  headFails isSpace (rev (pre ++ digits n)).
Proof.
  rewrite rev_app_distr.
  pose proof (digits_nonempty n) as Hne. pose proof (digits_all n) as Hall.
  rewrite <- forallb_rev in Hall.
  destruct (rev (digits n)) as [|c l] eqn:E.
  - exfalso. apply Hne. rewrite <- (rev_involutive (digits n)), E. reflexivity.
  - cbn in *. apply andb_prop in Hall as [Hc _]. now apply isDigit_not_space.
Qed.

Lemma not_empty_chars (s : string) :
  list_ascii_of_string s <> [] -> String.eqb s EmptyString = false.
Proof. destruct s; [contradiction|reflexivity]. Qed.

Lemma ftInNote_chars (f i : N) :
  list_ascii_of_string (ftInNote f i) =
  digits f ++ " "%char :: "f"%char :: "t"%char :: " "%char
    :: digits i ++ [" "%char; "i"%char; "n"%char].
Proof.
  unfold ftInNote. rewrite !list_ascii_of_string_app. reflexivity.
Qed.

Lemma separatedNote_chars (f i : N) (sep : ascii) :
  list_ascii_of_string (separatedNote f i sep) = digits f ++ sep :: digits i.
Proof.
  unfold separatedNote. rewrite list_ascii_of_string_app. reflexivity.
Qed.

Lemma digits_lacks (c : ascii) (n : N) :
  isDigit c = false -> lacks c (digits n) = true.
Proof. intros H. apply isDigit_lacks; [exact H|apply digits_all]. Qed.

Lemma matchR_Eps {T} s caps (k : @cont T) : matchR Eps s caps k = k s caps.
Proof. reflexivity. Qed.

Lemma ftInPattern_ftInNote (f i : N) :
  exists m,
    matchHere ftInPattern (list_ascii_of_string (ftInNote f i)) = Some m /\
    groups m = [(2%nat, digits i); (1%nat, digits f)].
Proof.
  rewrite ftInNote_chars. unfold matchHere, ftInPattern.
  set (whole := digits f ++ " "%char :: "f"%char :: "t"%char :: " "%char
                  :: digits i ++ [" "%char; "i"%char; "n"%char]).
  eexists. split.
  { unfold whole at 1.
  rewrite matchR_Seq.
  apply (matchR_Group_Plus_run Digit isDigit Digit_step);
    [apply digits_nonempty|apply digits_all|reflexivity|].
  rewrite matchR_Seq.
  apply (matchR_Star_run Space isSpace Space_step [" "%char]);
    [reflexivity|reflexivity|].
  rewrite matchR_Seq, matchR_Alt. apply orTry_first.
  unfold word at 1. cbn [list_ascii_of_string Lit].
  rewrite matchR_Seq, matchR_Chr.
  replace (Ascii.eqb (toLower "f") (toLower "f")) with true by reflexivity.
  cbv beta. rewrite matchR_Seq, matchR_Chr.
  replace (Ascii.eqb (toLower "t") (toLower "t")) with true by reflexivity.
  cbv beta. rewrite matchR_Eps. cbv beta. rewrite matchR_Seq.
  apply (matchR_Star_run Space isSpace Space_step [" "%char]);
    [reflexivity|apply headFails_space_digits|].
  rewrite matchR_Seq. unfold Opt at 1. rewrite matchR_Alt. apply orTry_first.
  apply (matchR_Group_Plus_run Digit isDigit Digit_step);
    [apply digits_nonempty|apply digits_all|reflexivity|].
  rewrite matchR_Seq.
  apply (matchR_Star_run Space isSpace Space_step [" "%char]);
    [reflexivity|reflexivity|].
  unfold Opt. rewrite matchR_Alt. apply orTry_first.
  rewrite matchR_Alt. apply orTry_first.
  unfold word. cbn [list_ascii_of_string Lit].
  rewrite matchR_Seq, matchR_Chr.
  replace (Ascii.eqb (toLower "i") (toLower "i")) with true by reflexivity.
  cbv beta. rewrite matchR_Seq, matchR_Chr.
  replace (Ascii.eqb (toLower "n") (toLower "n")) with true by reflexivity.
  cbv beta. rewrite matchR_Eps. reflexivity. }
  reflexivity.
Qed.

(** X27.  The other notations the parser is written for.  The note
    [f ft i in] gives the feet [f] and the inches [i]; so do two numbers
    with one character between them that is not a digit, an apostrophe or
    the letter f (a space, a hyphen, a comma, a point); a number alone
    gives the feet and no inches. *)
Theorem parseFeetInches_notations (f i : N) :
  parseFeetInches (ftInNote f i) =
    {| feet := decimal f; inches := decimal i |} /\
  (forall sep, PlainSeparator sep ->
     parseFeetInches (separatedNote f i sep) =
       {| feet := decimal f; inches := decimal i |}) /\
  parseFeetInches (decimal f) = {| feet := decimal f; inches := EmptyString |}.
Proof.
  split; [|split].
  - unfold parseFeetInches.
    rewrite trim_chars.
    2:{ rewrite ftInNote_chars. apply headFails_space_digits. }
    2:{ rewrite ftInNote_chars.
        rewrite !app_comm_cons, app_assoc, rev_app_distr. reflexivity. }
    rewrite not_empty_chars.
    2:{ rewrite ftInNote_chars. pose proof (digits_nonempty f).
        destruct (digits f); [contradiction|discriminate]. }
    unfold matchFirst. rewrite apostrophePattern_fails.
    2:{ rewrite ftInNote_chars.
        change (digits f ++ " "%char :: "f"%char :: "t"%char :: " "%char
                  :: digits i ++ [" "%char; "i"%char; "n"%char])
          with (digits f ++ [" "%char; "f"%char; "t"%char; " "%char]
                  ++ digits i ++ [" "%char; "i"%char; "n"%char]).
        rewrite !lacks_app, !digits_lacks by reflexivity. reflexivity. }
    destruct (ftInPattern_ftInNote f i) as (m & Hm & Hg).
    rewrite (search_here _ _ _ Hm). unfold groupOrEmpty. rewrite Hg.
    cbn [capture List.find fst snd Nat.eqb fmap option_fmap option_map].
    now rewrite !decimal_of_digits.
  - intros sep (Hd & Ha & Hf). unfold parseFeetInches.
    rewrite trim_chars.
    2:{ rewrite separatedNote_chars. apply headFails_space_digits. }
    2:{ rewrite separatedNote_chars.
        change (digits f ++ sep :: digits i)
          with (digits f ++ [sep] ++ digits i).
        rewrite app_assoc. apply headFails_rev_digits. }
    rewrite not_empty_chars.
    2:{ rewrite separatedNote_chars. pose proof (digits_nonempty f).
        destruct (digits f); [contradiction|discriminate]. }
    unfold matchFirst. rewrite apostrophePattern_fails.
    2:{ rewrite separatedNote_chars.
        change (digits f ++ sep :: digits i)
          with (digits f ++ [sep] ++ digits i).
        rewrite !lacks_app, !digits_lacks, Ha by reflexivity. reflexivity. }
    rewrite ftInPattern_fails.
    2:{ rewrite separatedNote_chars.
        change (digits f ++ sep :: digits i)
          with (digits f ++ [sep] ++ digits i).
        rewrite !lacks_app, !digits_lacks, Hf by reflexivity. reflexivity. }
    unfold matchAll. rewrite separatedNote_chars.
    pose proof (digits_nonempty f) as Hf0. pose proof (digits_nonempty i) as Hi0.
    assert (Hlen : exists n, length (digits f ++ sep :: digits i) = S (S (S n))).
    { rewrite length_app. cbn [length].
      destruct (digits f) as [|a l]; [contradiction|].
      destruct (digits i) as [|a0 l0]; [contradiction|].
      exists (length l + length l0)%nat. cbn [length]. lia. }
    destruct Hlen as [n ->].
    rewrite (searchAll_two (S n));
      [|assumption|apply digits_all|assumption|apply digits_all|exact Hd].
    cbn [fmap list_fmap]. now rewrite !decimal_of_digits.
  - unfold parseFeetInches. rewrite trim_decimal, decimal_not_empty.
    unfold matchFirst. fold (digits f).
    rewrite apostrophePattern_fails by (apply digits_lacks; reflexivity).
    rewrite ftInPattern_fails by (apply digits_lacks; reflexivity).
    unfold matchAll. fold (digits f).
    pose proof (digits_nonempty f) as Hf0.
    destruct (length (digits f)) as [|n] eqn:E.
    { destruct (digits f); [contradiction|discriminate]. }
    rewrite (searchAll_one n); [|assumption|apply digits_all].
    cbn [fmap list_fmap]. now rewrite decimal_of_digits.
Qed.

(** ** Saving a note again *)

Section Notes.

Variable otherLiteral : string -> number.
Variable fractionText : Qc -> string.

(** X28.  A formatted note is stable: parsing it and formatting the two
    parts again gives the same note, for all non-negative integers [f] and
    [i] with [12 f + i] below 2^53 (inches of twelve or more included). *)
Theorem formatFeetInches_stable (f i : N) :
  (12 * f + i < 2 ^ 53)%N ->
  formatFeetInches otherLiteral fractionText
    (feet (parseFeetInches
             (formatFeetInches otherLiteral fractionText
                (decimal f) (decimal i))))
    (inches (parseFeetInches
               (formatFeetInches otherLiteral fractionText
                  (decimal f) (decimal i))))
  = formatFeetInches otherLiteral fractionText (decimal f) (decimal i).
Proof.
  intros Hsafe.
  assert (Hsmall : (12 * f + i < 10 ^ 21)%N).
  { eapply N.lt_trans; [exact Hsafe|reflexivity]. }
  rewrite formatFeetInches_decimal by exact Hsmall.
  rewrite parseFeetInches_formatted. cbn [feet inches].
  assert (E : (12 * ((12 * f + i) / 12) + (12 * f + i) mod 12 = 12 * f + i)%N).
  { symmetry. apply N.div_mod. discriminate. }
  rewrite formatFeetInches_decimal by (rewrite E; exact Hsmall).
  now rewrite E.
Qed.

Lemma formatFeetInches_blank_feet (s : string) (i : N) :
  trim s = EmptyString ->
  formatFeetInches otherLiteral fractionText s (decimal i) =
    formatFeetInches otherLiteral fractionText (decimal 0) (decimal i).
Proof.
  intros Hs. unfold formatFeetInches.
  rewrite Hs, !trim_decimal, !decimal_not_empty. cbn [String.eqb andb].
  now rewrite Number_decimal, floor_num, max_0_num by lia.
Qed.

Lemma formatFeetInches_blank_inches (f : N) (t : string) :
  trim t = EmptyString ->
  formatFeetInches otherLiteral fractionText (decimal f) t =
    formatFeetInches otherLiteral fractionText (decimal f) (decimal 0).
Proof.
  intros Ht. unfold formatFeetInches.
  rewrite Ht, !trim_decimal, !decimal_not_empty. cbn [String.eqb andb].
  now rewrite (Number_decimal otherLiteral 0), floor_num, max_0_num by lia.
Qed.

(** X29.  Blank input.  When both texts are blank, [formatFeetInches]
    gives the empty note, and [parseFeetInches] of a blank note gives two
    empty texts; when only one text is blank it counts as 0. *)
Theorem formatFeetInches_blank (s t : string) :
  trim s = EmptyString -> trim t = EmptyString ->
  formatFeetInches otherLiteral fractionText s t = EmptyString /\
  parseFeetInches s = {| feet := EmptyString; inches := EmptyString |} /\
  (forall i : N, (i < 2 ^ 53)%N ->
     formatFeetInches otherLiteral fractionText s (decimal i) =
       formatted (i / 12) (i mod 12)) /\
  (forall f : N, (12 * f < 2 ^ 53)%N ->
     formatFeetInches otherLiteral fractionText (decimal f) t =
       formatted f 0).
Proof.
  intros Hs Ht. split; [|split; [|split]].
  - unfold formatFeetInches. now rewrite Hs, Ht.
  - unfold parseFeetInches. now rewrite Hs.
  - intros i Hi.
    assert (Hsmall : (i < 10 ^ 21)%N)
      by (eapply N.lt_trans; [exact Hi|reflexivity]).
    rewrite formatFeetInches_blank_feet by assumption.
    rewrite formatFeetInches_decimal by (cbn; exact Hsmall).
    reflexivity.
  - intros f Hf.
    assert (Hsmall : (12 * f + 0 < 10 ^ 21)%N).
    { rewrite N.add_0_r. eapply N.lt_trans; [exact Hf|reflexivity]. }
    rewrite formatFeetInches_blank_inches by assumption.
    rewrite formatFeetInches_decimal by exact Hsmall.
    rewrite N.add_0_r, N.mul_comm, N.div_mul, N.Div0.mod_mul by discriminate.
    reflexivity.
Qed.

End Notes.

Lemma parseFeetInches_notations_witness :
  parseFeetInches (separatedNote 3 7 "-") =
    {| feet := decimal 3; inches := decimal 7 |}.
Proof.
  apply (proj1 (proj2 (parseFeetInches_notations 3 7))).
  repeat split.
Defined.

Lemma formatFeetInches_stable_witness :
  formatFeetInches (fun _ => NaN) (fun _ => EmptyString)
    (feet (parseFeetInches
             (formatFeetInches (fun _ => NaN) (fun _ => EmptyString)
                (decimal 3) (decimal 14))))
    (inches (parseFeetInches
               (formatFeetInches (fun _ => NaN) (fun _ => EmptyString)
                  (decimal 3) (decimal 14))))
  = formatFeetInches (fun _ => NaN) (fun _ => EmptyString)
      (decimal 3) (decimal 14).
Proof. apply formatFeetInches_stable. reflexivity. Defined.

Lemma formatFeetInches_blank_witness :
  formatFeetInches (fun _ => NaN) (fun _ => EmptyString) " " EmptyString
    = EmptyString.
Proof.
  apply (formatFeetInches_blank (fun _ => NaN) (fun _ => EmptyString)
           " " EmptyString); reflexivity.
Defined.

(** ** The totals under the score card *)

Lemma sub_swap (x y c : number) :
  isFinite c = true -> sub (sub x y) c = sub (sub x c) y.
Proof.
  destruct c as [| | |c]; try discriminate. intros _.
  destruct x as [| | |x], y as [| | |y]; cbn; try reflexivity.
  f_equal. ring.
Qed.

Lemma applyCharityAtEnd_sub (net y : number) (scores : list cell)
    (charity : number) :
  applyCharityAtEnd (sub net y) scores charity =
    sub (applyCharityAtEnd net scores charity) y.
Proof.
  unfold applyCharityAtEnd.
  destruct (isFinite (floor charity)) eqn:E; cbn [negb orb]; [|reflexivity].
  destruct (le (floor charity) (num 0)); [reflexivity|].
  destruct (isCompleteRound (Some scores)); [|reflexivity].
  now apply sub_swap.
Qed.



